(** * Resilience and observability layer: cache, retry manager, monitor

    A shallow embedding of the three infrastructure utilities of the
    application (the TTL/LRU [CacheManager], the [RetryManager] with its
    circuit breaker, and the [PerformanceMonitor]) and of the [ErrorHandler]
    that feeds the monitor, together with the properties established about
    them.

    Conventions of the embedding:
    - [Date.now()] is an explicit argument [now : Z] (milliseconds);
    - a JS [Map] is an insertion-ordered association list with unique keys,
      because [evictLRU] and [getMostUsed] depend on the iteration order;
    - a plain JS object used as a dictionary is a [gmap string _], the map
      of its own properties; writes go through [Js.assign] where the key
      comes from a [Map] of the program, and the reads of
      [operationBreakdown] see the members that [Object.prototype] defines
      ([Js.inherited]); for the tallies of [getErrorStats] a read [obj[k]] is
      a lookup in the map, the keys being taken not to be such names;
    - JS numbers that stay finite are exact rationals ([Q]), the values of
      the expressions the code evaluates in binary64; the running average
      of [getPerformanceStats], where the rounding of each update decides
      what is stored, is computed in binary64 ([PrimFloat]); the one place
      where [undefined] flows into arithmetic uses [jsnum], which adds NaN;
    - [Array.prototype.sort] is a stable sort driven by the comparator;
    - a call reads the clock once: the readings a single synchronous call
      makes are taken to fall in the same millisecond.

    Left out, as no property below depends on them: the [metadata] bag of a
    metric, the user-message texts' wording (kept as an enumeration), the
    cache-key builders, and what the code writes to the console only. The
    order in which [Object.entries] lists the keys of a plain object is not
    modelled: what [import] stores is stated through lookups. *)

From Stdlib Require Import ZArith QArith Qround Qminmax Qpower Lia Lqa List String Ascii
  Permutation Sorted.
From Stdlib Require Floats Uint63.
From stdpp Require Import base gmap strings list.
Import ListNotations.

Local Open Scope string_scope.
Local Open Scope Z_scope.

(** ** JavaScript runtime pieces shared by the three utilities *)

Module Js.

(** A JS number: a finite value or NaN. *)
Inductive jsnum : Type :=
| Fin (q : Q)
| NaN.

(** [ToNumber] applied to the result of a property read: a missing
    property reads as [undefined], which converts to NaN. *)
Definition to_number (v : option Z) : jsnum :=
  match v with
  | Some n => Fin (inject_Z n)
  | None => NaN
  end.

Definition jsub (a b : jsnum) : jsnum :=
  match a, b with
  | Fin x, Fin y => Fin (x - y)
  | _, _ => NaN
  end.

Definition jmul (a b : jsnum) : jsnum :=
  match a, b with
  | Fin x, Fin y => Fin (x * y)
  | _, _ => NaN
  end.

Definition qmax (x y : Q) : Q := if Qle_bool x y then y else x.
Definition qmin (x y : Q) : Q := if Qle_bool x y then x else y.

(** [Math.max] and [Math.min] return NaN as soon as one argument is NaN. *)
Definition jmax (a b : jsnum) : jsnum :=
  match a, b with
  | Fin x, Fin y => Fin (qmax x y)
  | _, _ => NaN
  end.

Definition jmin (a b : jsnum) : jsnum :=
  match a, b with
  | Fin x, Fin y => Fin (qmin x y)
  | _, _ => NaN
  end.

(** [a > b] on numbers where the left one may be [undefined]. *)
Definition gt_undef (v : option Z) (b : Z) : bool :=
  match v with
  | Some n => b <? n
  | None => false
  end.

(** [Array.prototype.sort(cmp)]: stable; [cmp a b > 0] moves [a] after [b]. *)
Fixpoint insert_by {A} (after : A -> A -> bool) (x : A) (l : list A) : list A :=
  match l with
  | [] => [x]
  | y :: r => if after x y then y :: insert_by after x r else x :: y :: r
  end.

Definition sort_by {A} (after : A -> A -> bool) (l : list A) : list A :=
  fold_right (insert_by after) [] l.

(** [arr.slice(0, n)], including the negative [n] that counts from the end. *)
Definition slice0 {A} (n : Z) (l : list A) : list A :=
  if n <? 0
  then firstn (Z.to_nat (Z.max (Z.of_nat (List.length l) + n) 0)) l
  else firstn (Z.to_nat n) l.

(** [arr.slice(-n)] for a positive [n]: the last [n] elements. *)
Definition slice_last {A} (n : nat) (l : list A) : list A :=
  skipn (List.length l - n)%nat l.

(** [obj[key] = v] for an object [v], on a plain object created by [{}] and
    given by its own properties: under the key [__proto__] the assignment
    replaces the prototype of [obj] and creates no property. *)
Definition assign {V} (key : string) (v : V) (obj : gmap string V)
  : gmap string V :=
  if String.eqb key "__proto__" then obj else <[key := v]> obj.

(** *** Binary64

    Where the rounding of the code's arithmetic decides a property, numbers
    are the kernel's binary64 floats. [to_double q] is the double nearest to
    the rational [q], ties to even: the double itself when [q] is the value
    of one. *)

(** The integer nearest to [n / (d * 2^u)], ties to even. *)
Definition round_mantissa (n d u : Z) : Z :=
  let num := if 0 <=? u then n else n * 2 ^ (- u) in
  let den := if 0 <=? u then d * 2 ^ u else d in
  let q := num / den in
  let r := num mod den in
  if 2 * r <? den then q
  else if den <? 2 * r then q + 1
  else if Z.even q then q else q + 1.

(** On a fraction in lowest terms: the exponent [e] of the leading bit, the
    exponent [u] of the last place (53 bits, or the subnormal step), the
    mantissa rounded there. *)
Definition nearest (q : Q) : PrimFloat.float :=
  let n := Z.abs (Qnum q) in
  let d := Zpos (Qden q) in
  if n =? 0 then PrimFloat.zero
  else
    let e := Z.log2 n - Z.log2 d in
    let e :=
      if (if 0 <=? e then n <? d * 2 ^ e else n * 2 ^ (- e) <? d)
      then e - 1 else e in
    let u := Z.max (e - 52) (-1074) in
    let m := round_mantissa n d u in
    let f := FloatOps.Z.ldexp (PrimFloat.of_uint63 (Uint63.of_Z m)) u in
    if Qnum q <? 0 then PrimFloat.opp f else f.

Definition to_double (q : Q) : PrimFloat.float := nearest (Qred q).

(** An array length or a counter as a number: exact below [2^53]. *)
Definition of_count (n : Z) : PrimFloat.float :=
  PrimFloat.of_uint63 (Uint63.of_Z n).

(** *** Inherited properties

    The names that [Object.prototype] defines. On a plain object without an
    own property of that name, the read [obj[name]] yields the inherited
    member: a function or, for [__proto__], the prototype itself, truthy in
    every case. *)
Definition prototype_members : list string :=
  ["constructor"; "__defineGetter__"; "__defineSetter__"; "hasOwnProperty";
   "__lookupGetter__"; "__lookupSetter__"; "isPrototypeOf";
   "propertyIsEnumerable"; "toString"; "valueOf"; "__proto__";
   "toLocaleString"].

Definition inherited (name : string) : bool :=
  existsb (String.eqb name) prototype_members.

End Js.

(** ** CacheManager *)

Module Cache.

Record CacheItem (T : Type) : Type := mkItem {
  value : T;
  timestamp : Z;
  ttl : Z;
  accessCount : Z;
  lastAccessed : Z
}.
Arguments mkItem {T}.
Arguments value {T}.
Arguments timestamp {T}.
Arguments ttl {T}.
Arguments accessCount {T}.
Arguments lastAccessed {T}.

(** [Map<string, V>] in iteration (insertion) order. *)
Definition JsMap (V : Type) : Type := list (string * V).

Fixpoint map_get {V} (k : string) (m : JsMap V) : option V :=
  match m with
  | [] => None
  | (k', v) :: r => if String.eqb k k' then Some v else map_get k r
  end.

(** [Map.set]: an existing key keeps its position, a new key goes last. *)
Fixpoint map_set {V} (k : string) (v : V) (m : JsMap V) : JsMap V :=
  match m with
  | [] => [(k, v)]
  | (k', v') :: r =>
      if String.eqb k k' then (k, v) :: r else (k', v') :: map_set k v r
  end.

Fixpoint map_delete {V} (k : string) (m : JsMap V) : JsMap V :=
  match m with
  | [] => []
  | (k', v') :: r =>
      if String.eqb k k' then r else (k', v') :: map_delete k r
  end.

Definition keys {V} (m : JsMap V) : list string := map fst m.

(** Representation invariant of a [Map]: no key occurs twice. *)
Definition wf_map {V} (m : JsMap V) : Prop := List.NoDup (keys m).

Record CacheManager (T : Type) : Type := mkCache {
  cache : JsMap (CacheItem T);
  maxSize : Z;
  defaultTTL : Z;
  hits : Z;
  misses : Z
}.
Arguments mkCache {T}.
Arguments cache {T}.
Arguments maxSize {T}.
Arguments defaultTTL {T}.
Arguments hits {T}.
Arguments misses {T}.

Record CacheStats : Type := mkStats {
  totalItems : Z;
  hitRate : Q;
  missRate : Q;
  totalHits : Z;
  totalMisses : Z;
  memoryUsage : Z
}.

(** [new CacheManager(maxSize, defaultTTL)] *)
Definition new {T} (max : Z) (dttl : Z) : CacheManager T :=
  mkCache [] max dttl 0 0.

Definition with_cache {T} (c : CacheManager T) (m : JsMap (CacheItem T))
  : CacheManager T :=
  mkCache m (maxSize c) (defaultTTL c) (hits c) (misses c).

Definition size {T} (c : CacheManager T) : Z := Z.of_nat (List.length (cache c)).

(** The scan of [evictLRU]: the running pair [(oldestKey, oldestTime)]. *)
Definition lru_step {T} (acc : string * Z) (e : string * CacheItem T)
  : string * Z :=
  if lastAccessed (snd e) <? snd acc then (fst e, lastAccessed (snd e)) else acc.

Definition lru_scan {T} (now : Z) (m : JsMap (CacheItem T)) : string * Z :=
  fold_left lru_step m ("", now).

(** The truthiness test [if (oldestKey)]: the empty string is falsy. *)
Definition truthy_string (s : string) : bool :=
  match s with
  | EmptyString => false
  | String _ _ => true
  end.

Definition evictLRU {T} (now : Z) (m : JsMap (CacheItem T))
  : JsMap (CacheItem T) :=
  let oldestKey := fst (lru_scan now m) in
  if truthy_string oldestKey then map_delete oldestKey m else m.

(** [ttl || this.defaultTTL]: an omitted or zero [ttl] takes the default. *)
Definition ttl_or_default (t : option Z) (d : Z) : Z :=
  match t with
  | Some x => if x =? 0 then d else x
  | None => d
  end.

Definition set {T} (key : string) (v : T) (t : option Z) (now : Z)
  (c : CacheManager T) : CacheManager T :=
  let itemTTL := ttl_or_default t (defaultTTL c) in
  let m := if maxSize c <=? size c then evictLRU now (cache c) else cache c in
  with_cache c (map_set key (mkItem v now itemTTL 0 now) m).

Definition expired {T} (now : Z) (item : CacheItem T) : bool :=
  ttl item <? now - timestamp item.

Definition get {T} (key : string) (now : Z) (c : CacheManager T)
  : option T * CacheManager T :=
  match map_get key (cache c) with
  | None =>
      (None, mkCache (cache c) (maxSize c) (defaultTTL c) (hits c) (misses c + 1))
  | Some item =>
      if expired now item
      then (None, mkCache (map_delete key (cache c)) (maxSize c) (defaultTTL c)
                    (hits c) (misses c + 1))
      else
        let item' := mkItem (value item) (timestamp item) (ttl item)
                       (accessCount item + 1) now in
        (Some (value item),
         mkCache (map_set key item' (cache c)) (maxSize c) (defaultTTL c)
           (hits c + 1) (misses c))
  end.

Definition has {T} (key : string) (now : Z) (c : CacheManager T)
  : bool * CacheManager T :=
  match map_get key (cache c) with
  | None => (false, c)
  | Some item =>
      if expired now item
      then (false, with_cache c (map_delete key (cache c)))
      else (true, c)
  end.

Definition delete {T} (key : string) (c : CacheManager T)
  : bool * CacheManager T :=
  match map_get key (cache c) with
  | None => (false, c)
  | Some _ => (true, with_cache c (map_delete key (cache c)))
  end.

Definition clear {T} (c : CacheManager T) : CacheManager T :=
  mkCache [] (maxSize c) (defaultTTL c) 0 0.

(** The periodic sweep. *)
Definition cleanup {T} (now : Z) (c : CacheManager T) : CacheManager T :=
  let keysToDelete :=
    map fst (List.filter (fun e => expired now (snd e)) (cache c)) in
  with_cache c (fold_left (fun m k => map_delete k m) keysToDelete (cache c)).

(** The estimate of one entry in [getStats]; [stringify] is
    [JSON.stringify], an input of the embedding. *)
Definition entry_memory {T} (stringify : T -> string)
  (e : string * CacheItem T) : Z :=
  Z.of_nat (String.length (fst e)) * 2
  + Z.of_nat (String.length (stringify (value (snd e)))) * 2
  + 64.

Definition rate (part total : Z) : Q :=
  if 0 <? total then (inject_Z part / inject_Z total) * 100 else 0%Q.

Definition getStats {T} (stringify : T -> string) (c : CacheManager T)
  : CacheStats :=
  let totalRequests := hits c + misses c in
  let memory :=
    fold_left (fun acc e => acc + entry_memory stringify e) (cache c) 0 in
  mkStats (size c) (rate (hits c) totalRequests) (rate (misses c) totalRequests)
    (hits c) (misses c) memory.

(** [getMostUsed(limit = 10)]: keys with their access counts, most used
    first. *)
Definition getMostUsed {T} (limit : option Z) (c : CacheManager T)
  : list (string * Z) :=
  Js.slice0 (default 10 limit)
    (Js.sort_by (fun a b => 0 <? snd b - snd a)
       (map (fun e => (fst e, accessCount (snd e))) (cache c))).

(** Operations of a client, to describe arbitrary histories. *)
Inductive Op (T : Type) : Type :=
| OSet (key : string) (v : T) (t : option Z) (now : Z)
| OGet (key : string) (now : Z)
| OHas (key : string) (now : Z)
| ODelete (key : string)
| OClear
| OCleanup (now : Z).
Arguments OSet {T}.
Arguments OGet {T}.
Arguments OHas {T}.
Arguments ODelete {T}.
Arguments OClear {T}.
Arguments OCleanup {T}.

Definition step {T} (c : CacheManager T) (o : Op T) : CacheManager T :=
  match o with
  | OSet k v t now => set k v t now c
  | OGet k now => snd (get k now c)
  | OHas k now => snd (has k now c)
  | ODelete k => snd (delete k c)
  | OClear => clear c
  | OCleanup now => cleanup now c
  end.

Definition run {T} (ops : list (Op T)) (c : CacheManager T) : CacheManager T :=
  fold_left step ops c.

(** The clock reading an operation makes, if it makes one. *)
Definition op_time {T} (o : Op T) : option Z :=
  match o with
  | OSet _ _ _ now | OGet _ now | OHas _ now | OCleanup now => Some now
  | ODelete _ | OClear => None
  end.

(** Histories in which every clock reading is strictly later than the one
    before it, starting after [last]. *)
Fixpoint clock_advances {T} (last : Z) (ops : list (Op T)) : Prop :=
  match ops with
  | [] => True
  | o :: rest =>
      match op_time o with
      | Some now => last < now /\ clock_advances now rest
      | None => clock_advances last rest
      end
  end.

Definition sets_named_key {T} (o : Op T) : Prop :=
  match o with
  | OSet key _ _ _ => key <> ""
  | _ => True
  end.

(** What is kept along a history whose clock advances: a proper map within
    capacity, without the empty key, all of whose entries were last accessed
    no later than [last]. *)
Definition within_capacity {T} (c : CacheManager T) (last : Z) : Prop :=
  wf_map (cache c)
  /\ size c <= maxSize c
  /\ ~ List.In "" (keys (cache c))
  /\ forall k item, List.In (k, item) (cache c) -> lastAccessed item <= last.

(** The frame property of [set] on a present key, as the specification
    words it: every other entry is left as it was. *)
Definition overwrite_keeps_others : Prop :=
  forall (c : CacheManager Z) (key : string) (v : Z) (t : option Z) (now : Z),
    wf_map (cache c) ->
    map_get key (cache c) <> None ->
    forall k', k' <> key ->
      map_get k' (cache (set key v t now c)) = map_get k' (cache c).

(** *** Export and import *)

(** What [export] writes for one entry: the item without [lastAccessed]. *)
Module Exported.
Record t (T : Type) : Type := mk {
  value : T;
  timestamp : Z;
  ttl : Z;
  accessCount : Z
}.
Arguments mk {T}.
Arguments value {T}.
Arguments timestamp {T}.
Arguments ttl {T}.
Arguments accessCount {T}.
End Exported.

Definition exported {T} (item : CacheItem T) : Exported.t T :=
  Exported.mk (value item) (timestamp item) (ttl item) (accessCount item).

(** [export()]: the own properties of the plain object it returns, written
    one key at a time. *)
Definition export {T} (c : CacheManager T) : gmap string (Exported.t T) :=
  fold_left (fun data e => Js.assign (fst e) (exported (snd e)) data) (cache c) ∅.

(** One round of the loop of [import]: entries still alive ([now - timestamp
    < ttl], a strict test) are stored with [lastAccessed = now], the others
    are skipped. [item.accessCount || 0] is the count itself. *)
Definition import_entry {T} (now : Z) (m : JsMap (CacheItem T))
  (e : string * Exported.t T) : JsMap (CacheItem T) :=
  if now - Exported.timestamp (snd e) <? Exported.ttl (snd e)
  then
    map_set (fst e)
      (mkItem (Exported.value (snd e)) (Exported.timestamp (snd e))
         (Exported.ttl (snd e)) (Exported.accessCount (snd e)) now) m
  else m.

Definition import {T} (data : gmap string (Exported.t T)) (now : Z)
  (c : CacheManager T) : CacheManager T :=
  with_cache c (fold_left (import_entry now) (map_to_list data) (cache c)).

(** *** Vocabulary for histories *)

Definition is_get {T} (o : Op T) : bool :=
  match o with
  | OGet _ _ => true
  | _ => false
  end.

Definition is_clear {T} (o : Op T) : bool :=
  match o with
  | OClear => true
  | _ => false
  end.

(** The entries that [cleanup] and the lazy expiry leave in place. *)
Definition live {T} (now : Z) (e : string * CacheItem T) : bool :=
  negb (expired now (snd e)).

(** [getMostUsed] lists pairs by decreasing access count. *)
Definition more_used (a b : string * Z) : Prop := snd b <= snd a.

End Cache.

(** ** RetryManager *)

Module Retry.

(** The error value the wrapped operation rejects with: an object that may
    carry a numeric [status] and a [message], a string when present. (On a
    truthy message of another type the retry conditions throw a TypeError,
    which escapes [execute]; such errors are outside the embedding.) *)
Record JsError : Type := mkError {
  status : option Z;
  message : option string
}.

Record RetryConfig : Type := mkConfig {
  maxAttempts : Z;
  baseDelay : Q;
  maxDelay : Q;
  backoffFactor : Q;
  jitter : bool;
  retryCondition : JsError -> bool
}.

(** [Partial<RetryConfig>]: [None] is an absent field. *)
Module Partial.
Record t : Type := mk {
  maxAttempts : option Z;
  baseDelay : option Q;
  maxDelay : option Q;
  backoffFactor : option Q;
  jitter : option bool;
  retryCondition : option (JsError -> bool)
}.
Definition empty : t := mk None None None None None None.
End Partial.

Module Attempt.
Record t : Type := mk {
  attempt : Z;
  timestamp : Z;
  error : JsError;
  delay : Q
}.
End Attempt.

Record RetryResult (T : Type) : Type := mkResult {
  success : bool;
  result : option T;
  error : option JsError;
  attempts : list Attempt.t;
  totalTime : Z
}.
Arguments mkResult {T}.
Arguments success {T}.
Arguments result {T}.
Arguments error {T}.
Arguments attempts {T}.
Arguments totalTime {T}.

(** What a call can throw instead of returning a [RetryResult]. *)
Inductive Thrown : Type :=
| CircuitOpen (key : string)
| UnexpectedEnd.

(** *** The environment of an asynchronous call

    The clock, the number of invocations of wrapped operations so far and
    the values the successive [Math.random()] calls will return. *)
Record World : Type := mkWorld {
  clock : Z;
  calls : nat;
  entropy : list Q
}.

Inductive Settled (T : Type) : Type :=
| Resolved (v : T)
| Rejected (e : JsError).
Arguments Resolved {T}.
Arguments Rejected {T}.

(** A wrapped operation: what its i-th invocation settles to and how many
    milliseconds that takes. *)
Definition Operation (T : Type) : Type := nat -> Settled T * Z.

Definition invoke {T} (op : Operation T) (w : World) : Settled T * World :=
  let '(r, dt) := op (calls w) in
  (r, mkWorld (clock w + dt) (S (calls w)) (entropy w)).

Definition random (w : World) : Q * World :=
  match entropy w with
  | [] => (0%Q, w)
  | r :: rs => (r, mkWorld (clock w) (calls w) rs)
  end.

(** [setTimeout(resolve, ms)]: the timer fires once [ms] have gone by. *)
Definition sleep (ms : Q) (w : World) : World :=
  mkWorld (clock w + Z.max 0 (Qceiling ms)) (calls w) (entropy w).

(** *** Retry conditions *)

Definition lower_ascii (c : ascii) : ascii :=
  let n := nat_of_ascii c in
  if ((65 <=? n)%nat && (n <=? 90)%nat)%bool then ascii_of_nat (n + 32) else c.

Fixpoint toLowerCase (s : string) : string :=
  match s with
  | EmptyString => EmptyString
  | String c r => String (lower_ascii c) (toLowerCase r)
  end.

Fixpoint includes (s sub : string) : bool :=
  match s with
  | EmptyString => String.prefix sub EmptyString
  | String _ r => (String.prefix sub s || includes r sub)%bool
  end.

Definition retryableStatuses : list Z := [408; 429; 500; 502; 503; 504].

Definition status_retryable (s : Z) : bool :=
  existsb (Z.eqb s) retryableStatuses.

(** The truthiness tests [error?.status] and [error?.message]. *)
Definition truthy_status (e : JsError) : option Z :=
  match status e with
  | Some s => if s =? 0 then None else Some s
  | None => None
  end.

Definition truthy_message (e : JsError) : option string :=
  match message e with
  | Some EmptyString => None
  | other => other
  end.

Definition message_matches (words : list string) (msg : string) : bool :=
  existsb (includes (toLowerCase msg)) words.

Definition defaultRetryCondition (e : JsError) : bool :=
  match truthy_status e with
  | Some s => status_retryable s
  | None =>
      match truthy_message e with
      | Some msg =>
          message_matches
            ["timeout"; "network"; "connection"; "rate limit"; "server error";
             "service unavailable"] msg
      | None => false
      end
  end.

Definition defaultConfig : RetryConfig :=
  mkConfig 3 1000 30000 2 true defaultRetryCondition.

(** [{ ...this.defaultConfig, ...config }] *)
Definition merge (d : RetryConfig) (c : option Partial.t) : RetryConfig :=
  match c with
  | None => d
  | Some p =>
      mkConfig
        (default (maxAttempts d) (Partial.maxAttempts p))
        (default (baseDelay d) (Partial.baseDelay p))
        (default (maxDelay d) (Partial.maxDelay p))
        (default (backoffFactor d) (Partial.backoffFactor p))
        (default (jitter d) (Partial.jitter p))
        (default (retryCondition d) (Partial.retryCondition p))
  end.

(** *** Backoff *)

Definition calculateDelay (attempt : Z) (config : RetryConfig) (w : World)
  : Q * World :=
  let delay := (baseDelay config * backoffFactor config ^ (attempt - 1))%Q in
  let delay := Js.qmin delay (maxDelay config) in
  if jitter config
  then
    let jitterAmount := (delay * (1 # 10))%Q in
    let '(r, w') := random w in
    (Js.qmax (delay + (r - (1 # 2)) * 2 * jitterAmount)%Q 0%Q, w')
  else (Js.qmax delay 0%Q, w).

(** *** The retry loop

    [fuel] is the number of iterations the [for] loop still allows:
    [attempt <= maxAttempts] holds exactly while it is positive. Running out
    of it is the [throw] after the loop. *)
Fixpoint retry_loop {T} (fuel : nat) (attempt : Z) (op : Operation T)
  (config : RetryConfig) (startTime : Z) (sofar : list Attempt.t) (w : World)
  : (Thrown + RetryResult T) * World :=
  match fuel with
  | O => (inl UnexpectedEnd, w)
  | S fuel' =>
      let '(r, w1) := invoke op w in
      match r with
      | Resolved v =>
          (inr (mkResult true (Some v) None sofar (clock w1 - startTime)), w1)
      | Rejected e =>
          let shouldRetry := retryCondition config e in
          let isLastAttempt := attempt =? maxAttempts config in
          if (negb shouldRetry || isLastAttempt)%bool
          then
            (inr (mkResult false None (Some e)
                    (sofar ++ [Attempt.mk attempt (clock w1) e 0%Q])
                    (clock w1 - startTime)), w1)
          else
            let '(d, w2) := calculateDelay attempt config w1 in
            retry_loop fuel' (attempt + 1) op config startTime
              (sofar ++ [Attempt.mk attempt (clock w1) e d]) (sleep d w2)
      end
  end.

Definition execute {T} (op : Operation T) (config : option Partial.t)
  (w : World) : (Thrown + RetryResult T) * World :=
  let finalConfig := merge defaultConfig config in
  retry_loop (Z.to_nat (maxAttempts finalConfig)) 1 op finalConfig (clock w) [] w.

(** [x || d] on an optional number. *)
Definition num_or (x : option Z) (d : Z) : Z :=
  match x with
  | Some n => if n =? 0 then d else n
  | None => d
  end.

Module ApiOptions.
Record t : Type := mk {
  maxAttempts : option Z;
  baseDelay : option Z;
  includeNetworkErrors : bool
}.
End ApiOptions.

Definition apiRetryCondition (includeNetwork : bool) (e : JsError) : bool :=
  match truthy_status e with
  | Some s => status_retryable s
  | None =>
      match truthy_message e with
      | Some msg =>
          if includeNetwork
          then message_matches ["network"; "timeout"; "connection"] msg
          else false
      | None => false
      end
  end.

Definition retryApiCall {T} (apiCall : Operation T) (options : option ApiOptions.t)
  (w : World) : (Thrown + RetryResult T) * World :=
  let o := default (ApiOptions.mk None None false) options in
  execute apiCall
    (Some (Partial.mk
             (Some (num_or (ApiOptions.maxAttempts o) 3))
             (Some (inject_Z (num_or (ApiOptions.baseDelay o) 2000)))
             (Some 15000%Q) (Some (3 # 2)) (Some true)
             (Some (apiRetryCondition (ApiOptions.includeNetworkErrors o))))) w.

Module CalcOptions.
Record t : Type := mk {
  maxAttempts : option Z;
  fastRetry : bool
}.
End CalcOptions.

Definition calcRetryCondition (e : JsError) : bool :=
  match truthy_message e with
  | Some msg =>
      message_matches ["timeout"; "memory"; "resource"; "temporary"] msg
  | None => false
  end.

Definition retryCalculation {T} (calculation : Operation T)
  (options : option CalcOptions.t) (w : World)
  : (Thrown + RetryResult T) * World :=
  let o := default (CalcOptions.mk None false) options in
  execute calculation
    (Some (Partial.mk
             (Some (num_or (CalcOptions.maxAttempts o) 2))
             (Some (if CalcOptions.fastRetry o then 500%Q else 1000%Q))
             (Some 5000%Q) (Some (6 # 5)) (Some false)
             (Some calcRetryCondition))) w.

(** *** Circuit breaker *)

Inductive Phase : Type := PClosed | POpen | PHalfOpen.

Definition is_open (p : Phase) : bool :=
  match p with
  | POpen => true
  | _ => false
  end.

Record CircuitState : Type := mkCircuit {
  failures : Z;
  lastFailure : Z;
  state : Phase
}.

(** The manager's mutable part, [circuitStates], is a
    [gmap string CircuitState] threaded through the functions below. *)

Definition isCircuitOpen (key : string) (now : Z) (m : gmap string CircuitState)
  : bool * gmap string CircuitState :=
  match m !! key with
  | None => (false, m)
  | Some st =>
      let timeSinceLastFailure := now - lastFailure st in
      if (is_open (state st) && (60000 <? timeSinceLastFailure))%bool
      then (false, <[key := mkCircuit (failures st) (lastFailure st) PHalfOpen]> m)
      else (is_open (state st), m)
  end.

Definition recordSuccess (key : string) (m : gmap string CircuitState)
  : gmap string CircuitState :=
  match m !! key with
  | Some st => <[key := mkCircuit 0 (lastFailure st) PClosed]> m
  | None => m
  end.

Definition recordFailure (key : string) (now : Z) (m : gmap string CircuitState)
  : gmap string CircuitState :=
  let st := default (mkCircuit 0 now PClosed) (m !! key) in
  let n := failures st + 1 in
  <[key := mkCircuit n now (if 5 <=? n then POpen else state st)]> m.

Definition retryWithCircuitBreaker {T} (op : Operation T)
  (circuitBreakerKey : string) (config : option Partial.t)
  (m : gmap string CircuitState) (w : World)
  : (Thrown + RetryResult T) * gmap string CircuitState * World :=
  let '(isOpen, m1) := isCircuitOpen circuitBreakerKey (clock w) m in
  if isOpen
  then (inl (CircuitOpen circuitBreakerKey), m1, w)
  else
    let '(r, w1) := execute op config w in
    match r with
    | inr res =>
        if success res
        then (inr res, recordSuccess circuitBreakerKey m1, w1)
        else (inr res, recordFailure circuitBreakerKey (clock w1) m1, w1)
    | inl ex => (inl ex, recordFailure circuitBreakerKey (clock w1) m1, w1)
    end.

Definition resetCircuitBreaker (key : string) (m : gmap string CircuitState)
  : gmap string CircuitState :=
  base.delete key m.

Definition resetAllCircuitBreakers (m : gmap string CircuitState)
  : gmap string CircuitState := ∅.

(** A client call on one circuit key, made in some world, and a sequence of
    such calls threading the breaker state. *)
Record Call (T : Type) : Type := mkCall {
  call_op : Operation T;
  call_config : option Partial.t;
  call_world : World
}.
Arguments mkCall {T}.
Arguments call_op {T}.
Arguments call_config {T}.
Arguments call_world {T}.

Definition call_failed {T} (r : Thrown + RetryResult T) : bool :=
  match r with
  | inl _ => true
  | inr res => negb (success res)
  end.

Fixpoint run_calls {T} (key : string) (cs : list (Call T))
  (m : gmap string CircuitState)
  : list (Thrown + RetryResult T) * gmap string CircuitState :=
  match cs with
  | [] => ([], m)
  | c :: rest =>
      let '(r, m1, _) :=
        retryWithCircuitBreaker (call_op c) key (call_config c) m (call_world c) in
      let '(rs, m2) := run_calls key rest m1 in
      (r :: rs, m2)
  end.

(** What holds of every circuit the manager can come to store: the failure
    counter is not negative and the circuit is closed exactly while the
    counter is below the threshold. *)
Definition circuit_ok (st : CircuitState) : Prop :=
  0 <= failures st /\ (state st = PClosed <-> failures st < 5).

Definition breaker_ok (key : string) (m : gmap string CircuitState) : Prop :=
  forall st, m !! key = Some st -> circuit_ok st.

(** The attempt numbers and delays that the records of a run carry when
    jitter is off and each of the [fuel] attempts from [attempt] on is
    rejected retryably: the backoff delay, except for the last allowed
    attempt, which is followed by no wait and keeps the initial 0. *)
Definition backoff_schedule (config : RetryConfig) (attempt : Z) (fuel : nat)
  : list (Z * Q) :=
  map (fun k =>
         let i := attempt + Z.of_nat k in
         (i, if i =? maxAttempts config then 0%Q
             else Js.qmax
                    (Js.qmin (baseDelay config * backoffFactor config ^ (i - 1))
                       (maxDelay config)) 0%Q))
    (seq 0 fuel).

Definition attempt_delay (r : Attempt.t) : Z * Q :=
  (Attempt.attempt r, Attempt.delay r).

(** The first [k] invocations of [op] from the world [w] on are rejected with
    errors the retry condition accepts. *)
Definition fails_retryably {T} (op : Operation T) (config : RetryConfig)
  (w : World) (k : nat) : Prop :=
  forall i, (i < k)%nat ->
    exists e dt, op (calls w + i)%nat = (Rejected e, dt)
                 /\ retryCondition config e = true.

(** The same, for a retry condition given by itself. *)
Definition rejected_retryably {T} (op : Operation T) (cond : JsError -> bool)
  (w : World) (k : nat) : Prop :=
  forall i, (i < k)%nat ->
    exists e dt, op (calls w + i)%nat = (Rejected e, dt) /\ cond e = true.

(** The backoff delay as the specification words it: with jitter off and a
    backoff factor above 1, the delay after failed attempt [i] is
    [min(baseDelay * backoffFactor^(i-1), maxDelay)]. *)
Definition delay_is_capped_power : Prop :=
  forall (config : RetryConfig) (w : World) (i : Z),
    jitter config = false ->
    (1 < backoffFactor config)%Q ->
    1 <= i <= maxAttempts config ->
    (fst (calculateDelay i config w)
     == Qmin (baseDelay config * backoffFactor config ^ (i - 1))
          (maxDelay config))%Q.

(** [Math.pow(backoffFactor, i - 1)] is a finite binary64 number. *)
Definition no_overflow (config : RetryConfig) (i : Z) : Prop :=
  (backoffFactor config ^ (i - 1) < 2 ^ 1024)%Q.

(** The clock reading at which the [execute] of a call ends. *)
Definition ended {T} (c : Call T) : Z :=
  clock (snd (execute (call_op c) (call_config c) (call_world c))).

(** The call was refused by the breaker of [key]. *)
Definition refused {T} (key : string) (r : Thrown + RetryResult T) : Prop :=
  r = inl (CircuitOpen key).

(** No failure is counted for the key: it has no circuit yet, or a closed
    one with a zero counter, as a success leaves it. *)
Definition no_failure_counted (key : string) (m : gmap string CircuitState)
  : Prop :=
  m !! key = None
  \/ exists st, m !! key = Some st /\ state st = PClosed /\ failures st = 0.

(** *** Circuit statistics and histories of the manager *)

Module CircuitStats.
Record t : Type := mk {
  failures : Z;
  lastFailure : Z;
  state : Phase;
  isOpen : bool
}.
End CircuitStats.

(** One round of the loop of [getCircuitBreakerStats]: the object literal
    reads the three fields of the iterated circuit and then calls
    [isCircuitOpen], which may change the stored phase. *)
Definition stats_entry (now : Z)
  (acc : gmap string CircuitStats.t * gmap string CircuitState)
  (e : string * CircuitState)
  : gmap string CircuitStats.t * gmap string CircuitState :=
  let '(o, m) := isCircuitOpen (fst e) now (snd acc) in
  (Js.assign (fst e)
     (CircuitStats.mk (failures (snd e)) (lastFailure (snd e)) (state (snd e)) o)
     (fst acc), m).

Definition getCircuitBreakerStats (now : Z) (m : gmap string CircuitState)
  : gmap string CircuitStats.t * gmap string CircuitState :=
  fold_left (stats_entry now) (map_to_list m) (∅, m).

(** What a client can do to the breaker state. *)
Inductive ManagerOp (T : Type) : Type :=
| MCall (key : string) (op : Operation T) (config : option Partial.t) (w : World)
| MReset (key : string)
| MResetAll
| MStats (now : Z).
Arguments MCall {T}.
Arguments MReset {T}.
Arguments MResetAll {T}.
Arguments MStats {T}.

Definition manager_step {T} (m : gmap string CircuitState) (o : ManagerOp T)
  : gmap string CircuitState :=
  match o with
  | MCall key op config w => snd (fst (retryWithCircuitBreaker op key config m w))
  | MReset key => resetCircuitBreaker key m
  | MResetAll => resetAllCircuitBreakers m
  | MStats now => snd (getCircuitBreakerStats now m)
  end.

Definition manager_run {T} (ops : list (ManagerOp T)) : gmap string CircuitState :=
  fold_left manager_step ops ∅.

(** What [getCircuitBreakerStats] reports for a circuit (under any key but
    [__proto__]) and what it leaves stored for it. *)
Definition cooled_down (now : Z) (st : CircuitState) : bool :=
  (is_open (state st) && (60000 <? now - lastFailure st))%bool.

Definition reported (now : Z) (st : CircuitState) : CircuitStats.t :=
  CircuitStats.mk (failures st) (lastFailure st) (state st)
    (is_open (state st) && negb (60000 <? now - lastFailure st))%bool.

Definition after_stats (now : Z) (st : CircuitState) : CircuitState :=
  if cooled_down now st
  then mkCircuit (failures st) (lastFailure st) PHalfOpen
  else st.

(** The numbers [1; 2; ...; n]. *)
Definition numbered (n : nat) : list Z := map (fun k => Z.of_nat (S k)) (seq 0 n).

(** All the values [Math.random()] will return lie in [0, 1). *)
Definition unit_entropy (w : World) : Prop :=
  Forall (fun r => (0 <= r < 1)%Q) (entropy w).

End Retry.

(** ** PerformanceMonitor *)

Module Monitor.

Module Metric.
Record t : Type := mk {
  timestamp : Z;
  operation : string;
  duration : Q;
  success : bool;
  error : option string
}.
End Metric.

Inductive Severity : Type := low | medium | high | critical.

Definition severity_name (s : Severity) : string :=
  match s with
  | low => "low"
  | medium => "medium"
  | high => "high"
  | critical => "critical"
  end.

Module ErrorLog.
Record t : Type := mk {
  timestamp : Z;
  error : string;
  context : string;
  severity : Severity;
  userAgent : option string;
  url : option string
}.
End ErrorLog.

Record PerformanceMonitor : Type := mkMonitor {
  metrics : list Metric.t;
  errors : list ErrorLog.t
}.

Definition maxMetrics : nat := 1000.
Definition maxErrors : nat := 500.

Definition empty : PerformanceMonitor := mkMonitor [] [].

Definition addMetric (metric : Metric.t) (mon : PerformanceMonitor)
  : PerformanceMonitor :=
  let pushed := (metrics mon ++ [metric])%list in
  mkMonitor
    (if (maxMetrics <? List.length pushed)%nat
     then Js.slice_last maxMetrics pushed else pushed)
    (errors mon).

(** The closure returned by [startOperation(operation)], applied: [startTime]
    and [endTime] are the two [performance.now()] readings. *)
Definition startOperation (operation : string) (startTime : Q)
  (endTime : Q) (now : Z) (success : bool) (error : option string)
  (mon : PerformanceMonitor) : PerformanceMonitor :=
  addMetric (Metric.mk now operation (endTime - startTime)%Q success error) mon.

Definition logError (error context : string) (severity : Severity)
  (userAgent url : option string) (now : Z) (mon : PerformanceMonitor)
  : PerformanceMonitor :=
  let pushed :=
    (errors mon ++ [ErrorLog.mk now error context severity userAgent url])%list in
  mkMonitor (metrics mon)
    (if (maxErrors <? List.length pushed)%nat
     then Js.slice_last maxErrors pushed else pushed).

(** An entry of [operationBreakdown]. Its running average is kept in the
    code's binary64 arithmetic. *)
Module Breakdown.
Record t : Type := mk {
  count : Z;
  avgTime : PrimFloat.float;
  successRate : Q
}.
End Breakdown.

Record PerformanceStats : Type := mkPerformanceStats {
  totalOperations : Z;
  successRate : Q;
  averageResponseTime : Q;
  slowestOperations : list Metric.t;
  operationBreakdown : gmap string Breakdown.t
}.

Definition in_window (cutoff : Z) (t : Z) : bool := cutoff <=? t.

Definition percent (part total : nat) : Q :=
  (inject_Z (Z.of_nat part) / inject_Z (Z.of_nat total) * 100)%Q.

Definition sum_durations (l : list Metric.t) : Q :=
  fold_left (fun sum m => (sum + Metric.duration m)%Q) l 0%Q.

(** The comparator [(a, b) => b.duration - a.duration] is positive, so that
    [a] goes after [b], exactly when [a] is the faster one. *)
Definition slower_first (a b : Metric.t) : bool :=
  negb (Qle_bool (Metric.duration b) (Metric.duration a)).

(** [breakdown.count++] and the update of [breakdown.avgTime]. *)
Definition update (b : Breakdown.t) (duration : PrimFloat.float) : Breakdown.t :=
  let n := Breakdown.count b + 1 in
  Breakdown.mk n
    (PrimFloat.div
       (PrimFloat.add (PrimFloat.mul (Breakdown.avgTime b) (Js.of_count (n - 1)))
          duration)
       (Js.of_count n))
    (Breakdown.successRate b).

(** One round of the [forEach] that fills [operationBreakdown], an object
    created by [{}] and given by its own properties. The test
    [!operationBreakdown[name]] also sees what [Object.prototype] defines:
    for such a name it finds the inherited member, creates no entry, and
    the update lands on that member, whose [count] and [avgTime] become
    NaN. *)
Definition breakdown_step (bd : gmap string Breakdown.t) (metric : Metric.t)
  : gmap string Breakdown.t :=
  let name := Metric.operation metric in
  let duration := Js.to_double (Metric.duration metric) in
  match bd !! name with
  | Some b => <[name := update b duration]> bd
  | None =>
      if Js.inherited name then bd
      else <[name := update (Breakdown.mk 0 PrimFloat.zero 0) duration]> bd
  end.

Definition named (operation : string) (m : Metric.t) : bool :=
  String.eqb (Metric.operation m) operation.

(** The second pass, which fills in the success rate of each operation. *)
Definition fill_success_rate (recent : list Metric.t) (operation : string)
  (b : Breakdown.t) : option Breakdown.t :=
  let operationMetrics := List.filter (named operation) recent in
  let successful := List.length (List.filter Metric.success operationMetrics) in
  Some (Breakdown.mk (Breakdown.count b) (Breakdown.avgTime b)
          (percent successful (List.length operationMetrics))).

Definition getPerformanceStats (timeRange : Z) (now : Z)
  (mon : PerformanceMonitor) : PerformanceStats :=
  let cutoff := now - timeRange in
  let recentMetrics :=
    List.filter (fun m => in_window cutoff (Metric.timestamp m)) (metrics mon) in
  let totalOperations := List.length recentMetrics in
  let successfulOperations :=
    List.length (List.filter Metric.success recentMetrics) in
  let successRate :=
    if (0 <? totalOperations)%nat
    then percent successfulOperations totalOperations else 0%Q in
  let totalTime := sum_durations recentMetrics in
  let averageResponseTime :=
    if (0 <? totalOperations)%nat
    then (totalTime / inject_Z (Z.of_nat totalOperations))%Q else 0%Q in
  (* [sort] reorders [recentMetrics] in place: what follows sees it sorted *)
  let recentMetrics := Js.sort_by slower_first recentMetrics in
  let slowestOperations := Js.slice0 10 recentMetrics in
  let operationBreakdown := fold_left breakdown_step recentMetrics ∅ in
  mkPerformanceStats (Z.of_nat totalOperations) successRate averageResponseTime
    slowestOperations
    (map_imap (fill_success_rate recentMetrics) operationBreakdown).

Record ErrorStats : Type := mkErrorStats {
  totalErrors : Z;
  errorsBySeverity : gmap string Z;
  errorsByContext : gmap string Z;
  recentErrors : list ErrorLog.t;
  errorTrends : list (Z * Z)
}.

(** [obj[k] = (obj[k] || 0) + 1] *)
Definition bump (k : string) (obj : gmap string Z) : gmap string Z :=
  <[k := default 0 (obj !! k) + 1]> obj.

Definition hour_ms : Z := 60 * 60 * 1000.

Definition errors_in_hour (now : Z) (recent : list ErrorLog.t) (i : Z) : Z :=
  let hourStart := now - (i + 1) * hour_ms in
  let hourEnd := now - i * hour_ms in
  Z.of_nat (List.length
    (List.filter
       (fun e => ((hourStart <=? ErrorLog.timestamp e)
                  && (ErrorLog.timestamp e <? hourEnd))%bool) recent)).

Definition getErrorStats (timeRange : Z) (now : Z) (mon : PerformanceMonitor)
  : ErrorStats :=
  let cutoff := now - timeRange in
  let recentErrors :=
    List.filter (fun e => in_window cutoff (ErrorLog.timestamp e)) (errors mon) in
  let errorsBySeverity :=
    fold_left (fun obj e => bump (severity_name (ErrorLog.severity e)) obj)
      recentErrors ∅ in
  let errorsByContext :=
    fold_left (fun obj e => bump (ErrorLog.context e) obj) recentErrors ∅ in
  let errorTrends :=
    fold_left
      (fun trends i =>
         let i := Z.of_nat i in
         (23 - i, errors_in_hour now recentErrors i) :: trends)
      (seq 0 24) [] in
  mkErrorStats (Z.of_nat (List.length recentErrors)) errorsBySeverity
    errorsByContext (Js.slice_last 20 recentErrors) errorTrends.

(** The four recommendation strings, by what they report. *)
Inductive Recommendation : Type :=
| LowSuccessRate
| SlowResponseTime
| ManyErrors
| CriticalErrorsPresent.

Module Report.
Record t : Type := mk {
  performance : PerformanceStats;
  errors : ErrorStats;
  recommendations : list Recommendation;
  healthScore : Js.jsnum
}.
End Report.

Definition day_ms : Z := 24 * 60 * 60 * 1000.

Definition when {A} (b : bool) (x : A) : list A := if b then [x] else [].

(** The health score from the two success and latency figures and the
    by-severity table, as [generateReport] computes it. *)
Definition health (successRate averageResponseTime : Q)
  (bySeverity : gmap string Z) : Js.jsnum :=
  let h := Js.Fin 100 in
  let h := Js.jsub h (Js.jmax (Js.Fin 0) (Js.Fin ((95 - successRate) * 2))) in
  let h :=
    Js.jsub h
      (Js.jmax (Js.Fin 0) (Js.Fin ((averageResponseTime - 2000) / 100))) in
  let h :=
    Js.jsub h (Js.jmul (Js.to_number (bySeverity !! "critical")) (Js.Fin 10)) in
  let h :=
    Js.jsub h (Js.jmul (Js.to_number (bySeverity !! "high")) (Js.Fin 5)) in
  Js.jmax (Js.Fin 0) (Js.jmin (Js.Fin 100) h).

Definition generateReport (now : Z) (mon : PerformanceMonitor) : Report.t :=
  let performance := getPerformanceStats day_ms now mon in
  let errors := getErrorStats day_ms now mon in
  let recommendations :=
    (when (negb (Qle_bool 95 (successRate performance))) LowSuccessRate
     ++ when (negb (Qle_bool (averageResponseTime performance) 3000))
          SlowResponseTime
     ++ when (50 <? totalErrors errors) ManyErrors
     ++ when (Js.gt_undef (errorsBySeverity errors !! "critical") 0)
          CriticalErrorsPresent)%list in
  Report.mk performance errors recommendations
    (health (successRate performance) (averageResponseTime performance)
       (errorsBySeverity errors)).

Definition cleanup (maxAge : Z) (now : Z) (mon : PerformanceMonitor)
  : PerformanceMonitor :=
  let cutoff := now - maxAge in
  mkMonitor
    (List.filter (fun m => in_window cutoff (Metric.timestamp m)) (metrics mon))
    (List.filter (fun e => in_window cutoff (ErrorLog.timestamp e)) (errors mon)).

(** *** Reference figures, as the specification words them *)

(** Number of errors of a severity inside the trailing window. *)
Definition severity_count (s : Severity) (timeRange now : Z)
  (mon : PerformanceMonitor) : Z :=
  Z.of_nat (List.length
    (List.filter
       (fun e => (in_window (now - timeRange) (ErrorLog.timestamp e)
                  && String.eqb (severity_name (ErrorLog.severity e))
                       (severity_name s))%bool)
       (errors mon))).

(** Start at 100, subtract the four penalties, clamp to [0,100]. *)
Definition health_formula (successRate averageResponseTime : Q)
  (criticalCount highCount : Z) : Q :=
  Js.qmax 0
    (Js.qmin 100
       (100 - 2 * Js.qmax 0 (95 - successRate)
        - Js.qmax 0 ((averageResponseTime - 2000) / 100)
        - 10 * inject_Z criticalCount - 5 * inject_Z highCount))%Q.





(** The arithmetic the incremental update runs in. *)
Record Arith (N : Type) : Type := mkArith {
  zero : N;
  add : N -> N -> N;
  mul : N -> N -> N;
  div : N -> N -> N;
  of_count : Z -> N
}.
Arguments zero {N}.
Arguments add {N}.
Arguments mul {N}.
Arguments div {N}.
Arguments of_count {N}.


Definition exact : Arith Q := mkArith _ 0%Q Qplus Qmult Qdiv inject_Z.






(** *** Vocabulary for the properties of the logs and the hourly buckets *)

(** Number of errors stamped within [lo, hi). *)
Definition count_between (lo hi : Z) (l : list ErrorLog.t) : Z :=
  Z.of_nat (List.length
    (List.filter
       (fun e => ((lo <=? ErrorLog.timestamp e)
                  && (ErrorLog.timestamp e <? hi))%bool) l)).

Definition zsum (l : list Z) : Z := fold_right Z.add 0 l.

(** [slowestOperations] lists metrics by decreasing duration. *)
Definition at_least_as_slow (a b : Metric.t) : Prop :=
  (Metric.duration b <= Metric.duration a)%Q.

(** What a client records, to describe arbitrary histories. *)
Inductive Event : Type :=
| EMetric (metric : Metric.t)
| EError (error context : string) (severity : Severity)
    (userAgent url : option string) (now : Z)
| ECleanup (maxAge now : Z).

Definition record (mon : PerformanceMonitor) (ev : Event) : PerformanceMonitor :=
  match ev with
  | EMetric metric => addMetric metric mon
  | EError error context severity userAgent url now =>
      logError error context severity userAgent url now mon
  | ECleanup maxAge now => cleanup maxAge now mon
  end.

Definition history (evs : list Event) : PerformanceMonitor :=
  fold_left record evs empty.

End Monitor.

(** ** ErrorHandler *)

Module ErrorHandler.

Inductive ErrorType : Type :=
| API_ERROR
| NETWORK_ERROR
| VALIDATION_ERROR
| CALCULATION_ERROR
| UI_ERROR
| UNKNOWN_ERROR.

Definition type_name (t : ErrorType) : string :=
  match t with
  | API_ERROR => "API_ERROR"
  | NETWORK_ERROR => "NETWORK_ERROR"
  | VALIDATION_ERROR => "VALIDATION_ERROR"
  | CALCULATION_ERROR => "CALCULATION_ERROR"
  | UI_ERROR => "UI_ERROR"
  | UNKNOWN_ERROR => "UNKNOWN_ERROR"
  end.

(** The [message] of a handled value, when it is neither [null] nor
    [undefined]: a string, or a value of another type that has no
    [includes] and no [toLowerCase] method (a number, a boolean, a plain
    object), on which [message.includes(...)] is a TypeError. Messages that
    bring such methods of their own (arrays, [String] objects) are not
    modelled. *)
Inductive Message : Type :=
| Text (s : string)
| NotText.

(** The value handed to [handle], as far as the handler looks into it:
    whether it has a truthy [response], and its [status] (a number), [code],
    [name] and [message] when it has them. A primitive or an empty object has
    none of them; [null] and [undefined] are [None] of [option Thrown]. *)
Record Thrown : Type := mkThrown {
  response : bool;
  status : option Z;
  code : option string;
  name : option string;
  message : option Message
}.

(** The user-facing texts, by what they say. *)
Inductive UserMessage : Type :=
| InvalidApiKey
| RateLimited
| ServiceUnavailable
| ServerProblem
| ApiProblem
| NetworkProblem
| ArabicOnly
| RequiredFields
| InvalidDate
| InvalidName
| InvalidData
| CalculationProblem
| UiProblem
| UnknownProblem.

Record AppError : Type := mkAppError {
  type : ErrorType;
  app_message : string;
  originalError : option Thrown;
  context : string;
  timestamp : Z;
  userMessage : UserMessage;
  actionable : bool;
  retryable : bool
}.

(** What the handler itself can throw: [error.message] read on [null] or
    [undefined], and a method called on a message that has none. *)
Inductive TypeError : Type :=
| CannotReadMessage
| NotAFunction.

(** A computation that returns or throws, and the short-circuit [a || b]
    and [if (a) ... else ...] on such computations. *)
Definition Fallible (A : Type) : Type := TypeError + A.

Definition bind {A B} (a : Fallible A) (k : A -> Fallible B) : Fallible B :=
  match a with
  | inl ex => inl ex
  | inr x => k x
  end.

Definition or_else (a b : Fallible bool) : Fallible bool :=
  bind a (fun x => if x then inr true else b).

Definition if_else {A} (c : Fallible bool) (a b : Fallible A) : Fallible A :=
  bind c (fun x => if x then a else b).

(** [error?.message?.includes(word)] *)
Definition message_includes (error : option Thrown) (word : string)
  : Fallible bool :=
  match error with
  | Some e =>
      match message e with
      | Some (Text msg) => inr (Retry.includes msg word)
      | Some NotText => inl NotAFunction
      | None => inr false
      end
  | None => inr false
  end.

(** The truthiness of [error?.status]. *)
Definition truthy_status (error : option Thrown) : bool :=
  match error with
  | Some e =>
      match status e with
      | Some s => negb (s =? 0)
      | None => false
      end
  | None => false
  end.

Definition status_is (error : option Thrown) (p : Z -> bool) : bool :=
  match error with
  | Some e =>
      match status e with
      | Some s => p s
      | None => false
      end
  | None => false
  end.

Definition field_is (field : Thrown -> option string) (error : option Thrown)
  (v : string) : bool :=
  match error with
  | Some e =>
      match field e with
      | Some x => String.eqb x v
      | None => false
      end
  | None => false
  end.

Definition isApiError (error : option Thrown) : Fallible bool :=
  or_else (inr (match error with Some e => response e | None => false end))
    (or_else (inr (truthy_status error))
       (or_else (message_includes error "API")
          (or_else (message_includes error "key")
             (message_includes error "rate limit")))).

(** [online] is [navigator.onLine]. *)
Definition isNetworkError (online : bool) (error : option Thrown)
  : Fallible bool :=
  or_else (inr (field_is code error "NETWORK_ERROR"))
    (or_else (message_includes error "network")
       (or_else (message_includes error "timeout")
          (or_else (message_includes error "connection")
             (inr (negb online))))).

Definition isValidationError (error : option Thrown) : Fallible bool :=
  or_else (inr (field_is name error "ValidationError"))
    (or_else (message_includes error "validation")
       (or_else (message_includes error "invalid")
          (message_includes error "required"))).

Definition isRetryableApiError (error : option Thrown) : Fallible bool :=
  or_else (inr (status_is error Retry.status_retryable))
    (or_else (message_includes error "timeout")
       (message_includes error "rate limit")).

Definition getApiErrorMessage (error : option Thrown) : Fallible UserMessage :=
  if_else (or_else (message_includes error "API key")
             (inr (status_is error (Z.eqb 401))))
    (inr InvalidApiKey)
    (if_else (or_else (message_includes error "rate limit")
                (inr (status_is error (Z.eqb 429))))
       (inr RateLimited)
       (inr (if status_is error (Z.eqb 404) then ServiceUnavailable
             else if status_is error (Z.leb 500) then ServerProblem
             else ApiProblem))).

(** [error?.message?.toLowerCase() || ''] *)
Definition lowered_message (error : option Thrown) : Fallible string :=
  match error with
  | Some e =>
      match message e with
      | Some (Text msg) => inr (Retry.toLowerCase msg)
      | Some NotText => inl NotAFunction
      | None => inr ""
      end
  | None => inr ""
  end.

Definition getValidationErrorMessage (error : option Thrown)
  : Fallible UserMessage :=
  bind (lowered_message error) (fun message =>
    inr
      (if (Retry.includes message "arabic" || Retry.includes message "عربي")%bool
       then ArabicOnly
       else if (Retry.includes message "empty"
                || Retry.includes message "required")%bool
       then RequiredFields
       else if Retry.includes message "date" then InvalidDate
       else if Retry.includes message "name" then InvalidName
       else InvalidData)).

(** [error.message || fallback], which throws when [error] is [null] or
    [undefined]. On a message that is not a string the read itself does not
    throw, but the one branch that can make it then, the API one, throws
    right after it, in [getApiErrorMessage]: the read is given that
    TypeError. *)
Definition message_or (error : option Thrown) (fallback : string)
  : Fallible string :=
  match error with
  | None => inl CannotReadMessage
  | Some e =>
      match message e with
      | Some (Text EmptyString) | None => inr fallback
      | Some (Text msg) => inr msg
      | Some NotText => inl NotAFunction
      end
  end.

Definition categorizeError (online : bool) (now : Z) (error : option Thrown)
  (context : string) : Fallible AppError :=
  if_else (isApiError error)
    (bind (message_or error "API request failed") (fun msg =>
     bind (getApiErrorMessage error) (fun userMessage =>
     bind (isRetryableApiError error) (fun retryable =>
     inr (mkAppError API_ERROR msg error context now userMessage true
            retryable)))))
    (if_else (isNetworkError online error)
       (inr (mkAppError NETWORK_ERROR "Network connection failed" error context
               now NetworkProblem true true))
       (if_else (isValidationError error)
          (bind (message_or error "Validation failed") (fun msg =>
           bind (getValidationErrorMessage error) (fun userMessage =>
           inr (mkAppError VALIDATION_ERROR msg error context now userMessage
                  true false))))
          (if (Retry.includes context "calculation"
               || Retry.includes context "gematria"
               || Retry.includes context "jafar")%bool
           then
             bind (message_or error "Calculation failed") (fun msg =>
             inr (mkAppError CALCULATION_ERROR msg error context now
                    CalculationProblem true true))
           else if (Retry.includes context "ui"
                    || Retry.includes context "component")%bool
           then
             bind (message_or error "UI error occurred") (fun msg =>
             inr (mkAppError UI_ERROR msg error context now UiProblem true
                    false))
           else
             bind (message_or error "Unknown error occurred") (fun msg =>
             inr (mkAppError UNKNOWN_ERROR msg error context now
                    UnknownProblem false true))))).

Definition getSeverity (appError : AppError) : Monitor.Severity :=
  match type appError with
  | VALIDATION_ERROR => Monitor.low
  | UI_ERROR => Monitor.medium
  | NETWORK_ERROR => Monitor.medium
  | API_ERROR => Monitor.high
  | CALCULATION_ERROR => Monitor.high
  | UNKNOWN_ERROR => Monitor.critical
  end.

(** What reaches the user: a non-blocking notice or a blocking [alert]. *)
Inductive Notice : Type :=
| Warn (text : UserMessage)
| Alert (text : UserMessage).

Definition showUserNotification (appError : AppError) : list Notice :=
  Warn (userMessage appError)
  :: match type appError with
     | UNKNOWN_ERROR => [Alert (userMessage appError)]
     | _ => []
     end.

Definition notifyUser (appError : AppError) : list Notice :=
  if actionable appError then showUserNotification appError else [].

Definition maxQueueSize : nat := 100.

Definition addToQueue (appError : AppError) (errorQueue : list AppError)
  : list AppError :=
  let pushed := (errorQueue ++ [appError])%list in
  if (maxQueueSize <? List.length pushed)%nat
  then Js.slice_last maxQueueSize pushed else pushed.

(** What the handler and the monitor read from the browser: [now] is the
    clock when the error is categorized, [logged] the clock when the monitor
    stamps its entry. *)
Record Env : Type := mkEnv {
  online : bool;
  now : Z;
  logged : Z;
  userAgent : option string;
  url : option string
}.

(** [appError.context || 'unknown'] *)
Definition context_or_unknown (c : string) : string :=
  match c with
  | EmptyString => "unknown"
  | _ => c
  end.

(** The handler's own [logError], which writes to the monitor. *)
Definition logError (env : Env) (appError : AppError)
  (mon : Monitor.PerformanceMonitor) : Monitor.PerformanceMonitor :=
  Monitor.logError (app_message appError) (context_or_unknown (context appError))
    (getSeverity appError) (userAgent env) (url env) (logged env) mon.

Record Handled : Type := mkHandled {
  appError : AppError;
  errorQueue : list AppError;
  monitor : Monitor.PerformanceMonitor;
  notices : list Notice
}.

(** [handle(error, context = 'unknown')] *)
Definition handle (env : Env) (error : option Thrown) (context : option string)
  (queue : list AppError) (mon : Monitor.PerformanceMonitor)
  : TypeError + Handled :=
  match categorizeError (online env) (now env) error (default "unknown" context) with
  | inl ex => inl ex
  | inr a =>
      inr (mkHandled a (addToQueue a queue) (logError env a mon) (notifyUser a))
  end.

Record QueueStats : Type := mkQueueStats {
  total : Z;
  byType : gmap string Z;
  recent : list AppError;
  retryableCount : Z
}.

Definition getErrorStats (queue : list AppError) : QueueStats :=
  mkQueueStats (Z.of_nat (List.length queue))
    (fold_left (fun obj e => Monitor.bump (type_name (type e)) obj) queue ∅)
    (Js.slice_last 10 queue)
    (fold_left (fun n e => if retryable e then n + 1 else n) queue 0).

Definition getRetryableErrors (queue : list AppError) : list AppError :=
  List.filter retryable queue.

Definition is_alert (n : Notice) : bool :=
  match n with
  | Alert _ => true
  | Warn _ => false
  end.

(** The handled value carries a message that is not a string. *)
Definition odd_message (error : option Thrown) : bool :=
  match error with
  | Some e =>
      match message e with
      | Some NotText => true
      | _ => false
      end
  | None => false
  end.

End ErrorHandler.

(** * Properties *)

(** ** JavaScript runtime pieces *)

Module JsFacts.

Lemma insert_by_perm {A} (after : A -> A -> bool) x l :
  Permutation (x :: l) (Js.insert_by after x l).
Proof.
  induction l as [| y r IH]; simpl; [reflexivity |].
  destruct (after x y); [| reflexivity].
  rewrite perm_swap. now constructor.
Qed.

(** [sort] only reorders. *)
Lemma sort_by_perm {A} (after : A -> A -> bool) l :
  Permutation l (Js.sort_by after l).
Proof.
  induction l as [| x r IH]; simpl; [constructor |].
  rewrite <- insert_by_perm. now constructor.
Qed.

Lemma slice0_all {A} (l : list A) n :
  Z.of_nat (List.length l) <= n -> Js.slice0 n l = l.
Proof.
  intros Hle. unfold Js.slice0.
  destruct (Z.ltb_spec n 0); [lia |].
  apply List.firstn_all2. lia.
Qed.

(** Case analysis on the comparisons inside [Js.qmin] and [Js.qmax]. *)
Ltac qle_cases :=
  unfold Js.qmin, Js.qmax in *;
  repeat
    (let split_on x y :=
       let E := fresh "E" in
       destruct (Qle_bool x y) eqn:E;
       [ apply Qle_bool_iff in E
       | assert (y < x)%Q
           by (apply Qnot_le_lt; intros C; apply Qle_bool_iff in C; congruence);
         clear E ] in
     match goal with
     | |- context [if Qle_bool ?x ?y then _ else _] => split_on x y
     | H : context [if Qle_bool ?x ?y then _ else _] |- _ => split_on x y
     end).

Lemma qmin_Qmin (x y : Q) : (Js.qmin x y == Qmin x y)%Q.
Proof.
  qle_cases.
  - symmetry. now apply Q.min_l.
  - symmetry. apply Q.min_r. now apply Qlt_le_weak.
Qed.

Lemma clamp_mono (a b M : Q) :
  (a <= b)%Q ->
  (Js.qmax (Js.qmin a M) 0 <= Js.qmax (Js.qmin b M) 0)%Q.
Proof. intros H. qle_cases; lra. Qed.

Lemma clamp_nonneg (a M : Q) :
  (0 <= a)%Q -> (0 <= M)%Q -> (Js.qmax (Js.qmin a M) 0 == Js.qmin a M)%Q.
Proof. intros Ha HM. qle_cases; lra. Qed.

(** [to_double] against the kernel's division: on small fractions it is
    the correctly rounded quotient of numerator and denominator. *)
Lemma to_double_rounds_quotients :
  forallb
    (fun a =>
       forallb
         (fun b =>
            PrimFloat.eqb (Js.to_double (Z.of_nat a # Pos.of_nat b))
              (PrimFloat.div (Js.of_count (Z.of_nat a))
                 (Js.of_count (Z.of_nat b))))
         (seq 1 200))
    (seq 0 200)
  = true.
Proof. vm_compute. reflexivity. Qed.

(** The exact values of the doubles nearest to 0.1, 0.2 and 0.3 are kept,
    and are what the decimal fractions round to. *)
Lemma to_double_keeps_doubles :
  Js.to_double (3602879701896397 # 36028797018963968) = Js.to_double (1 # 10)
  /\ Js.to_double (3602879701896397 # 18014398509481984) = Js.to_double (2 # 10)
  /\ Js.to_double (5404319552844595 # 18014398509481984) = Js.to_double (3 # 10)
  /\ FloatOps.Prim2SF (Js.to_double (1 # 10))
     = SpecFloat.S754_finite false 7205759403792794 (-56).
Proof. repeat split; vm_compute; reflexivity. Qed.

End JsFacts.

(** ** JavaScript runtime pieces: sorting and slicing *)

Module JsMore.
Import JsFacts.

Section Sorting.
Context {A : Type}.
Variables (after : A -> A -> bool) (le : A -> A -> Prop).
Hypothesis after_true : forall x y, after x y = true -> le y x.
Hypothesis after_false : forall x y, after x y = false -> le x y.
Hypothesis le_trans : forall x y z, le x y -> le y z -> le x z.

Lemma insert_by_sorted (x : A) (l : list A) :
  StronglySorted le l -> StronglySorted le (Js.insert_by after x l).
Proof.
  induction 1 as [| y r Hr IH Hall]; cbn.
  - repeat constructor.
  - destruct (after x y) eqn:Hxy.
    + constructor; [exact IH |].
      apply (Permutation_Forall (insert_by_perm after x r)).
      constructor; [now apply after_true | exact Hall].
    + constructor; [now constructor |].
      constructor; [now apply after_false |].
      eapply List.Forall_impl; [| exact Hall].
      intros z Hz. cbn in Hz. eapply le_trans; [| exact Hz]. now apply after_false.
Qed.

(** A comparator that orders any two elements one way or the other makes
    [sort] return a sorted array. *)
Lemma sort_by_sorted (l : list A) : StronglySorted le (Js.sort_by after l).
Proof.
  induction l as [| x r IH]; cbn; [constructor | now apply insert_by_sorted].
Qed.

End Sorting.

Lemma firstn_In {A} (n : nat) (l : list A) (a : A) :
  List.In a (firstn n l) -> List.In a l.
Proof.
  intros H. rewrite <- (List.firstn_skipn n l). apply List.in_or_app. now left.
Qed.

Lemma skipn_In {A} (n : nat) (l : list A) (a : A) :
  List.In a (skipn n l) -> List.In a l.
Proof.
  intros H. rewrite <- (List.firstn_skipn n l). apply List.in_or_app. now right.
Qed.

Lemma sorted_split {A} (le : A -> A -> Prop) (n : nat) (l : list A) :
  StronglySorted le l ->
  StronglySorted le (firstn n l)
  /\ forall a b, List.In a (firstn n l) -> List.In b (skipn n l) -> le a b.
Proof.
  intros Hs. revert n. induction Hs as [| x r Hr IH Hall]; intros n.
  - rewrite List.firstn_nil. split; [constructor | intros a b []].
  - destruct n as [| n]; cbn.
    + split; [constructor | intros a b []].
    + destruct (IH n) as [Hfirst Hle]. split.
      * constructor; [exact Hfirst |].
        apply List.Forall_forall. intros z Hz. apply firstn_In in Hz.
        eapply List.Forall_forall in Hall; eauto.
      * intros a b [<- | Ha] Hb.
        -- apply skipn_In in Hb.
           eapply List.Forall_forall in Hall; eauto.
        -- now apply Hle.
Qed.

(** [slice(0, n)] keeps a prefix, whatever the sign of [n]. *)
Lemma slice0_prefix {A} (n : Z) (l : list A) :
  exists k : nat,
    Js.slice0 n l = firstn k l
    /\ (0 <= n -> Z.of_nat (List.length (Js.slice0 n l))
                   = Z.min n (Z.of_nat (List.length l))).
Proof.
  unfold Js.slice0. destruct (Z.ltb_spec n 0).
  - eexists. split; [reflexivity | lia].
  - exists (Z.to_nat n). split; [reflexivity |].
    intros _. rewrite List.length_firstn. lia.
Qed.

Lemma assign_lookup {V} (k key : string) (v : V) (obj : gmap string V) :
  Js.assign key v obj !! k
  = if (String.eqb k key && negb (String.eqb key "__proto__"))%bool
    then Some v else obj !! k.
Proof.
  unfold Js.assign.
  destruct (String.eqb_spec key "__proto__") as [-> | Hp]; cbn.
  - now rewrite Bool.andb_false_r.
  - rewrite Bool.andb_true_r.
    destruct (String.eqb_spec k key) as [-> | Hne].
    + apply lookup_insert_eq.
    + apply lookup_insert_ne. congruence.
Qed.

End JsMore.

(** ** CacheManager *)

Module CacheFacts.
Import Cache JsFacts.

Ltac case_eqb k k' :=
  let E := fresh "E" in
  destruct (String.eqb_spec k k') as [E | E]; [try subst | idtac].

Section Maps.
Context {V : Type}.
Implicit Types (m : JsMap V) (k : string) (v : V).

Lemma map_get_In k m v : map_get k m = Some v -> List.In (k, v) m.
Proof.
  induction m as [| [k' v'] r IH]; simpl; [discriminate |].
  case_eqb k k'.
  - intros [= ->]. now left.
  - intros H. right. now apply IH.
Qed.

Lemma map_get_None k m : map_get k m = None <-> ~ List.In k (keys m).
Proof.
  induction m as [| [k' v'] r IH]; simpl.
  - split; [intros _ [] | reflexivity].
  - case_eqb k k'.
    + split; [discriminate | intros H; exfalso; apply H; now left].
    + rewrite IH. split; intros H; [intros [-> | Hin]; tauto | tauto].
Qed.

Lemma In_map_get k m v : wf_map m -> List.In (k, v) m -> map_get k m = Some v.
Proof.
  unfold wf_map.
  induction m as [| [k' v'] r IH]; simpl; [intros _ [] |].
  intros Hnd [Heq | Hin]; apply List.NoDup_cons_iff in Hnd as [Hnotin Hnd].
  - injection Heq as -> ->. now rewrite String.eqb_refl.
  - case_eqb k k'.
    + exfalso. apply Hnotin. change k' with (fst (k', v)). now apply List.in_map.
    + now apply IH.
Qed.

Lemma map_get_set_eq k v m : map_get k (map_set k v m) = Some v.
Proof.
  induction m as [| [k' v'] r IH]; simpl.
  - now rewrite String.eqb_refl.
  - case_eqb k k'; simpl.
    + now rewrite String.eqb_refl.
    + destruct (String.eqb_spec k k'); [contradiction | exact IH].
Qed.

Lemma map_get_set_ne k k' v m :
  k <> k' -> map_get k' (map_set k v m) = map_get k' m.
Proof.
  intros Hne. induction m as [| [k0 v0] r IH]; simpl.
  - destruct (String.eqb_spec k' k); [congruence | reflexivity].
  - case_eqb k k0; simpl.
    + destruct (String.eqb_spec k' k0); [congruence | reflexivity].
    + now rewrite IH.
Qed.

Lemma keys_map_set k v m :
  keys (map_set k v m)
  = match map_get k m with
    | Some _ => keys m
    | None => (keys m ++ [k])%list
    end.
Proof.
  induction m as [| [k' v'] r IH]; simpl; [reflexivity |].
  case_eqb k k'; simpl; [reflexivity |].
  rewrite IH. now destruct (map_get k r).
Qed.

Lemma length_map_set k v m :
  List.length (map_set k v m)
  = match map_get k m with
    | Some _ => List.length m
    | None => S (List.length m)
    end.
Proof.
  induction m as [| [k' v'] r IH]; simpl; [reflexivity |].
  case_eqb k k'; simpl; [reflexivity |].
  rewrite IH. now destruct (map_get k r).
Qed.

Lemma wf_map_set k v m : wf_map m -> wf_map (map_set k v m).
Proof.
  unfold wf_map. intros Hnd. rewrite keys_map_set.
  destruct (map_get k m) eqn:Hget; [assumption |].
  apply map_get_None in Hget.
  apply (Permutation_NoDup (l := k :: keys m)).
  - apply Permutation_cons_append.
  - now constructor.
Qed.

Lemma map_get_delete_ne k k' m :
  k <> k' -> map_get k' (map_delete k m) = map_get k' m.
Proof.
  intros Hne. induction m as [| [k0 v0] r IH]; simpl; [reflexivity |].
  case_eqb k k0; simpl.
  - destruct (String.eqb_spec k' k0); [congruence | reflexivity].
  - now rewrite IH.
Qed.

Lemma keys_delete_incl k m x :
  List.In x (keys (map_delete k m)) -> List.In x (keys m).
Proof.
  induction m as [| [k0 v0] r IH]; simpl; [tauto |].
  case_eqb k k0; simpl; [tauto |].
  intros [-> | Hin]; [now left | right; now apply IH].
Qed.

Lemma wf_map_delete k m : wf_map m -> wf_map (map_delete k m).
Proof.
  unfold wf_map. induction m as [| [k0 v0] r IH]; simpl; [trivial |].
  intros Hnd. apply List.NoDup_cons_iff in Hnd as [Hnotin Hnd].
  case_eqb k k0; simpl; [assumption |].
  constructor; [| now apply IH].
  intros Hin. apply Hnotin. now apply keys_delete_incl in Hin.
Qed.

Lemma map_get_delete_eq k m : wf_map m -> map_get k (map_delete k m) = None.
Proof.
  unfold wf_map. induction m as [| [k0 v0] r IH]; simpl; [reflexivity |].
  intros Hnd. apply List.NoDup_cons_iff in Hnd as [Hnotin Hnd].
  case_eqb k k0; simpl.
  - now apply map_get_None.
  - destruct (String.eqb_spec k k0); [contradiction | now apply IH].
Qed.

Lemma length_map_delete k m :
  List.length (map_delete k m)
  = match map_get k m with
    | Some _ => Nat.pred (List.length m)
    | None => List.length m
    end.
Proof.
  induction m as [| [k0 v0] r IH]; simpl; [reflexivity |].
  case_eqb k k0; simpl; [reflexivity |].
  rewrite IH. destruct (map_get k r) eqn:Hget; [| reflexivity].
  apply map_get_In in Hget. destruct r; [destruct Hget | reflexivity].
Qed.

End Maps.

Section Eviction.
Context {T : Type}.
Implicit Types (m : JsMap (CacheItem T)) (c : CacheManager T).

(** What the scan of [evictLRU] ends with: a time no later than the start
    value and than every entry's last access, and either the start pair
    itself or an entry strictly older than the start value. *)
Lemma lru_scan_spec m k0 t0 :
  let r := fold_left lru_step m (k0, t0) in
  snd r <= t0
  /\ (forall k item, List.In (k, item) m -> snd r <= lastAccessed item)
  /\ (r = (k0, t0)
      \/ exists item,
           List.In (fst r, item) m /\ lastAccessed item = snd r /\ snd r < t0).
Proof.
  revert k0 t0. induction m as [| [k item] r IH]; intros k0 t0; simpl.
  - repeat split; [lia | intros ? ? [] | now left].
  - replace (lru_step (k0, t0) (k, item))
      with (if lastAccessed item <? t0 then (k, lastAccessed item) else (k0, t0))
      by reflexivity.
    destruct (Z.ltb_spec (lastAccessed item) t0) as [Hlt | Hge].
    + destruct (IH k (lastAccessed item)) as (Hle & Hall & Hsel).
      repeat split.
      * lia.
      * intros k' item' [[= <- <-] | Hin]; [exact Hle | now apply (Hall k')].
      * right. destruct Hsel as [-> | (it & Hin & Hla & Hlt')].
        -- exists item. simpl. repeat split; [now left | assumption].
        -- exists it. repeat split; [now right | assumption | lia].
    + destruct (IH k0 t0) as (Hle & Hall & Hsel).
      repeat split.
      * exact Hle.
      * intros k' item' [[= <- <-] | Hin]; [lia | now apply (Hall k')].
      * destruct Hsel as [-> | (it & Hin & Hla & Hlt')]; [now left |].
        right. exists it. repeat split; [now right | assumption | assumption].
Qed.

(** [evictLRU] either leaves the map alone or deletes one entry, which is
    then strictly older than [now] and least recently accessed. *)
Lemma evictLRU_cases m now :
  evictLRU now m = m
  \/ exists item,
       let k := fst (lru_scan now m) in
       List.In (k, item) m
       /\ evictLRU now m = map_delete k m
       /\ lastAccessed item < now
       /\ forall k' item', List.In (k', item') m ->
                           lastAccessed item <= lastAccessed item'.
Proof.
  unfold evictLRU.
  destruct (truthy_string (fst (lru_scan now m))) eqn:Htruthy; [| now left].
  destruct (lru_scan_spec m "" now) as (Hle & Hall & Hsel).
  fold (lru_scan now m) in Hle, Hall, Hsel.
  destruct Hsel as [Heq | (item & Hin & Hla & Hlt)].
  - rewrite Heq in Htruthy. discriminate.
  - right. exists item. simpl. repeat split; [assumption | lia |].
    intros k' item' Hin'. rewrite Hla. now apply (Hall k').
Qed.

(** The scan does pick an entry as soon as one is strictly older than [now]. *)
Lemma lru_scan_picks m now :
  (exists k item, List.In (k, item) m /\ lastAccessed item < now) ->
  exists item, List.In (fst (lru_scan now m), item) m.
Proof.
  intros (k & item & Hin & Hlt).
  destruct (lru_scan_spec m "" now) as (Hle & Hall & Hsel).
  fold (lru_scan now m) in Hle, Hall, Hsel.
  destruct Hsel as [Heq | (it & Hin' & _)]; [| now exists it].
  specialize (Hall k item Hin). rewrite Heq in Hall. simpl in Hall. lia.
Qed.

Lemma evictLRU_wf m now : wf_map m -> wf_map (evictLRU now m).
Proof.
  intros Hwf. unfold evictLRU.
  destruct (truthy_string _); [now apply wf_map_delete | assumption].
Qed.

Lemma evictLRU_get_other m now k :
  k <> fst (lru_scan now m) -> map_get k (evictLRU now m) = map_get k m.
Proof.
  intros Hne. unfold evictLRU.
  destruct (truthy_string _); [| reflexivity].
  apply map_get_delete_ne. congruence.
Qed.

Lemma evictLRU_length m now :
  (List.length m - 1 <= List.length (evictLRU now m) <= List.length m)%nat.
Proof.
  unfold evictLRU. destruct (truthy_string _); [| lia].
  rewrite length_map_delete. destruct (map_get _ m); lia.
Qed.

Lemma set_wf c key v t now : wf_map (cache c) -> wf_map (cache (set key v t now c)).
Proof.
  intros Hwf. unfold set. simpl. apply wf_map_set.
  destruct (maxSize c <=? size c); [now apply evictLRU_wf | assumption].
Qed.

Lemma get_wf c key now : wf_map (cache c) -> wf_map (cache (snd (get key now c))).
Proof.
  intros Hwf. unfold get. destruct (map_get key (cache c)) as [item |]; [| assumption].
  destruct (expired now item); simpl; [now apply wf_map_delete | now apply wf_map_set].
Qed.

Lemma has_wf c key now : wf_map (cache c) -> wf_map (cache (snd (has key now c))).
Proof.
  intros Hwf. unfold has. destruct (map_get key (cache c)) as [item |]; [| assumption].
  destruct (expired now item); simpl; [now apply wf_map_delete | assumption].
Qed.

Lemma delete_wf c key : wf_map (cache c) -> wf_map (cache (snd (delete key c))).
Proof.
  intros Hwf. unfold delete. destruct (map_get key (cache c)); [| assumption].
  simpl. now apply wf_map_delete.
Qed.

Lemma cleanup_wf c now : wf_map (cache c) -> wf_map (cache (cleanup now c)).
Proof.
  intros Hwf. unfold cleanup. simpl.
  generalize (map fst (List.filter (fun e => expired now (snd e)) (cache c))).
  intros ks. revert Hwf. generalize (cache c). induction ks as [| k ks IH]; simpl.
  - trivial.
  - intros m Hwf. apply IH. now apply wf_map_delete.
Qed.

(** Every state a client can reach from a fresh cache is a proper map. *)
Lemma run_wf (ops : list (Op T)) c : wf_map (cache c) -> wf_map (cache (run ops c)).
Proof.
  unfold run. revert c. induction ops as [| o ops IH]; intros c Hwf; simpl.
  - assumption.
  - apply IH. destruct o; simpl.
    + now apply set_wf.
    + now apply get_wf.
    + now apply has_wf.
    + now apply delete_wf.
    + constructor.
    + now apply cleanup_wf.
Qed.

Lemma get_set_fresh c key v t now :
  map_get key (cache (set key v t now c))
  = Some (mkItem v now (ttl_or_default t (defaultTTL c)) 0 now).
Proof. unfold set. simpl. apply map_get_set_eq. Qed.

End Eviction.

(** The memory estimate of [getStats] is the sum of the entries' estimates. *)
Lemma memory_fold {T} (stringify : T -> string) (m : JsMap (CacheItem T)) a :
  fold_left (fun acc e => acc + entry_memory stringify e) m a
  = a + fold_right (fun e acc => entry_memory stringify e + acc) 0 m.
Proof.
  revert a. induction m as [| e r IH]; intros a; simpl; [lia |].
  rewrite IH. lia.
Qed.

Lemma memory_delete {T} (stringify : T -> string) (m : JsMap (CacheItem T)) k item :
  map_get k m = Some item ->
  fold_right (fun e acc => entry_memory stringify e + acc) 0 m
  = fold_right (fun e acc => entry_memory stringify e + acc) 0 (map_delete k m)
    + entry_memory stringify (k, item).
Proof.
  induction m as [| [k' v'] r IH]; simpl; [discriminate |].
  case_eqb k k'.
  - intros [= ->]. lia.
  - intros Hget. simpl. rewrite (IH Hget). lia.
Qed.

(** C7: [set(k, v, ttl)] with a positive [ttl], then [get(k)] at once (or at
    any time up to [ttl] later) returns [v]; a [get(k)] made once more than
    [ttl] has gone by returns absent, adds one to the miss counter, deletes
    the entry, and [getStats().totalItems] is one less than before. *)
Theorem set_get_roundtrip {T} (stringify : T -> string) (c : CacheManager T)
  (k : string) (v : T) (t now : Z) :
  wf_map (cache c) ->
  0 < t ->
  let c1 := set k v (Some t) now c in
  fst (get k now c1) = Some v
  /\ (forall now1, now1 - now <= t -> fst (get k now1 c1) = Some v)
  /\ (forall now2, t < now2 - now ->
        let r := get k now2 c1 in
        fst r = None
        /\ misses (snd r) = misses c1 + 1
        /\ map_get k (cache (snd r)) = None
        /\ totalItems (getStats stringify (snd r))
           = totalItems (getStats stringify c1) - 1).
Proof.
  intros Hwf Ht c1.
  assert (Hfresh : map_get k (cache c1) = Some (mkItem v now t 0 now)).
  { unfold c1. rewrite get_set_fresh. simpl.
    destruct (Z.eqb_spec t 0); [lia | reflexivity]. }
  assert (Hwf1 : wf_map (cache c1)) by now apply set_wf.
  clearbody c1.
  assert (Hlive : forall now1, now1 - now <= t -> fst (get k now1 c1) = Some v).
  { intros now1 Hle. unfold get. rewrite Hfresh. unfold expired. simpl.
    destruct (Z.ltb_spec t (now1 - now)); [lia | reflexivity]. }
  split; [apply Hlive; lia |]. split; [exact Hlive |].
  intros now2 Hgt r. unfold r, get. rewrite Hfresh. unfold expired. simpl.
  destruct (Z.ltb_spec t (now2 - now)); [| lia]. simpl.
  repeat split.
  - now apply map_get_delete_eq.
  - unfold size. simpl. rewrite length_map_delete, Hfresh.
    apply map_get_In in Hfresh.
    destruct (cache c1); [destruct Hfresh | simpl; lia].
Qed.

Lemma set_get_roundtrip_witness :
  let c := new (T := Z) 2 1000 in
  wf_map (cache c) /\ 0 < 50
  /\ fst (get "k" 1000 (set "k" 7 (Some 50) 1000 c)) = Some 7.
Proof.
  intros c.
  assert (Hwf : wf_map (cache c)) by constructor.
  assert (Hpos : 0 < 50) by lia.
  split; [exact Hwf |]. split; [exact Hpos |].
  exact (proj1 (set_get_roundtrip (fun _ => "") c "k" 7 50 1000 Hwf Hpos)).
Defined.

(** C10: [set] on a key that is already present leaves a fresh entry under
    that key: the new value, access count 0, creation and last-access time
    [now]; its expiry is counted from [now], whatever the old entry held. *)
Theorem set_overwrite_resets_entry {T} (c : CacheManager T) (key : string)
  (old : CacheItem T) (v : T) (t : option Z) (now : Z) :
  map_get key (cache c) = Some old ->
  let c' := set key v t now c in
  let itemTTL := ttl_or_default t (defaultTTL c) in
  map_get key (cache c') = Some (mkItem v now itemTTL 0 now)
  /\ forall now',
       fst (get key now' c') = if itemTTL <? now' - now then None else Some v.
Proof.
  intros _ c' itemTTL.
  assert (Hfresh : map_get key (cache c') = Some (mkItem v now itemTTL 0 now))
    by apply get_set_fresh.
  split; [exact Hfresh |].
  intros now'. unfold get. rewrite Hfresh. unfold expired. simpl.
  now destruct (itemTTL <? now' - now).
Qed.

Lemma set_overwrite_resets_entry_witness :
  let c := mkCache [("k", mkItem 7 100 50 3 140)] 2 1000 3 0 in
  map_get "k" (cache c) = Some (mkItem 7 100 50 3 140)
  /\ map_get "k" (cache (set "k" 8 None 200 c)) = Some (mkItem 8 200 1000 0 200).
Proof.
  intros c.
  assert (Hold : map_get "k" (cache c) = Some (mkItem 7 100 50 3 140))
    by reflexivity.
  split; [exact Hold |].
  exact (proj1 (set_overwrite_resets_entry c "k" _ 8 None 200 Hold)).
Defined.

(** C9: an entry whose TTL has run out but which is still stored is counted
    by [getStats] in [totalItems] and in [memoryUsage] (both exceed by that
    entry what they are once it is removed), and [getMostUsed] still lists
    its key; neither function reads the clock or changes the store. *)
Theorem stats_include_expired {T} (stringify : T -> string)
  (c : CacheManager T) (k : string) (item : CacheItem T) (now : Z) :
  map_get k (cache c) = Some item ->
  expired now item = true ->
  let swept := with_cache c (map_delete k (cache c)) in
  totalItems (getStats stringify c) = totalItems (getStats stringify swept) + 1
  /\ memoryUsage (getStats stringify c)
     = memoryUsage (getStats stringify swept) + entry_memory stringify (k, item)
  /\ 64 <= entry_memory stringify (k, item)
  /\ (forall limit, size c <= limit ->
        List.In (k, accessCount item) (getMostUsed (Some limit) c))
  /\ (size c <= 10 -> List.In (k, accessCount item) (getMostUsed None c)).
Proof.
  intros Hget _ swept.
  assert (Hlisted : forall limit, size c <= default 10 limit ->
            List.In (k, accessCount item) (getMostUsed limit c)).
  { intros limit Hle. unfold getMostUsed.
    rewrite slice0_all.
    - eapply Permutation_in; [apply sort_by_perm |].
      apply map_get_In in Hget.
      apply (List.in_map (fun e => (fst e, accessCount (snd e)))) in Hget.
      exact Hget.
    - rewrite <- (Permutation_length (sort_by_perm _ _)), List.length_map.
      exact Hle. }
  repeat split.
  - unfold getStats, size, swept. simpl. rewrite length_map_delete, Hget.
    apply map_get_In in Hget. destruct (cache c); [destruct Hget | simpl; lia].
  - unfold getStats, swept. simpl. rewrite !memory_fold.
    rewrite (memory_delete stringify _ _ _ Hget). lia.
  - unfold entry_memory. lia.
  - intros limit Hle. now apply Hlisted.
  - intros Hle. now apply Hlisted.
Qed.

Lemma stats_include_expired_witness :
  let c := mkCache [("old", mkItem 7 100 50 3 140); ("new", mkItem 8 990 50 0 990)]
             10 1000 3 0 in
  expired 1000 (mkItem 7 100 50 3 140) = true
  /\ totalItems (getStats (fun _ : Z => "7") c) = 2
  /\ memoryUsage (getStats (fun _ : Z => "7") c) = 144
  /\ getMostUsed None c = [("old", 3); ("new", 0)].
Proof.
  intros c.
  assert (Hget : map_get "old" (cache c) = Some (mkItem 7 100 50 3 140))
    by reflexivity.
  assert (Hexp : expired 1000 (mkItem 7 100 50 3 140) = true) by reflexivity.
  destruct (stats_include_expired (fun _ : Z => "7") c "old" _ 1000 Hget Hexp)
    as (Hitems & Hmem & _).
  split; [exact Hexp |].
  split; [rewrite Hitems; reflexivity |].
  split; [rewrite Hmem; reflexivity | reflexivity].
Defined.

(** C2: a cache of capacity 2 that receives three [set] calls on distinct
    keys while [Date.now()] reads the same millisecond ends with three
    entries: [evictLRU] starts its search from the current time and only
    takes entries strictly older than it, so it finds nothing to evict. *)
Theorem capacity_exceeded_within_one_tick :
  let c :=
    run [OSet "a" 1 None 1000; OSet "b" 2 None 1000; OSet "c" 3 None 1000]
      (new (T := Z) 2 300000) in
  maxSize c = 2
  /\ totalItems (getStats (fun _ => "1") c) = 3
  /\ keys (cache c) = ["a"; "b"; "c"].
Proof. repeat split; reflexivity. Qed.

Section Capacity.
Context {T : Type}.
Implicit Types (m : JsMap (CacheItem T)) (c : CacheManager T).

Lemma In_map_set m k v e :
  List.In e (map_set k v m) -> e = (k, v) \/ List.In e m.
Proof.
  induction m as [| [k' v'] r IH]; simpl.
  - intros [<- | []]. now left.
  - case_eqb k k'; simpl.
    + intros [<- | Hin]; [now left | right; now right].
    + intros [<- | Hin]; [right; now left |].
      destruct (IH Hin) as [-> | Hin']; [now left | right; now right].
Qed.

Lemma In_map_delete m k e : List.In e (map_delete k m) -> List.In e m.
Proof.
  induction m as [| [k' v'] r IH]; simpl; [tauto |].
  case_eqb k k'; simpl; [tauto |].
  intros [<- | Hin]; [now left | right; now apply IH].
Qed.

Lemma In_evictLRU m now e : List.In e (evictLRU now m) -> List.In e m.
Proof.
  unfold evictLRU. destruct (truthy_string _); [apply In_map_delete | trivial].
Qed.

Lemma truthy_string_ne s : s <> "" -> truthy_string s = true.
Proof. destruct s; [congruence | reflexivity]. Qed.

(** When every stored entry was last accessed strictly before [now] and no
    key is the empty string, [set] keeps the store within a capacity of at
    least one. *)
Lemma set_respects_capacity c key v t now :
  wf_map (cache c) ->
  1 <= maxSize c ->
  size c <= maxSize c ->
  ~ List.In "" (keys (cache c)) ->
  (forall k item, List.In (k, item) (cache c) -> lastAccessed item < now) ->
  size (set key v t now c) <= maxSize c.
Proof.
  intros Hwf Hmax Hsize Hnamed Hold. unfold set, size in *. simpl.
  destruct (Z.leb_spec (maxSize c) (Z.of_nat (List.length (cache c)))) as [Hfull | Hroom].
  - assert (Hpick : exists item,
               List.In (fst (lru_scan now (cache c)), item) (cache c)).
    { apply lru_scan_picks. destruct (cache c) as [| [k item] r] eqn:Hc.
      - simpl in Hfull. lia.
      - exists k, item. split; [now left | apply (Hold k); now left]. }
    destruct Hpick as (item & Hin).
    assert (Hne : fst (lru_scan now (cache c)) <> "").
    { intros Heq. apply Hnamed. rewrite <- Heq.
      change (fst (lru_scan now (cache c)))
        with (fst (fst (lru_scan now (cache c)), item)).
      now apply List.in_map. }
    unfold evictLRU. rewrite (truthy_string_ne _ Hne).
    rewrite length_map_set, length_map_delete, (In_map_get _ _ _ Hwf Hin).
    destruct (map_get key _); destruct (cache c); simpl in *; first [lia | tauto].
  - rewrite length_map_set. destruct (map_get key (cache c)); lia.
Qed.

Lemma keys_In m k : List.In k (keys m) -> exists v, List.In (k, v) m.
Proof.
  unfold keys. rewrite List.in_map_iff. intros ([k' v] & <- & Hin). now exists v.
Qed.

Lemma within_capacity_delete c k last :
  within_capacity c last ->
  within_capacity (with_cache c (map_delete k (cache c))) last.
Proof.
  intros (Hwf & Hsize & Hnamed & Hold). unfold within_capacity, size in *. simpl.
  repeat split.
  - now apply wf_map_delete.
  - rewrite length_map_delete. destruct (map_get k (cache c)); lia.
  - intros Hin. apply Hnamed. now apply keys_delete_incl in Hin.
  - intros k' item Hin. apply (Hold k'). now apply In_map_delete in Hin.
Qed.

Lemma within_capacity_later c last last' :
  last <= last' -> within_capacity c last -> within_capacity c last'.
Proof.
  intros Hle (Hwf & Hsize & Hnamed & Hold). repeat split; try assumption.
  intros k item Hin. specialize (Hold k item Hin). lia.
Qed.

Lemma within_capacity_step c (o : Op T) last :
  1 <= maxSize c ->
  sets_named_key o ->
  within_capacity c last ->
  match op_time o with
  | Some now => last < now -> within_capacity (step c o) now
  | None => within_capacity (step c o) last
  end
  /\ maxSize (step c o) = maxSize c.
Proof.
  intros Hmax Hkey Hinv.
  destruct o as [key v t now | key now | key now | key | | now]; simpl.
  - split; [| reflexivity]. intros Hlt.
    destruct Hinv as (Hwf & Hsize & Hnamed & Hold).
    assert (Hstrict : forall k item,
               List.In (k, item) (cache c) -> lastAccessed item < now).
    { intros k item Hin. specialize (Hold k item Hin). lia. }
    repeat split.
    + now apply set_wf.
    + change (size (set key v t now c) <= maxSize c).
      now apply set_respects_capacity.
    + unfold set. simpl. intros Hin. apply keys_In in Hin as (item & Hin).
      apply In_map_set in Hin as [[= Heq _] | Hin]; [now apply Hkey |].
      apply Hnamed. change "" with (fst ("", item)). apply List.in_map.
      destruct (maxSize c <=? size c); [now apply In_evictLRU in Hin | assumption].
    + unfold set. simpl. intros k item Hin.
      apply In_map_set in Hin as [[= _ ->] | Hin]; [simpl; lia |].
      assert (Hin' : List.In (k, item) (cache c)).
      { destruct (maxSize c <=? size c); [now apply In_evictLRU in Hin | assumption]. }
      specialize (Hold k item Hin'). lia.
  - unfold get. destruct (map_get key (cache c)) as [item |] eqn:Hget.
    + destruct (expired now item); simpl.
      * split; [| reflexivity]. intros Hlt.
        apply (within_capacity_later _ last); [lia |].
        now apply (within_capacity_delete c key).
      * split; [| reflexivity]. intros Hlt.
        destruct Hinv as (Hwf & Hsize & Hnamed & Hold).
        unfold within_capacity, size in *. simpl. repeat split.
        -- now apply wf_map_set.
        -- rewrite length_map_set, Hget. exact Hsize.
        -- unfold wf_map in *. rewrite keys_map_set, Hget. exact Hnamed.
        -- intros k it Hin.
           apply In_map_set in Hin as [[= _ ->] | Hin]; [simpl; lia |].
           specialize (Hold k it Hin). lia.
    + simpl. split; [| reflexivity]. intros Hlt.
      apply (within_capacity_later _ last); [lia |]. exact Hinv.
  - unfold has. destruct (map_get key (cache c)) as [item |] eqn:Hget.
    + destruct (expired now item); simpl; (split; [| reflexivity]); intros Hlt;
        (apply (within_capacity_later _ last); [lia |]);
        [now apply (within_capacity_delete c key) | exact Hinv].
    + simpl. split; [| reflexivity]. intros Hlt.
      apply (within_capacity_later _ last); [lia |]. exact Hinv.
  - unfold delete. destruct (map_get key (cache c)); simpl;
      (split; [| reflexivity]);
      [now apply (within_capacity_delete c key) | exact Hinv].
  - split; [| reflexivity]. unfold within_capacity, size. simpl.
    repeat split; [constructor | lia | tauto | tauto].
  - split; [| reflexivity]. intros Hlt.
    apply (within_capacity_later _ last); [lia |].
    unfold cleanup.
    generalize (map fst (List.filter (fun e => expired now (snd e)) (cache c))).
    intros ks. revert c Hmax Hinv. induction ks as [| k ks IH]; intros c Hmax Hinv; simpl.
    + destruct c. exact Hinv.
    + apply (IH (with_cache c (map_delete k (cache c)))); [exact Hmax |].
      now apply within_capacity_delete.
Qed.

(** Along a history whose clock readings strictly increase and whose [set]
    calls use non-empty keys, the store never exceeds a capacity of at least
    one. *)
Lemma run_respects_capacity (ops : list (Op T)) c last :
  1 <= maxSize c ->
  Forall sets_named_key ops ->
  clock_advances last ops ->
  within_capacity c last ->
  size (run ops c) <= maxSize c.
Proof.
  unfold run. revert c last.
  induction ops as [| o ops IH]; intros c last Hmax Hkeys Hclock Hinv; simpl.
  - apply Hinv.
  - apply Forall_cons_1 in Hkeys as [Hkey Hkeys].
    destruct (within_capacity_step c o last Hmax Hkey Hinv) as [Hstep Hsame].
    simpl in Hclock. rewrite <- Hsame.
    destruct (op_time o) as [now |].
    + destruct Hclock as [Hlt Hclock].
      apply (IH _ now); [lia | assumption | assumption | now apply Hstep].
    + apply (IH _ last); [lia | assumption | assumption | exact Hstep].
Qed.

End Capacity.

(** C5 as worded fails: in a full cache, overwriting a present key evicts
    another entry. *)
Lemma overwrite_evicts_other_entry : ~ overwrite_keeps_others.
Proof.
  intros H.
  pose (c := run [OSet "a" 1 None 1; OSet "b" 2 None 2] (new (T := Z) 2 1000)).
  assert (Hwf : wf_map (cache c)) by (apply run_wf; constructor).
  assert (Hb : map_get "b" (cache c) <> None) by (vm_compute; discriminate).
  assert (Hne : "a" <> "b") by discriminate.
  specialize (H c "b" 3 None 3 Hwf Hb "a" Hne).
  vm_compute in H. discriminate.
Qed.

(** C5, amended: [set] on a key that is already present overwrites that
    entry. While the store is below capacity nothing is evicted and every
    other entry is unchanged. At capacity the eviction runs although the key
    is not new: the only entry that can be lost is the one the scan selects,
    which was last accessed strictly before [now] and no later than any
    other entry; all remaining entries are unchanged and at most one entry
    disappears. *)
Theorem set_existing_key_frame {T} (c : CacheManager T) (key : string)
  (old : CacheItem T) (v : T) (t : option Z) (now : Z) :
  wf_map (cache c) ->
  map_get key (cache c) = Some old ->
  let c' := set key v t now c in
  let victim := fst (lru_scan now (cache c)) in
  map_get key (cache c')
  = Some (mkItem v now (ttl_or_default t (defaultTTL c)) 0 now)
  /\ (size c < maxSize c ->
      forall k', k' <> key -> map_get k' (cache c') = map_get k' (cache c))
  /\ (forall k', k' <> key -> k' <> victim ->
        map_get k' (cache c') = map_get k' (cache c))
  /\ (forall k', k' <> key -> map_get k' (cache c') <> map_get k' (cache c) ->
        maxSize c <= size c
        /\ k' = victim
        /\ map_get k' (cache c') = None
        /\ exists item,
             map_get k' (cache c) = Some item
             /\ lastAccessed item < now
             /\ forall k'' item'', map_get k'' (cache c) = Some item'' ->
                                   lastAccessed item <= lastAccessed item'')
  /\ size c - 1 <= size c' <= size c.
Proof.
  intros Hwf Hold c' victim.
  split; [apply get_set_fresh |].
  assert (Hroom : size c < maxSize c ->
            forall k', k' <> key -> map_get k' (cache c') = map_get k' (cache c)).
  { intros Hlt k' Hne. unfold c', set. simpl.
    rewrite map_get_set_ne by congruence.
    destruct (Z.leb_spec (maxSize c) (size c)); [lia | reflexivity]. }
  split; [exact Hroom |].
  assert (Hother : forall k', k' <> key -> k' <> victim ->
            map_get k' (cache c') = map_get k' (cache c)).
  { intros k' Hne Hnv. unfold c', set. simpl.
    rewrite map_get_set_ne by congruence.
    destruct (maxSize c <=? size c); [| reflexivity].
    now apply evictLRU_get_other. }
  split; [exact Hother |].
  split.
  - intros k' Hne Hdiff.
    destruct (Z.leb_spec (maxSize c) (size c)) as [Hfull | Hlt];
      [| exfalso; apply Hdiff; now apply Hroom].
    split; [exact Hfull |].
    destruct (string_dec k' victim) as [Hv | Hnv];
      [| exfalso; apply Hdiff; now apply Hother].
    split; [exact Hv |].
    assert (Hc' : map_get k' (cache c') = map_get k' (evictLRU now (cache c))).
    { unfold c', set. simpl. rewrite map_get_set_ne by congruence.
      destruct (Z.leb_spec (maxSize c) (size c)); [reflexivity | lia]. }
    destruct (evictLRU_cases (cache c) now) as [Hsame | (item & Hin & Hev & Hlt & Hmin)].
    + exfalso. apply Hdiff. now rewrite Hc', Hsame.
    + fold victim in Hin, Hev. rewrite <- Hv in Hin, Hev.
      split; [rewrite Hc', Hev; now apply map_get_delete_eq |].
      exists item. split; [now apply In_map_get |]. split; [exact Hlt |].
      intros k'' item'' Hget. apply (Hmin k''). now apply map_get_In.
  - unfold c', set, size. simpl. rewrite length_map_set.
    destruct (maxSize c <=? Z.of_nat (List.length (cache c))).
    + pose proof (evictLRU_length (cache c) now) as Hlen.
      destruct (map_get key (evictLRU now (cache c))) eqn:Hk; [lia |].
      assert (Hdel : evictLRU now (cache c) <> cache c) by congruence.
      unfold evictLRU in Hdel, Hk |- *.
      destruct (truthy_string _); [| congruence].
      rewrite length_map_delete in *.
      destruct (map_get (fst (lru_scan now (cache c))) (cache c)) eqn:Hv.
      * apply map_get_In in Hv. destruct (cache c); [destruct Hv | simpl; lia].
      * exfalso. apply map_get_None in Hv.
        destruct (string_dec key (fst (lru_scan now (cache c)))) as [Heq | Hne].
        -- rewrite <- Heq in Hv. apply map_get_None in Hv. congruence.
        -- rewrite map_get_delete_ne in Hk by congruence. congruence.
    + rewrite Hold. lia.
Qed.

Lemma set_existing_key_frame_witness :
  let c := run [OSet "a" 1 None 1; OSet "b" 2 None 2] (new (T := Z) 3 1000) in
  wf_map (cache c)
  /\ map_get "b" (cache c) = Some (mkItem 2 2 1000 0 2)
  /\ map_get "b" (cache (set "b" 3 None 3 c)) = Some (mkItem 3 3 1000 0 3)
  /\ map_get "a" (cache (set "b" 3 None 3 c)) = map_get "a" (cache c).
Proof.
  intros c.
  assert (Hwf : wf_map (cache c)) by (apply run_wf; constructor).
  assert (Hb : map_get "b" (cache c) = Some (mkItem 2 2 1000 0 2)) by reflexivity.
  destruct (set_existing_key_frame c "b" _ 3 None 3 Hwf Hb)
    as (Hfresh & Hroom & _).
  split; [exact Hwf |]. split; [exact Hb |]. split; [exact Hfresh |].
  apply Hroom; [vm_compute; reflexivity | discriminate].
Defined.

End CacheFacts.

(** ** RetryManager *)

Module RetryFacts.
Import Retry JsFacts.

Lemma calculateDelay_no_jitter (attempt : Z) (config : RetryConfig) (w : World) :
  jitter config = false ->
  calculateDelay attempt config w
  = (Js.qmax
       (Js.qmin (baseDelay config * backoffFactor config ^ (attempt - 1))
          (maxDelay config)) 0, w).
Proof. intros H. unfold calculateDelay. now rewrite H. Qed.

(** Without jitter the delay is the capped power clamped at zero, for any
    configuration; the clamp only matters for negative delays. *)
Lemma backoff_delay_clamped (attempt : Z) (config : RetryConfig) (w : World) :
  jitter config = false ->
  (fst (calculateDelay attempt config w)
   == Qmax 0 (Qmin (baseDelay config * backoffFactor config ^ (attempt - 1))
                (maxDelay config)))%Q.
Proof.
  intros Hj. rewrite calculateDelay_no_jitter by exact Hj. cbn [fst].
  rewrite <- qmin_Qmin.
  generalize (Js.qmin (baseDelay config * backoffFactor config ^ (attempt - 1))
                (maxDelay config)) as x.
  intros x. qle_cases.
  - symmetry. now apply Q.max_l.
  - symmetry. apply Q.max_r. now apply Qlt_le_weak.
Qed.

(** C6 as worded fails: the final [Math.max(delay, 0)] is missing from it.
    With a negative [baseDelay] the capped power is negative and the delay
    is 0. *)
Lemma negative_delay_is_clamped : ~ delay_is_capped_power.
Proof.
  intros H.
  specialize (H (mkConfig 3 (-100) 30000 2 false defaultRetryCondition)
                (mkWorld 0 0 []) 1 eq_refl eq_refl ltac:(cbn; lia)).
  vm_compute in H. discriminate.
Qed.

(** C6, amended: with jitter off and a backoff factor above 1, and as long
    as the power [backoffFactor^(i-1)] does not overflow, the delay computed
    after failed attempt [i] is
    [max(0, min(baseDelay * backoffFactor^(i-1), maxDelay))], no random
    number is drawn, and the delays do not decrease from one attempt to a
    later one, whatever the signs of [baseDelay] and [maxDelay]; when both
    are durations (not negative) the delay is
    [min(baseDelay * backoffFactor^(i-1), maxDelay)]. The values are those
    of exact arithmetic: the code evaluates the same expressions in
    binary64. *)
Theorem backoff_delay_capped_and_monotone (config : RetryConfig) (w : World) :
  jitter config = false ->
  (1 < backoffFactor config)%Q ->
  (forall i, 1 <= i -> no_overflow config i ->
     (fst (calculateDelay i config w)
      == Qmax 0 (Qmin (baseDelay config * backoffFactor config ^ (i - 1))
                   (maxDelay config)))%Q
     /\ snd (calculateDelay i config w) = w)
  /\ (forall i j, 1 <= i -> i <= j -> no_overflow config j ->
        (fst (calculateDelay i config w) <= fst (calculateDelay j config w))%Q)
  /\ ((0 <= baseDelay config)%Q ->
      (0 <= maxDelay config)%Q ->
      forall i, 1 <= i -> no_overflow config i ->
        (fst (calculateDelay i config w)
         == Qmin (baseDelay config * backoffFactor config ^ (i - 1))
              (maxDelay config))%Q).
Proof.
  intros Hj Hbf.
  assert (Hpow : forall i, (0 <= backoffFactor config ^ i)%Q)
    by (intros i; apply Qpower_0_le; lra).
  split; [| split].
  - intros i Hi _. split; [now apply backoff_delay_clamped |].
    now rewrite calculateDelay_no_jitter.
  - intros i j Hi Hij _. rewrite !calculateDelay_no_jitter by exact Hj.
    cbn [fst].
    destruct (Qlt_le_dec (baseDelay config) 0) as [Hneg | Hbase].
    + assert (Hraw : forall k,
                 (Js.qmax
                    (Js.qmin (baseDelay config * backoffFactor config ^ k)
                       (maxDelay config)) 0 == 0)%Q).
      { intros k.
        assert (Hle : (baseDelay config * backoffFactor config ^ k <= 0)%Q).
        { specialize (Hpow k). nra. }
        revert Hle.
        generalize (baseDelay config * backoffFactor config ^ k)%Q as x.
        intros x Hx. qle_cases; lra. }
      rewrite !Hraw. apply Qle_refl.
    + apply clamp_mono. apply Qmult_le_compat_nonneg.
      * split; [exact Hbase | apply Qle_refl].
      * split; [apply Hpow |].
        apply Qpower_le_compat_l; [lia | lra].
  - intros Hbase Hmax i Hi _. rewrite calculateDelay_no_jitter by exact Hj.
    cbn [fst]. rewrite <- qmin_Qmin. apply clamp_nonneg; [| exact Hmax].
    apply Qmult_le_0_compat; [exact Hbase | apply Hpow].
Qed.

Lemma backoff_delay_capped_and_monotone_witness :
  let config := mkConfig 5 100 350 2 false defaultRetryCondition in
  let w := mkWorld 0 0 [] in
  (fst (calculateDelay 2 config w) == 200)%Q
  /\ (fst (calculateDelay 3 config w) == 350)%Q
  /\ (fst (calculateDelay 2 config w) <= fst (calculateDelay 3 config w))%Q.
Proof.
  intros config w.
  assert (Hj : jitter config = false) by reflexivity.
  assert (Hbf : (1 < backoffFactor config)%Q) by reflexivity.
  assert (Hbase : (0 <= baseDelay config)%Q) by discriminate.
  assert (Hmax : (0 <= maxDelay config)%Q) by discriminate.
  assert (H2 : no_overflow config 2) by (vm_compute; reflexivity).
  assert (H3 : no_overflow config 3) by (vm_compute; reflexivity).
  destruct (backoff_delay_capped_and_monotone config w Hj Hbf)
    as (_ & Hmono & Heq).
  split; [| split].
  - rewrite (Heq Hbase Hmax 2 ltac:(lia) H2). reflexivity.
  - rewrite (Heq Hbase Hmax 3 ltac:(lia) H3). reflexivity.
  - apply Hmono; [lia | lia | exact H3].
Defined.

Lemma calculateDelay_calls attempt config w :
  calls (snd (calculateDelay attempt config w)) = calls w.
Proof.
  unfold calculateDelay. destruct (jitter config); [| reflexivity].
  unfold random. now destruct (entropy w).
Qed.

Section Loop.
Context {T : Type}.
Variables (op : Operation T) (config : RetryConfig) (startTime : Z).

(** The loop on an operation whose next [fuel] invocations are all rejected
    with retryable errors, [fuel] being what is left up to [maxAttempts]. *)
Lemma retry_loop_exhausts (fuel : nat) :
  forall attempt sofar w,
    (0 < fuel)%nat ->
    attempt + Z.of_nat fuel - 1 = maxAttempts config ->
    fails_retryably op config w fuel ->
    exists res w',
      retry_loop fuel attempt op config startTime sofar w = (inr res, w')
      /\ success res = false
      /\ result res = None
      /\ List.length (attempts res) = (List.length sofar + fuel)%nat
      /\ calls w' = (calls w + fuel)%nat.
Proof.
  induction fuel as [| fuel IH]; intros attempt sofar w Hpos Hmax Hfail; [lia |].
  destruct (Hfail 0%nat ltac:(lia)) as (e & dt & Hop & Hretry).
  rewrite Nat.add_0_r in Hop.
  cbn [retry_loop]. unfold invoke. rewrite Hop, Hretry. cbn [negb orb].
  destruct (Z.eqb_spec attempt (maxAttempts config)) as [Hlast | Hmore].
  - assert (fuel = 0%nat) by lia. subst fuel.
    eexists _, _. split; [reflexivity |]. cbn.
    rewrite List.length_app. cbn. repeat split; lia.
  - destruct (calculateDelay attempt config
                (mkWorld (clock w + dt) (S (calls w)) (entropy w)))
      as [d w2] eqn:Hd.
    assert (Hcalls2 : calls w2 = S (calls w)).
    { change w2 with (snd (d, w2)). rewrite <- Hd.
      now rewrite calculateDelay_calls. }
    destruct (IH (attempt + 1)
                (sofar ++ [Attempt.mk attempt (clock w + dt) e d])%list
                (sleep d w2))
      as (res & w' & Hrun & Hs & Hr & Hlen & Hcalls).
    + lia.
    + lia.
    + intros i Hi. destruct (Hfail (S i) ltac:(lia)) as (e' & dt' & Hop' & Hr').
      exists e', dt'. split; [| exact Hr'].
      cbn [sleep calls]. rewrite Hcalls2.
      now replace (S (calls w) + i)%nat with (calls w + S i)%nat by lia.
    + exists res, w'. split; [exact Hrun |].
      rewrite List.length_app in Hlen. cbn in Hlen, Hcalls.
      repeat split; [assumption | assumption | lia | lia].
Qed.

(** The loop on an operation rejected retryably [k] times and then
    resolved, with more than [k] iterations left. *)
Lemma retry_loop_recovers (k : nat) :
  forall fuel attempt sofar w v dt,
    (k < fuel)%nat ->
    attempt + Z.of_nat fuel - 1 = maxAttempts config ->
    fails_retryably op config w k ->
    op (calls w + k)%nat = (Resolved v, dt) ->
    exists res w',
      retry_loop fuel attempt op config startTime sofar w = (inr res, w')
      /\ success res = true
      /\ result res = Some v
      /\ List.length (attempts res) = (List.length sofar + k)%nat
      /\ calls w' = (calls w + k + 1)%nat.
Proof.
  induction k as [| k IH]; intros fuel attempt sofar w v dt Hlt Hmax Hfail Hok;
    (destruct fuel as [| fuel]; [lia |]).
  - rewrite Nat.add_0_r in Hok.
    cbn [retry_loop]. unfold invoke. rewrite Hok.
    eexists _, _. split; [reflexivity |]. cbn. repeat split; lia.
  - destruct (Hfail 0%nat ltac:(lia)) as (e & dt0 & Hop & Hretry).
    rewrite Nat.add_0_r in Hop.
    cbn [retry_loop]. unfold invoke. rewrite Hop, Hretry. cbn [negb orb].
    destruct (Z.eqb_spec attempt (maxAttempts config)) as [Hlast | Hmore]; [lia |].
    destruct (calculateDelay attempt config
                (mkWorld (clock w + dt0) (S (calls w)) (entropy w)))
      as [d w2] eqn:Hd.
    assert (Hcalls2 : calls w2 = S (calls w)).
    { change w2 with (snd (d, w2)). rewrite <- Hd.
      now rewrite calculateDelay_calls. }
    destruct (IH fuel (attempt + 1)
                (sofar ++ [Attempt.mk attempt (clock w + dt0) e d])%list
                (sleep d w2) v dt)
      as (res & w' & Hrun & Hs & Hr & Hlen & Hcalls).
    + lia.
    + lia.
    + intros i Hi. destruct (Hfail (S i) ltac:(lia)) as (e' & dt' & Hop' & Hr').
      exists e', dt'. split; [| exact Hr'].
      cbn [sleep calls]. rewrite Hcalls2.
      now replace (S (calls w) + i)%nat with (calls w + S i)%nat by lia.
    + cbn [sleep calls]. rewrite Hcalls2.
      now replace (S (calls w) + k)%nat with (calls w + S k)%nat by lia.
    + exists res, w'. split; [exact Hrun |].
      rewrite List.length_app in Hlen. cbn in Hlen, Hcalls.
      repeat split; [assumption | assumption | lia | lia].
Qed.

Lemma backoff_schedule_cons (attempt : Z) (fuel : nat) :
  backoff_schedule config attempt (S fuel)
  = (attempt,
     if attempt =? maxAttempts config then 0%Q
     else Js.qmax
            (Js.qmin (baseDelay config * backoffFactor config ^ (attempt - 1))
               (maxDelay config)) 0%Q)
    :: backoff_schedule config (attempt + 1) fuel.
Proof.
  unfold backoff_schedule. cbn [seq map]. rewrite Z.add_0_r. f_equal.
  rewrite <- List.seq_shift, List.map_map. apply List.map_ext.
  intros k. cbn zeta.
  now replace (attempt + 1 + Z.of_nat k) with (attempt + Z.of_nat (S k)) by lia.
Qed.

(** With jitter off, the records of an exhausted run carry the backoff
    schedule: record [i] holds the delay [calculateDelay] gives for [i]. *)
Lemma retry_loop_schedule (fuel : nat) :
  forall attempt sofar w,
    jitter config = false ->
    (0 < fuel)%nat ->
    attempt + Z.of_nat fuel - 1 = maxAttempts config ->
    fails_retryably op config w fuel ->
    exists res w',
      retry_loop fuel attempt op config startTime sofar w = (inr res, w')
      /\ map attempt_delay (attempts res)
         = (map attempt_delay sofar ++ backoff_schedule config attempt fuel)%list.
Proof.
  induction fuel as [| fuel IH]; intros attempt sofar w Hj Hpos Hmax Hfail; [lia |].
  destruct (Hfail 0%nat ltac:(lia)) as (e & dt & Hop & Hretry).
  rewrite Nat.add_0_r in Hop.
  rewrite backoff_schedule_cons.
  cbn [retry_loop]. unfold invoke. rewrite Hop, Hretry. cbn [negb orb].
  destruct (Z.eqb_spec attempt (maxAttempts config)) as [Hlast | Hmore].
  - assert (fuel = 0%nat) by lia. subst fuel.
    eexists _, _. split; [reflexivity |]. cbn [attempts].
    now rewrite List.map_app.
  - rewrite calculateDelay_no_jitter by exact Hj.
    match goal with
    | |- context [retry_loop fuel (attempt + 1) op config startTime ?l ?w'] =>
        destruct (IH (attempt + 1) l w') as (res & w'' & Hrun & Hmap)
    end.
    + exact Hj.
    + lia.
    + lia.
    + intros i Hi. destruct (Hfail (S i) ltac:(lia)) as (e' & dt' & Hop' & Hr').
      exists e', dt'. split; [| exact Hr'].
      cbn [sleep calls].
      now replace (S (calls w) + i)%nat with (calls w + S i)%nat by lia.
    + exists res, w''. split; [exact Hrun |].
      rewrite Hmap, List.map_app, <- List.app_assoc. reflexivity.
Qed.

(** Whatever the operation does, the loop never throws the circuit-open
    error, and with fuel left it invokes the operation at least once. *)
Lemma retry_loop_outcome (fuel : nat) :
  forall attempt sofar w,
    (forall key, fst (retry_loop fuel attempt op config startTime sofar w)
                 <> inl (CircuitOpen key))
    /\ ((0 < fuel)%nat ->
        (calls w
         < calls (snd (retry_loop fuel attempt op config startTime sofar w)))%nat).
Proof.
  induction fuel as [| fuel IH]; intros attempt sofar w.
  - split; [intros key; discriminate | lia].
  - cbn [retry_loop]. unfold invoke.
    destruct (op (calls w)) as [[v | e] dt].
    + split; [intros key; discriminate | cbn; lia].
    + destruct (negb (retryCondition config e) || (attempt =? maxAttempts config))%bool.
      * split; [intros key; discriminate | cbn; lia].
      * destruct (calculateDelay attempt config
                    (mkWorld (clock w + dt) (S (calls w)) (entropy w)))
          as [d w2] eqn:Hd.
        assert (Hcalls2 : calls w2 = S (calls w)).
        { change w2 with (snd (d, w2)). rewrite <- Hd.
          now rewrite calculateDelay_calls. }
        destruct (IH (attempt + 1)
                    (sofar ++ [Attempt.mk attempt (clock w + dt) e d])%list
                    (sleep d w2)) as [Hno Hcalls].
        split; [exact Hno |]. intros _.
        destruct fuel as [| fuel'].
        -- cbn [retry_loop snd sleep calls]. rewrite Hcalls2. lia.
        -- specialize (Hcalls ltac:(lia)).
           apply (Nat.lt_trans _ (calls w2)); [lia | exact Hcalls].
Qed.

End Loop.

(** C4: for a configuration passed with [maxAttempts = n >= 1], [execute]
    on an operation rejected at each of its [n] invocations with an error
    that the retry condition in force accepts (the one of the
    configuration, or the default one when it has none) returns a failed
    outcome with exactly [n] attempt records; on an operation rejected so
    [k < n] times and then resolved with [v] it returns a successful outcome
    carrying [v] with exactly [k] attempt records. *)
Theorem execute_attempt_records {T} (op : Operation T) (config : Partial.t)
  (w : World) (n : nat) :
  Partial.maxAttempts config = Some (Z.of_nat n) ->
  (1 <= n)%nat ->
  let cond := default defaultRetryCondition (Partial.retryCondition config) in
  (rejected_retryably op cond w n ->
   exists res w',
     execute op (Some config) w = (inr res, w')
     /\ success res = false
     /\ List.length (attempts res) = n
     /\ calls w' = (calls w + n)%nat)
  /\ (forall (k : nat) (v : T) (dt : Z),
        (k < n)%nat ->
        rejected_retryably op cond w k ->
        op (calls w + k)%nat = (Resolved v, dt) ->
        exists res w',
          execute op (Some config) w = (inr res, w')
          /\ success res = true
          /\ result res = Some v
          /\ List.length (attempts res) = k
          /\ calls w' = (calls w + k + 1)%nat).
Proof.
  intros Hmax Hn cond. unfold execute.
  set (final := merge defaultConfig (Some config)).
  assert (Hfinal : maxAttempts final = Z.of_nat n).
  { unfold final, merge. cbn [maxAttempts]. now rewrite Hmax. }
  assert (Hcond : retryCondition final = cond) by reflexivity.
  rewrite Hfinal, Nat2Z.id.
  split.
  - intros Hfail.
    destruct (retry_loop_exhausts op final (clock w) n 1 [] w)
      as (res & w' & Hrun & Hs & _ & Hlen & Hcalls);
      [lia | lia | unfold fails_retryably; now rewrite Hcond |].
    exists res, w'. repeat split; assumption.
  - intros k v dt Hk Hfail Hok.
    destruct (retry_loop_recovers op final (clock w) k n 1 [] w v dt)
      as (res & w' & Hrun & Hs & Hr & Hlen & Hcalls);
      [lia | lia | unfold fails_retryably; now rewrite Hcond | exact Hok |].
    exists res, w'. repeat split; assumption.
Qed.

(** The end-to-end scenario: three attempts allowed, base delay 100, factor
    2, no jitter, two rejections with status 503 and then "ok". *)
Example execute_scenario :
  let op : Operation string :=
    fun i => if (i <? 2)%nat then (Rejected (mkError (Some 503) None), 0)
             else (Resolved "ok", 0) in
  let config := Partial.mk (Some 3) (Some 100%Q) None (Some 2%Q) (Some false) None in
  exists res w',
    execute op (Some config) (mkWorld 0 0 []) = (inr res, w')
    /\ success res = true
    /\ result res = Some "ok"
    /\ map attempt_delay (attempts res) = [(1, 100%Q); (2, 200%Q)]
    /\ totalTime res = 300.
Proof. eexists _, _. split; [vm_compute; reflexivity |]. repeat split. Qed.

Lemma execute_attempt_records_witness :
  let op : Operation string :=
    fun i => if (i <? 5)%nat then (Rejected (mkError None (Some "busy")), 10)
             else (Resolved "ok", 10) in
  let busy (e : JsError) := negb (status_retryable (default 0 (status e))) in
  let w := mkWorld 0 0 [] in
  (exists res w',
     execute op (Some (Partial.mk (Some 5) None None None None (Some busy))) w
     = (inr res, w')
     /\ success res = false
     /\ List.length (attempts res) = 5%nat)
  /\ (exists res w',
        execute op (Some (Partial.mk (Some 7) None None None None (Some busy))) w
        = (inr res, w')
        /\ success res = true
        /\ result res = Some "ok"
        /\ List.length (attempts res) = 5%nat).
Proof.
  intros op busy w.
  assert (Hfail : rejected_retryably op busy w 5).
  { intros i Hi. exists (mkError None (Some "busy")), 10. split; [| reflexivity].
    cbn [calls w Nat.add]. unfold op.
    destruct (Nat.ltb_spec i 5); [reflexivity | lia]. }
  split.
  - destruct (execute_attempt_records op
                (Partial.mk (Some 5) None None None None (Some busy)) w 5
                eq_refl ltac:(lia)) as [Hrun _].
    destruct (Hrun Hfail) as (res & w' & Hres & Hs & Hlen & _).
    exists res, w'. repeat split; assumption.
  - destruct (execute_attempt_records op
                (Partial.mk (Some 7) None None None None (Some busy)) w 7
                eq_refl ltac:(lia)) as [_ Hrun].
    destruct (Hrun 5%nat "ok" 10 ltac:(lia) Hfail eq_refl)
      as (res & w' & Hres & Hs & Hr & Hlen & _).
    exists res, w'. repeat split; assumption.
Defined.

Lemma execute_outcome {T} (op : Operation T) (config : option Partial.t) (w : World) :
  (forall key, fst (execute op config w) <> inl (CircuitOpen key))
  /\ (1 <= maxAttempts (merge defaultConfig config) ->
      (calls w < calls (snd (execute op config w)))%nat).
Proof.
  unfold execute.
  destruct (retry_loop_outcome op (merge defaultConfig config) (clock w)
              (Z.to_nat (maxAttempts (merge defaultConfig config))) 1 [] w)
    as [Hno Hcalls].
  split; [exact Hno |]. intros Hmax. apply Hcalls. lia.
Qed.

Section Breaker.
Context {T : Type}.
Implicit Types (m : gmap string CircuitState) (op : Operation T).

Lemma recordFailure_lookup key now m :
  recordFailure key now m !! key
  = Some (let st := default (mkCircuit 0 now PClosed) (m !! key) in
          mkCircuit (failures st + 1) now
            (if 5 <=? failures st + 1 then POpen else state st)).
Proof. unfold recordFailure. now rewrite lookup_insert_eq. Qed.

Lemma recordFailure_ok key now m :
  breaker_ok key m -> breaker_ok key (recordFailure key now m).
Proof.
  intros Hok st. rewrite recordFailure_lookup. intros [= <-].
  unfold breaker_ok, circuit_ok in *.
  destruct (m !! key) as [st0 |]; cbn.
  - destruct (Hok st0 eq_refl) as [Hpos Hiff].
    destruct (Z.leb_spec 5 (failures st0 + 1)); (split; [lia |]).
    + split; [discriminate | lia].
    + split; [lia |]. intros _. apply Hiff. lia.
  - split; [lia |]. split; [lia | reflexivity].
Qed.

Lemma recordSuccess_ok key m :
  breaker_ok key m -> breaker_ok key (recordSuccess key m).
Proof.
  intros Hok st. unfold recordSuccess.
  destruct (m !! key) as [st0 |] eqn:Hget; [| rewrite Hget; discriminate].
  rewrite lookup_insert_eq. intros [= <-].
  split; cbn; [lia |]. split; [lia | reflexivity].
Qed.

Lemma isCircuitOpen_ok key now m :
  breaker_ok key m -> breaker_ok key (snd (isCircuitOpen key now m)).
Proof.
  intros Hok. unfold isCircuitOpen.
  destruct (m !! key) as [st0 |] eqn:Hget; [| exact Hok].
  destruct (is_open (state st0) && (60000 <? now - lastFailure st0))%bool eqn:Hc;
    [| exact Hok].
  intros st. cbn. rewrite lookup_insert_eq. intros [= <-].
  destruct (Hok st0 Hget) as [Hpos Hiff].
  apply andb_prop in Hc as [Hopen _].
  destruct (state st0) eqn:Hst; try discriminate.
  split; cbn; [exact Hpos |]. split; [discriminate |].
  intros Hlt. apply Hiff in Hlt. discriminate.
Qed.

(** Every call keeps the stored circuit within [circuit_ok]. *)
Lemma retryWithCircuitBreaker_ok op key config m w :
  breaker_ok key m ->
  breaker_ok key (snd (fst (retryWithCircuitBreaker op key config m w))).
Proof.
  intros Hok. unfold retryWithCircuitBreaker.
  pose proof (isCircuitOpen_ok key (clock w) m Hok) as Hok1.
  destruct (isCircuitOpen key (clock w) m) as [isOpen m1]. cbn in Hok1.
  destruct isOpen; [exact Hok1 |].
  destruct (execute op config w) as [[ex | res] w1]; cbn.
  - now apply recordFailure_ok.
  - destruct (success res); cbn;
      [now apply recordSuccess_ok | now apply recordFailure_ok].
Qed.

(** A call made while the circuit is open and the cooldown has not gone by
    is refused on the spot: nothing is invoked and nothing changes. *)
Lemma rejected_while_open op key config m w st :
  m !! key = Some st ->
  state st = POpen ->
  clock w - lastFailure st <= 60000 ->
  retryWithCircuitBreaker op key config m w = (inl (CircuitOpen key), m, w).
Proof.
  intros Hget Hst Hcool. unfold retryWithCircuitBreaker, isCircuitOpen.
  rewrite Hget, Hst. cbn.
  destruct (Z.ltb_spec 60000 (clock w - lastFailure st)); [lia | reflexivity].
Qed.

(** Once the cooldown has gone by, the call is let through in every phase. *)
Lemma probe_after_cooldown op key config m w st :
  m !! key = Some st ->
  60000 < clock w - lastFailure st ->
  let out := retryWithCircuitBreaker op key config m w in
  (fst (fst out), snd out) = execute op config w
  /\ fst (fst out) <> inl (CircuitOpen key)
  /\ (1 <= maxAttempts (merge defaultConfig config) ->
      (calls w < calls (snd out))%nat).
Proof.
  intros Hget Hcool out.
  assert (Hthrough : fst (isCircuitOpen key (clock w) m) = false).
  { unfold isCircuitOpen. rewrite Hget.
    destruct (Z.ltb_spec 60000 (clock w - lastFailure st)); [| lia].
    now destruct (state st). }
  destruct (execute_outcome op config w) as [Hno Hcalls].
  unfold out, retryWithCircuitBreaker.
  destruct (isCircuitOpen key (clock w) m) as [isOpen m1]. cbn in Hthrough.
  subst isOpen.
  destruct (execute op config w) as [[ex | res] w1]; cbn in *.
  - repeat split; [apply Hno | exact Hcalls].
  - destruct (success res); cbn; repeat split; solve [discriminate | exact Hcalls].
Qed.

(** One more failed call moves the circuit one step towards open. *)
Lemma failing_call_progress (c : Call T) key m (n : Z) :
  0 <= n < 5 ->
  breaker_ok key m ->
  (n = 0
   \/ exists st, m !! key = Some st /\ state st <> PHalfOpen /\ n <= failures st) ->
  let out :=
    retryWithCircuitBreaker (call_op c) key (call_config c) m (call_world c) in
  call_failed (fst (fst out)) = true ->
  exists st,
    snd (fst out) !! key = Some st
    /\ state st <> PHalfOpen
    /\ n + 1 <= failures st.
Proof.
  intros Hn Hok Hprog out. unfold out, retryWithCircuitBreaker, isCircuitOpen.
  set (w := call_world c).
  assert (Hrec : forall m1 st1 now,
             m1 !! key = Some st1 ->
             circuit_ok st1 ->
             failures st1 = default 0 (failures <$> m !! key) ->
             exists st,
               recordFailure key now m1 !! key = Some st
               /\ state st <> PHalfOpen /\ n + 1 <= failures st).
  { intros m1 st1 now Hget1 [Hpos Hiff] Hsame.
    rewrite recordFailure_lookup, Hget1. cbn.
    eexists. split; [reflexivity |]. cbn.
    assert (Hle : n <= failures st1).
    { destruct Hprog as [-> | (st & Hget & _ & Hle)]; [exact Hpos |].
      rewrite Hsame, Hget. exact Hle. }
    destruct (Z.leb_spec 5 (failures st1 + 1)).
    - split; [discriminate | lia].
    - split; [| lia]. assert (Hc : state st1 = PClosed) by (apply Hiff; lia).
      rewrite Hc. discriminate. }
  destruct (m !! key) as [st0 |] eqn:Hget.
  - pose proof (Hok st0 Hget) as Hok0.
    destruct (is_open (state st0) && (60000 <? clock w - lastFailure st0))%bool eqn:Hc.
    + destruct (execute (call_op c) (call_config c) w) as [[ex | res] w1]; cbn.
      * intros _. apply (Hrec _ (mkCircuit (failures st0) (lastFailure st0) PHalfOpen)).
        -- apply lookup_insert_eq.
        -- apply andb_prop in Hc as [Hopen _].
           destruct Hok0 as [Hpos Hiff]. split; cbn; [exact Hpos |].
           split; [discriminate |]. intros Hlt. apply Hiff in Hlt.
           rewrite Hlt in Hopen. discriminate.
        -- reflexivity.
      * destruct (success res) eqn:Hs; cbn; [rewrite Hs; discriminate |].
        intros _. apply (Hrec _ (mkCircuit (failures st0) (lastFailure st0) PHalfOpen)).
        -- apply lookup_insert_eq.
        -- apply andb_prop in Hc as [Hopen _].
           destruct Hok0 as [Hpos Hiff]. split; cbn; [exact Hpos |].
           split; [discriminate |]. intros Hlt. apply Hiff in Hlt.
           rewrite Hlt in Hopen. discriminate.
        -- reflexivity.
    + destruct (is_open (state st0)) eqn:Hopen.
      * cbn. intros _. exists st0. split; [exact Hget |].
        destruct (state st0) eqn:Hst; try discriminate.
        split; [discriminate |].
        destruct Hok0 as [Hpos Hiff].
        destruct (Z.ltb_spec (failures st0) 5) as [Hlt | Hge]; [| lia].
        apply Hiff in Hlt. congruence.
      * destruct (execute (call_op c) (call_config c) w) as [[ex | res] w1]; cbn.
        -- intros _. now apply (Hrec _ st0).
        -- destruct (success res) eqn:Hs; cbn; [rewrite Hs; discriminate |].
           intros _. now apply (Hrec _ st0).
  - cbn.
    assert (Hn0 : n = 0).
    { destruct Hprog as [-> | (st & Hst & _)]; [reflexivity | discriminate]. }
    assert (Hnew : forall now, exists st,
               recordFailure key now m !! key = Some st
               /\ state st <> PHalfOpen /\ n + 1 <= failures st).
    { intros now. rewrite recordFailure_lookup, Hget. cbn.
      eexists. split; [reflexivity |]. cbn. split; [discriminate | lia]. }
    destruct (execute (call_op c) (call_config c) w) as [[ex | res] w1]; cbn.
    + intros _. apply Hnew.
    + destruct (success res) eqn:Hs; cbn; [rewrite Hs; discriminate |].
      intros _. apply Hnew.
Qed.

Lemma failing_run_progress key (cs : list (Call T)) :
  forall m (n : Z),
    0 <= n ->
    n + Z.of_nat (List.length cs) <= 5 ->
    breaker_ok key m ->
    (n = 0
     \/ exists st, m !! key = Some st /\ state st <> PHalfOpen /\ n <= failures st) ->
    forallb call_failed (fst (run_calls key cs m)) = true ->
    let m' := snd (run_calls key cs m) in
    breaker_ok key m'
    /\ (n + Z.of_nat (List.length cs) = 0
        \/ exists st,
             m' !! key = Some st /\ state st <> PHalfOpen
             /\ n + Z.of_nat (List.length cs) <= failures st).
Proof.
  induction cs as [| c cs IH]; intros m n Hn Hlen Hok Hprog Hall.
  - cbn. split; [exact Hok |].
    destruct Hprog as [-> | Hst]; [now left | right].
    now rewrite Z.add_0_r.
  - cbn [run_calls] in *.
    pose proof (failing_call_progress c key m n) as Hstep.
    pose proof (retryWithCircuitBreaker_ok (call_op c) key (call_config c) m
                  (call_world c) Hok) as Hok1.
    destruct (retryWithCircuitBreaker (call_op c) key (call_config c) m
                (call_world c)) as [[r m1] w1].
    cbn in Hstep, Hok1.
    specialize (IH m1 (n + 1)).
    destruct (run_calls key cs m1) as [rs m2]. cbn in *.
    apply andb_prop in Hall as [Hr Hrs].
    destruct IH as [Hok2 Hprog2];
      [ lia | lia | exact Hok1
      | right; apply Hstep; [lia | exact Hok | exact Hprog | exact Hr]
      | exact Hrs |].
    split; [exact Hok2 |]. right.
    destruct Hprog2 as [Hz | (st & Hget & Hst & Hle)]; [lia |].
    exists st. repeat split; [exact Hget | exact Hst | lia].
Qed.

(** A failed call on a circuit that is closed with [f] failures counted, or
    absent, is passed to [execute] and leaves the circuit with one more
    failure, stamped with the time at which the call ended, and open once
    the count reaches five. *)
Lemma failing_call_records (c : Call T) key m (f : Z) :
  0 <= f ->
  (f = 0 /\ m !! key = None
   \/ exists st, m !! key = Some st /\ state st = PClosed /\ failures st = f) ->
  let out :=
    retryWithCircuitBreaker (call_op c) key (call_config c) m (call_world c) in
  call_failed (fst (fst out)) = true ->
  (fst (fst out), snd out) = execute (call_op c) (call_config c) (call_world c)
  /\ snd (fst out) !! key
     = Some (mkCircuit (f + 1) (clock (snd out))
               (if 5 <=? f + 1 then POpen else PClosed)).
Proof.
  intros Hf Hstate out. unfold out, retryWithCircuitBreaker, isCircuitOpen.
  assert (Hrec : forall now,
             recordFailure key now m !! key
             = Some (mkCircuit (f + 1) now
                       (if 5 <=? f + 1 then POpen else PClosed))).
  { intros now. rewrite recordFailure_lookup.
    destruct Hstate as [[-> Hnone] | (st & Hget & Hst & Hcount)].
    - now rewrite Hnone.
    - rewrite Hget. cbn. now rewrite Hst, Hcount. }
  assert (Hthrough : match m !! key with
                     | Some st =>
                         if (is_open (state st)
                             && (60000 <? clock (call_world c) - lastFailure st))%bool
                         then (false,
                               <[key := mkCircuit (failures st) (lastFailure st)
                                          PHalfOpen]> m)
                         else (is_open (state st), m)
                     | None => (false, m)
                     end = (false, m)).
  { destruct Hstate as [[_ Hnone] | (st & Hget & Hst & _)].
    - now rewrite Hnone.
    - now rewrite Hget, Hst. }
  rewrite Hthrough.
  destruct (execute (call_op c) (call_config c) (call_world c)) as [[ex | res] w1];
    cbn.
  - intros _. split; [reflexivity | apply Hrec].
  - destruct (success res) eqn:Hs; cbn; [rewrite Hs; discriminate |].
    intros _. split; [reflexivity | apply Hrec].
Qed.

(** Failed calls in a row from a circuit with [f] failures counted, as long
    as the count stays within five: the circuit counts them all and carries
    the time at which the last of them ended. *)
Lemma failing_run_records key (pre : list (Call T)) (last : Call T) :
  forall m (f : Z),
    0 <= f ->
    f + Z.of_nat (List.length pre) + 1 <= 5 ->
    (f = 0 /\ m !! key = None
     \/ exists st, m !! key = Some st /\ state st = PClosed /\ failures st = f) ->
    forallb call_failed (fst (run_calls key (pre ++ [last]) m)) = true ->
    snd (run_calls key (pre ++ [last]) m) !! key
    = Some (mkCircuit (f + Z.of_nat (List.length pre) + 1)
              (clock (snd (execute (call_op last) (call_config last)
                             (call_world last))))
              (if 5 <=? f + Z.of_nat (List.length pre) + 1
               then POpen else PClosed)).
Proof.
  induction pre as [| c pre IH]; intros m f Hf Hlen Hstate Hall;
    cbn [app run_calls List.length] in *.
  - pose proof (failing_call_records last key m f Hf Hstate) as Hstep.
    destruct (retryWithCircuitBreaker (call_op last) key (call_config last) m
                (call_world last)) as [[r m1] w1].
    cbn in Hstep, Hall |- *. apply andb_prop in Hall as [Hr _].
    destruct (Hstep Hr) as [Hexec Hget]. rewrite <- Hexec. cbn.
    now rewrite Z.add_0_r.
  - pose proof (failing_call_records c key m f Hf Hstate) as Hstep.
    destruct (retryWithCircuitBreaker (call_op c) key (call_config c) m
                (call_world c)) as [[r m1] w1].
    cbn in Hstep. specialize (IH m1 (f + 1)).
    destruct (run_calls key (pre ++ [last]) m1) as [rs m2]. cbn in Hall, IH |- *.
    apply andb_prop in Hall as [Hr Hrs].
    destruct (Hstep Hr) as [_ Hget].
    rewrite IH; [| lia | lia | | exact Hrs].
    + replace (f + Z.of_nat (S (List.length pre)) + 1)
        with (f + 1 + Z.of_nat (List.length pre) + 1) by lia.
      reflexivity.
    + right. eexists. split; [exact Hget |]. cbn.
      destruct (Z.leb_spec 5 (f + 1)); [lia | now split].
Qed.

Lemma run_calls_app key (cs cs' : list (Call T)) :
  forall m,
    run_calls key (cs ++ cs') m
    = (fst (run_calls key cs m) ++ fst (run_calls key cs' (snd (run_calls key cs m))),
       snd (run_calls key cs' (snd (run_calls key cs m))))%list.
Proof.
  induction cs as [| c cs IH]; intros m; cbn [app run_calls].
  - cbn. now destruct (run_calls key cs' m).
  - destruct (retryWithCircuitBreaker (call_op c) key (call_config c) m
                (call_world c)) as [[r m1] w1].
    rewrite IH. now destruct (run_calls key cs m1).
Qed.

Lemma run_calls_length key (cs : list (Call T)) :
  forall m, List.length (fst (run_calls key cs m)) = List.length cs.
Proof.
  induction cs as [| c cs IH]; intros m; cbn [run_calls]; [reflexivity |].
  destruct (retryWithCircuitBreaker (call_op c) key (call_config c) m
              (call_world c)) as [[r m1] w1].
  specialize (IH m1). destruct (run_calls key cs m1). cbn in *. now rewrite IH.
Qed.

(** A call that the breaker refuses changes nothing; a failed call that it
    lets through stamps the circuit with the time at which the call
    ended. *)
Lemma call_stamps_last_failure (c : Call T) key m :
  let out :=
    retryWithCircuitBreaker (call_op c) key (call_config c) m (call_world c) in
  (refused key (fst (fst out)) -> snd (fst out) = m)
  /\ (~ refused key (fst (fst out)) ->
      call_failed (fst (fst out)) = true ->
      exists st, snd (fst out) !! key = Some st /\ lastFailure st = ended c).
Proof.
  intros out. unfold out, refused, ended, retryWithCircuitBreaker.
  destruct (execute_outcome (call_op c) (call_config c) (call_world c)) as [Hno _].
  assert (Hkeep : forall st,
             m !! key = Some st ->
             (is_open (state st)
              && (60000 <? clock (call_world c) - lastFailure st))%bool = false ->
             isCircuitOpen key (clock (call_world c)) m = (is_open (state st), m)).
  { intros st Hget Hc. unfold isCircuitOpen. now rewrite Hget, Hc. }
  destruct (isCircuitOpen key (clock (call_world c)) m) as [isOpen m1] eqn:Hopen.
  destruct isOpen.
  - split; [| intros H; now contradiction H]. intros _. cbn.
    unfold isCircuitOpen in Hopen. destruct (m !! key) as [st |]; [| congruence].
    destruct (is_open (state st) && _)%bool; congruence.
  - destruct (execute (call_op c) (call_config c) (call_world c)) as [[ex | res] w1];
      cbn in *.
    + split; [intros H; now apply Hno in H |].
      intros _ _. rewrite recordFailure_lookup. eexists. split; reflexivity.
    + split; [intros H; destruct (success res); discriminate |].
      destruct (success res) eqn:Hs; cbn; [rewrite Hs; discriminate |].
      intros _ _. rewrite recordFailure_lookup. eexists. split; reflexivity.
Qed.

Lemma refused_run_keeps key (cs : list (Call T)) :
  forall m,
    Forall (refused key) (fst (run_calls key cs m)) ->
    snd (run_calls key cs m) = m.
Proof.
  induction cs as [| c cs IH]; intros m Hall; cbn [run_calls] in *; [reflexivity |].
  pose proof (call_stamps_last_failure c key m) as [Hkeep _].
  destruct (retryWithCircuitBreaker (call_op c) key (call_config c) m
              (call_world c)) as [[r m1] w1].
  cbn in Hkeep. specialize (IH m1).
  destruct (run_calls key cs m1) as [rs m2]. cbn in *.
  apply List.Forall_cons_iff in Hall as [Hr Hrs].
  rewrite (IH Hrs). now apply Hkeep.
Qed.

(** After failed calls in a row, the stored last failure is the time at which
    the last call that the breaker let through ended. *)
Lemma last_failure_of_run key (before after : list (Call T)) (c : Call T) m :
  let outcomes := fst (run_calls key (before ++ c :: after) m) in
  forallb call_failed outcomes = true ->
  (forall r, nth_error outcomes (List.length before) = Some r -> ~ refused key r) ->
  Forall (refused key) (skipn (S (List.length before)) outcomes) ->
  exists st,
    snd (run_calls key (before ++ c :: after) m) !! key = Some st
    /\ lastFailure st = ended c.
Proof.
  intros outcomes. unfold outcomes. rewrite run_calls_app. cbn [fst snd].
  set (m0 := snd (run_calls key before m)).
  pose proof (run_calls_length key before m) as Hlen.
  cbn [run_calls].
  pose proof (call_stamps_last_failure c key m0) as [_ Hstamp].
  destruct (retryWithCircuitBreaker (call_op c) key (call_config c) m0
              (call_world c)) as [[r m1] w1].
  cbn in Hstamp.
  pose proof (refused_run_keeps key after m1) as Hkeep.
  destruct (run_calls key after m1) as [rs m2]. cbn [fst snd] in *.
  intros Hall Hthrough Hrefused.
  rewrite forallb_app in Hall. apply andb_prop in Hall as [_ Hall].
  cbn in Hall. apply andb_prop in Hall as [Hr _].
  rewrite List.nth_error_app2 in Hthrough by lia.
  rewrite Hlen, Nat.sub_diag in Hthrough. cbn in Hthrough.
  rewrite List.skipn_app in Hrefused.
  rewrite Hlen in Hrefused.
  replace (S (List.length before) - List.length before)%nat with 1%nat
    in Hrefused by lia.
  rewrite List.skipn_all2 in Hrefused by (rewrite Hlen; lia).
  cbn in Hrefused.
  rewrite (Hkeep Hrefused). apply Hstamp; [now apply Hthrough | exact Hr].
Qed.

End Breaker.

(** C3: after five calls in a row on a circuit key that all failed, the
    circuit of that key is open, and its last failure is the time at which
    the last of these calls that the breaker let through ended. When no
    failure was counted for the key before them (no circuit yet, or a closed
    one with a zero counter), all five are let through: the stored circuit
    counts five failures and carries the time at which the fifth call
    ended. A call made before more than 60 seconds have gone by since the
    stored last failure is refused with the circuit-open error, without
    invoking the operation and without any state change (so no attempt is
    made or recorded); and for any stored circuit, whatever its phase, a
    call made once more than 60 seconds have gone by since its last failure
    is let through to [execute], which invokes the operation. *)
Theorem circuit_opens_after_five_failures {T} (key : string)
  (pre : list (Call T)) (last : Call T) (m : gmap string CircuitState) :
  breaker_ok key m ->
  List.length pre = 4%nat ->
  forallb call_failed (fst (run_calls key (pre ++ [last]) m)) = true ->
  let outcomes := fst (run_calls key (pre ++ [last]) m) in
  let m5 := snd (run_calls key (pre ++ [last]) m) in
  exists st,
    m5 !! key = Some st
    /\ state st = POpen
    /\ (no_failure_counted key m -> st = mkCircuit 5 (ended last) POpen)
    /\ (forall before c after,
          (pre ++ [last] = before ++ c :: after)%list ->
          (forall r, nth_error outcomes (List.length before) = Some r ->
                     ~ refused key r) ->
          Forall (refused key) (skipn (S (List.length before)) outcomes) ->
          lastFailure st = ended c)
    /\ (forall (op : Operation T) config w,
          clock w - lastFailure st <= 60000 ->
          retryWithCircuitBreaker op key config m5 w
          = (inl (CircuitOpen key), m5, w))
    /\ (forall m' st' (op : Operation T) config w,
          m' !! key = Some st' ->
          60000 < clock w - lastFailure st' ->
          let out := retryWithCircuitBreaker op key config m' w in
          (fst (fst out), snd out) = execute op config w
          /\ fst (fst out) <> inl (CircuitOpen key)
          /\ (1 <= maxAttempts (merge defaultConfig config) ->
              (calls w < calls (snd out))%nat)).
Proof.
  intros Hok Hlen Hall outcomes m5.
  assert (Hlen5 : List.length (pre ++ [last]) = 5%nat)
    by (rewrite List.length_app, Hlen; reflexivity).
  destruct (failing_run_progress key (pre ++ [last]) m 0) as [Hok5 Hprog];
    [lia | rewrite Hlen5; lia | exact Hok | now left | exact Hall |].
  fold m5 in Hok5, Hprog. rewrite Hlen5 in Hprog.
  destruct Hprog as [Hz | (st & Hget & Hhalf & Hle)]; [lia |].
  assert (Hopen : state st = POpen).
  { destruct (Hok5 st Hget) as [_ Hiff].
    destruct (state st) eqn:Hst; [| reflexivity | congruence].
    assert (failures st < 5) by now apply Hiff. lia. }
  exists st. split; [exact Hget |]. split; [exact Hopen |].
  split; [| split; [| split]].
  - intros Hfresh.
    assert (Hrec := failing_run_records key pre last m 0).
    rewrite Hlen in Hrec. fold m5 in Hrec. cbn in Hrec.
    rewrite Hrec in Hget; [now injection Hget as <- | lia | lia | | exact Hall].
    destruct Hfresh as [Hnone | Hzero]; [left; now split | now right].
  - intros before c after Hsplit Hthrough Hrefused.
    unfold outcomes, m5 in *. rewrite Hsplit in *.
    destruct (last_failure_of_run key before after c m Hall Hthrough Hrefused)
      as (st' & Hget' & Hlast).
    rewrite Hget in Hget'. now injection Hget' as <-.
  - intros op config w Hcool. now apply (rejected_while_open op key config m5 w st).
  - intros m' st' op config w Hget' Hcool.
    now apply (probe_after_cooldown op key config m' w st').
Qed.

Lemma circuit_opens_after_five_failures_witness :
  let op : Operation string := fun _ => (Rejected (mkError (Some 400) None), 10) in
  let call t := mkCall op None (mkWorld t 0 []) in
  let m5 := snd (run_calls "llm" (map call [0; 100; 200; 300] ++ [call 400]) ∅) in
  m5 !! "llm" = Some (mkCircuit 5 410 POpen)
  /\ retryWithCircuitBreaker op "llm" None m5 (mkWorld 60410 0 [])
     = (inl (CircuitOpen "llm"), m5, mkWorld 60410 0 [])
  /\ fst (fst (retryWithCircuitBreaker op "llm" None m5 (mkWorld 60411 0 [])))
     <> inl (CircuitOpen "llm").
Proof.
  intros op call m5.
  assert (Hok : breaker_ok "llm" (∅ : gmap string CircuitState)).
  { intros st Hst. rewrite lookup_empty in Hst. discriminate. }
  assert (Hfresh : no_failure_counted "llm" (∅ : gmap string CircuitState))
    by (left; apply lookup_empty).
  assert (Hall : forallb call_failed
                   (fst (run_calls "llm" (map call [0; 100; 200; 300] ++ [call 400])
                           ∅)) = true)
    by (vm_compute; reflexivity).
  destruct (circuit_opens_after_five_failures "llm" (map call [0; 100; 200; 300])
              (call 400) ∅ Hok eq_refl Hall)
    as (st & Hget & _ & Hst & _ & Hrej & Hprobe).
  fold m5 in Hget, Hrej.
  assert (Hst5 : st = mkCircuit 5 410 POpen) by (rewrite (Hst Hfresh); reflexivity).
  subst st. split; [exact Hget |]. split.
  - apply Hrej. cbn. lia.
  - apply (Hprobe m5 _ op None (mkWorld 60411 0 []) Hget). cbn. lia.
Defined.

End RetryFacts.

(** ** PerformanceMonitor *)

Module MonitorFacts.
Import Monitor JsFacts JsMore.

Lemma filter_filter {A} (f g : A -> bool) (l : list A) :
  List.filter g (List.filter f l) = List.filter (fun x => (f x && g x)%bool) l.
Proof.
  induction l as [| x r IH]; cbn; [reflexivity |].
  destruct (f x); cbn; [destruct (g x) |]; now rewrite IH.
Qed.


(** *** The by-severity table *)

Section Tally.
Context {A : Type}.
Variable key_of : A -> string.

(** After tallying [l] into [obj], an entry exists for [k] exactly when it
    existed before or some element of [l] has key [k], and then it holds the
    earlier count plus the number of such elements. *)
Lemma tally_lookup (l : list A) (obj : gmap string Z) (k : string) :
  fold_left (fun obj e => bump (key_of e) obj) l obj !! k
  = match List.filter (fun e => String.eqb (key_of e) k) l with
    | [] => obj !! k
    | hits => Some (default 0 (obj !! k) + Z.of_nat (List.length hits))
    end.
Proof.
  revert obj. induction l as [| e r IH]; intros obj; cbn; [reflexivity |].
  rewrite IH. unfold bump.
  destruct (String.eqb_spec (key_of e) k) as [-> | Hne].
  - rewrite lookup_insert_eq. cbn [default].
    destruct (List.filter _ r) as [| h hs]; cbn [List.length];
      apply (f_equal Some); unfold id; lia.
  - now rewrite lookup_insert_ne.
Qed.

End Tally.

(** What [errorsBySeverity] holds for a severity: nothing at all when the
    window has no error of that severity, the count otherwise. *)
Lemma errorsBySeverity_lookup (s : Severity) (timeRange now : Z)
  (mon : PerformanceMonitor) :
  errorsBySeverity (getErrorStats timeRange now mon) !! severity_name s
  = if severity_count s timeRange now mon =? 0 then None
    else Some (severity_count s timeRange now mon).
Proof.
  unfold getErrorStats, severity_count. cbn [errorsBySeverity].
  rewrite (tally_lookup (fun e => severity_name (ErrorLog.severity e))).
  rewrite filter_filter, lookup_empty.
  destruct (List.filter _ (errors mon)) as [| h hs]; cbn [List.length].
  - reflexivity.
  - cbn [default]. destruct (Z.eqb_spec (Z.of_nat (S (List.length hs))) 0); [lia |].
    f_equal.
Qed.

(** C1: when the trailing 24-hour window holds no critical-severity error,
    or no high-severity error, the [healthScore] that [generateReport]
    returns is NaN, not a number in [0,100]: the by-severity table has no
    entry for a severity that did not occur, and the missing entry enters
    the arithmetic as [undefined]. *)
Theorem health_score_nan_without_critical_or_high (now : Z)
  (mon : PerformanceMonitor) :
  severity_count critical day_ms now mon = 0
  \/ severity_count high day_ms now mon = 0 ->
  Report.healthScore (generateReport now mon) = Js.NaN.
Proof.
  intros Hzero. unfold generateReport. cbn [Report.healthScore]. unfold health.
  pose proof (errorsBySeverity_lookup critical day_ms now mon) as Hc.
  pose proof (errorsBySeverity_lookup high day_ms now mon) as Hh.
  cbn [severity_name] in Hc, Hh. rewrite Hc, Hh.
  destruct Hzero as [-> | ->]; cbn [Z.eqb Js.to_number Js.jmul].
  - now destruct (severity_count high day_ms now mon =? 0).
  - now destruct (severity_count critical day_ms now mon =? 0).
Qed.

Lemma health_score_nan_without_critical_or_high_witness :
  severity_count critical day_ms 1000 empty = 0
  /\ Report.healthScore (generateReport 1000 empty) = Js.NaN.
Proof.
  assert (H : severity_count critical day_ms 1000 empty = 0) by reflexivity.
  split; [exact H |].
  apply health_score_nan_without_critical_or_high. left. exact H.
Defined.

(** X28: When the window holds at least one critical and one high error, the
    score is the clamped formula, hence within [0,100]. *)
Lemma health_score_formula (now : Z) (mon : PerformanceMonitor) :
  0 < severity_count critical day_ms now mon ->
  0 < severity_count high day_ms now mon ->
  exists q,
    Report.healthScore (generateReport now mon) = Js.Fin q
    /\ (q == health_formula
              (successRate (getPerformanceStats day_ms now mon))
              (averageResponseTime (getPerformanceStats day_ms now mon))
              (severity_count critical day_ms now mon)
              (severity_count high day_ms now mon))%Q
    /\ (0 <= q <= 100)%Q.
Proof.
  intros Hc Hh. unfold generateReport. cbn [Report.healthScore]. unfold health.
  rewrite (errorsBySeverity_lookup critical day_ms now mon : _ !! "critical" = _).
  rewrite (errorsBySeverity_lookup high day_ms now mon : _ !! "high" = _).
  destruct (Z.eqb_spec (severity_count critical day_ms now mon) 0); [lia |].
  destruct (Z.eqb_spec (severity_count high day_ms now mon) 0); [lia |].
  cbn [Js.to_number Js.jmul Js.jsub Js.jmax Js.jmin].
  eexists. split; [reflexivity |].
  unfold health_formula.
  generalize (successRate (getPerformanceStats day_ms now mon)) as sr.
  generalize (averageResponseTime (getPerformanceStats day_ms now mon)) as avg.
  generalize (inject_Z (severity_count critical day_ms now mon)) as c.
  generalize (inject_Z (severity_count high day_ms now mon)) as h.
  intros h c avg sr. split.
  - qle_cases; lra.
  - qle_cases; lra.
Qed.

(** *** The per-operation running average *)


















End MonitorFacts.

(** * Further properties *)

(** ** CacheManager: reads, removal, listing, export and import *)

Module CacheMore.
Import Cache JsFacts CacheFacts JsMore.

Lemma keys_map_set_present {V} (m : JsMap V) k v old :
  map_get k m = Some old -> keys (map_set k v m) = keys m.
Proof. intros H. now rewrite keys_map_set, H. Qed.

(** X1: [get] on a stored, unexpired key returns its value and touches nothing
    but that entry's access count and last-access time and the hit counter;
    the iteration order of the map is kept. *)
Theorem get_hit_touches_only_access_metadata {T} (c : CacheManager T) (key : string)
  (item : CacheItem T) (now : Z) :
  map_get key (cache c) = Some item ->
  expired now item = false ->
  let r := get key now c in
  fst r = Some (value item)
  /\ map_get key (cache (snd r))
     = Some (mkItem (value item) (timestamp item) (ttl item)
               (accessCount item + 1) now)
  /\ (forall k', k' <> key ->
        map_get k' (cache (snd r)) = map_get k' (cache c))
  /\ keys (cache (snd r)) = keys (cache c)
  /\ hits (snd r) = hits c + 1
  /\ misses (snd r) = misses c.
Proof.
  intros Hget Hlive r. unfold r, get. rewrite Hget, Hlive. cbn.
  split; [reflexivity |]. split; [apply map_get_set_eq |].
  split; [intros k' Hne; apply map_get_set_ne; congruence |].
  split; [now apply (keys_map_set_present _ _ _ item) | split; reflexivity].
Qed.

Lemma get_hit_touches_only_access_metadata_witness :
  let c := mkCache [("a", mkItem 7 100 50 3 140); ("b", mkItem 8 100 50 0 100)]
             10 1000 3 0 in
  expired 150 (mkItem 7 100 50 3 140) = false
  /\ fst (get "a" 150 c) = Some 7
  /\ map_get "a" (cache (snd (get "a" 150 c))) = Some (mkItem 7 100 50 4 150).
Proof.
  intros c.
  assert (Hget : map_get "a" (cache c) = Some (mkItem 7 100 50 3 140))
    by reflexivity.
  assert (Hlive : expired 150 (mkItem 7 100 50 3 140) = false) by reflexivity.
  destruct (get_hit_touches_only_access_metadata c "a" _ 150 Hget Hlive)
    as (Hv & Hitem & _).
  split; [exact Hlive |]. split; [exact Hv | exact Hitem].
Defined.

(** X2: [has] answers as [get] would and performs the same lazy removal of an
    expired entry, but leaves the counters alone and, for a live key, the
    whole cache (no access count, no last-access time is updated). *)
Theorem has_is_get_without_bookkeeping {T} (c : CacheManager T) (key : string)
  (now : Z) :
  let h := has key now c in
  let g := get key now c in
  fst h = match fst g with Some _ => true | None => false end
  /\ hits (snd h) = hits c
  /\ misses (snd h) = misses c
  /\ (if fst h then snd h = c else cache (snd h) = cache (snd g)).
Proof.
  unfold has, get.
  destruct (map_get key (cache c)) as [item |]; [| now repeat split].
  destruct (expired now item); cbn; now repeat split.
Qed.

(** X3: [delete] reports whether the key was stored, removes that entry and no
    other, and leaves the counters alone. *)
Theorem delete_removes_only_the_key {T} (c : CacheManager T) (key : string) :
  wf_map (cache c) ->
  let r := delete key c in
  fst r = match map_get key (cache c) with Some _ => true | None => false end
  /\ map_get key (cache (snd r)) = None
  /\ (forall k', k' <> key ->
        map_get k' (cache (snd r)) = map_get k' (cache c))
  /\ size (snd r) = size c - (if fst r then 1 else 0)
  /\ hits (snd r) = hits c
  /\ misses (snd r) = misses c.
Proof.
  intros Hwf r. unfold r, delete.
  destruct (map_get key (cache c)) as [item |] eqn:Hget; cbn.
  - split; [reflexivity |]. split; [now apply map_get_delete_eq |].
    split; [intros k' Hne; apply map_get_delete_ne; congruence |].
    split; [| split; reflexivity].
    unfold size. cbn. rewrite length_map_delete, Hget.
    apply map_get_In in Hget. destruct (cache c); [destruct Hget | cbn; lia].
  - split; [reflexivity |]. split; [exact Hget |].
    split; [reflexivity |]. split; [lia | split; reflexivity].
Qed.

Lemma delete_removes_only_the_key_witness :
  let c := mkCache [("a", mkItem 7 100 50 3 140); ("b", mkItem 8 100 50 0 100)]
             10 1000 3 0 in
  wf_map (cache c)
  /\ fst (delete "a" c) = true
  /\ map_get "a" (cache (snd (delete "a" c))) = None
  /\ size (snd (delete "a" c)) = 1.
Proof.
  intros c.
  assert (Hwf : wf_map (cache c)).
  { repeat constructor; cbn; intuition discriminate. }
  destruct (delete_removes_only_the_key c "a" Hwf) as (Hr & Hgone & _ & Hsize & _).
  split; [exact Hwf |]. split; [exact Hr |]. split; [exact Hgone |].
  rewrite Hsize, Hr. reflexivity.
Defined.

(** *** The periodic sweep *)

Lemma map_delete_filter {V} (m : JsMap V) (k : string) :
  wf_map m ->
  map_delete k m = List.filter (fun e => negb (String.eqb k (fst e))) m.
Proof.
  unfold wf_map. induction m as [| [k' v'] r IH]; cbn; [reflexivity |].
  intros Hnd. apply List.NoDup_cons_iff in Hnd as [Hnotin Hnd].
  destruct (String.eqb_spec k k') as [Heq | Hne]; cbn.
  - symmetry. apply List.forallb_filter_id. apply List.forallb_forall.
    intros [k0 v0] Hin. cbn.
    destruct (String.eqb_spec k k0) as [Heq0 | Hne0]; [| reflexivity].
    exfalso. apply Hnotin. rewrite <- Heq, Heq0.
    change k0 with (fst (k0, v0)). now apply List.in_map.
  - now rewrite IH.
Qed.

Lemma wf_map_filter {V} (f : string * V -> bool) (m : JsMap V) :
  wf_map m -> wf_map (List.filter f m).
Proof.
  unfold wf_map. induction m as [| e r IH]; cbn; [trivial |].
  intros Hnd. apply List.NoDup_cons_iff in Hnd as [Hnotin Hnd].
  destruct (f e); [| now apply IH]. cbn. constructor; [| now apply IH].
  intros Hin. apply Hnotin. unfold keys in *.
  apply List.in_map_iff in Hin as (e' & Heq & Hin).
  apply List.filter_In in Hin as [Hin _].
  rewrite <- Heq. now apply List.in_map.
Qed.

Lemma fold_delete_filter {V} (ks : list string) (m : JsMap V) :
  wf_map m ->
  fold_left (fun m k => map_delete k m) ks m
  = List.filter (fun e => negb (existsb (fun k => String.eqb k (fst e)) ks)) m.
Proof.
  revert m. induction ks as [| k ks IH]; intros m Hwf; cbn.
  - symmetry. apply List.forallb_filter_id. now apply List.forallb_forall.
  - rewrite IH by now apply wf_map_delete.
    rewrite map_delete_filter by exact Hwf.
    rewrite MonitorFacts.filter_filter. apply List.filter_ext.
    intros e. now rewrite negb_orb.
Qed.

(** X4: [cleanup] deletes exactly the expired entries: what is left is the
    stored sequence without them, in the same order, with the counters as
    they were; and a [get] answers the same before and after a sweep made
    at the same time. *)
Theorem cleanup_removes_exactly_expired {T} (c : CacheManager T) (now : Z) :
  wf_map (cache c) ->
  cache (cleanup now c) = List.filter (live now) (cache c)
  /\ hits (cleanup now c) = hits c
  /\ misses (cleanup now c) = misses c
  /\ forall key, fst (get key now (cleanup now c)) = fst (get key now c).
Proof.
  intros Hwf.
  assert (Hcache : cache (cleanup now c) = List.filter (live now) (cache c)).
  { unfold cleanup. cbn. rewrite fold_delete_filter by exact Hwf.
    apply List.filter_ext_in. intros [k item] Hin. unfold live. cbn. f_equal.
    destruct (expired now item) eqn:Hexp.
    - apply List.existsb_exists. exists k. split; [| apply String.eqb_refl].
      change k with (fst (k, item)). apply List.in_map.
      apply List.filter_In. now split.
    - apply not_true_is_false. intros Hex.
      apply List.existsb_exists in Hex as (k' & Hin' & Heq).
      apply String.eqb_eq in Heq. cbn in Heq. subst k'.
      apply List.in_map_iff in Hin' as ([k' item'] & Hk & Hin').
      apply List.filter_In in Hin' as [Hin' Hexp']. cbn in Hk, Hexp'. subst k'.
      assert (item' = item).
      { apply (In_map_get _ _ _ Hwf) in Hin, Hin'. congruence. }
      congruence. }
  split; [exact Hcache |]. split; [reflexivity |]. split; [reflexivity |].
  intros key. unfold get. rewrite Hcache.
  destruct (map_get key (cache c)) as [item |] eqn:Hget.
  - destruct (expired now item) eqn:Hexp.
    + assert (Hnone : map_get key (List.filter (live now) (cache c)) = None).
      { apply map_get_None. intros Hin. apply keys_In in Hin as (item' & Hin).
        apply List.filter_In in Hin as [Hin Hl].
        apply (In_map_get _ _ _ Hwf) in Hin. unfold live in Hl. cbn in Hl.
        assert (item' = item) by congruence. subst. now rewrite Hexp in Hl. }
      now rewrite Hnone.
    + assert (Hsome : map_get key (List.filter (live now) (cache c)) = Some item).
      { apply In_map_get; [now apply wf_map_filter |].
        apply List.filter_In. split; [now apply map_get_In |].
        unfold live. cbn. now rewrite Hexp. }
      now rewrite Hsome, Hexp.
  - assert (Hnone : map_get key (List.filter (live now) (cache c)) = None).
    { apply map_get_None. intros Hin. apply keys_In in Hin as (item' & Hin).
      apply List.filter_In in Hin as [Hin _].
      apply (In_map_get _ _ _ Hwf) in Hin. congruence. }
    now rewrite Hnone.
Qed.

Lemma cleanup_removes_exactly_expired_witness :
  let c := mkCache [("a", mkItem 7 100 50 3 140); ("b", mkItem 8 120 50 0 120)]
             10 1000 3 0 in
  wf_map (cache c)
  /\ cache (cleanup 160 c) = [("b", mkItem 8 120 50 0 120)].
Proof.
  intros c.
  assert (Hwf : wf_map (cache c)).
  { repeat constructor; cbn; intuition discriminate. }
  split; [exact Hwf |].
  rewrite (proj1 (cleanup_removes_exactly_expired c 160 Hwf)). reflexivity.
Defined.

(** *** Hit and miss accounting *)

Lemma step_counters {T} (c : CacheManager T) (o : Op T) :
  is_clear o = false ->
  hits (step c o) + misses (step c o)
  = hits c + misses c + (if is_get o then 1 else 0)
  /\ hits c <= hits (step c o)
  /\ misses c <= misses (step c o).
Proof.
  intros Hclear. destruct o as [k v t now | k now | k now | k | | now]; cbn;
    try discriminate; try (repeat split; lia).
  - unfold get. destruct (map_get k (cache c)) as [item |]; cbn; [| lia].
    destruct (expired now item); cbn; lia.
  - unfold has. destruct (map_get k (cache c)) as [item |]; cbn; [| lia].
    destruct (expired now item); cbn; lia.
  - unfold delete. destruct (map_get k (cache c)); cbn; lia.
Qed.

(** X5: Along a history without [clear], every [get] adds exactly one to the
    sum of the hit and miss counters and nothing else changes them; neither
    counter ever decreases. *)
Theorem counters_advance_once_per_get {T} (ops : list (Op T))
  (c : CacheManager T) :
  forallb (fun o => negb (is_clear o)) ops = true ->
  hits (run ops c) + misses (run ops c)
  = hits c + misses c + Z.of_nat (List.length (List.filter is_get ops))
  /\ hits c <= hits (run ops c)
  /\ misses c <= misses (run ops c).
Proof.
  unfold run. revert c. induction ops as [| o ops IH]; intros c Hall; cbn.
  - lia.
  - cbn in Hall. apply andb_prop in Hall as [Ho Hall].
    apply negb_true_iff in Ho.
    destruct (step_counters c o Ho) as (Hsum & Hh & Hm).
    destruct (IH (step c o) Hall) as (Hsum' & Hh' & Hm').
    destruct (is_get o); cbn [List.length]; lia.
Qed.

Lemma counters_advance_once_per_get_witness :
  let ops := [OSet "a" 1 None 10; OGet "a" 20; OGet "b" 30; OHas "a" 40] in
  forallb (fun o : Op Z => negb (is_clear o)) ops = true
  /\ hits (run ops (new 5 1000)) + misses (run ops (new 5 1000)) = 2.
Proof.
  intros ops.
  assert (Hall : forallb (fun o : Op Z => negb (is_clear o)) ops = true)
    by reflexivity.
  split; [exact Hall |].
  rewrite (proj1 (counters_advance_once_per_get ops (new 5 1000) Hall)).
  reflexivity.
Defined.

Lemma step_counters_nonneg {T} (c : CacheManager T) (o : Op T) :
  0 <= hits c -> 0 <= misses c ->
  0 <= hits (step c o) /\ 0 <= misses (step c o).
Proof.
  intros Hh Hm. destruct (is_clear o) eqn:Hclear.
  - destruct o; try discriminate. cbn. lia.
  - destruct (step_counters c o Hclear) as (_ & Hh' & Hm'). lia.
Qed.

Lemma run_counters_nonneg {T} (ops : list (Op T)) (c : CacheManager T) :
  0 <= hits c -> 0 <= misses c ->
  0 <= hits (run ops c) /\ 0 <= misses (run ops c).
Proof.
  unfold run. revert c. induction ops as [| o ops IH]; intros c Hh Hm; cbn.
  - lia.
  - destruct (step_counters_nonneg c o Hh Hm). now apply IH.
Qed.

Lemma rate_bounds (part other : Z) :
  0 <= part -> 0 <= other ->
  (0 <= rate part (part + other) <= 100)%Q
  /\ (part = 0 -> (rate part (part + other) == 0)%Q)
  /\ (0 < part -> other = 0 -> (rate part (part + other) == 100)%Q)
  /\ (part <= other ->
      (rate part (part + other) <= rate other (part + other))%Q).
Proof.
  intros Hp Ho. unfold rate.
  destruct (Z.ltb_spec 0 (part + other)) as [Hpos | Hzero].
  - rewrite inject_Z_plus.
    assert (Hp' : (0 <= inject_Z part)%Q) by (unfold Qle; cbn; lia).
    assert (Ho' : (0 <= inject_Z other)%Q) by (unfold Qle; cbn; lia).
    assert (Ht' : (0 < inject_Z part + inject_Z other)%Q).
    { rewrite <- inject_Z_plus. unfold Qlt. cbn. lia. }
    assert (Hle : part <= other -> (inject_Z part <= inject_Z other)%Q)
      by (intros H; unfold Qle; cbn; lia).
    assert (Hpz : part = 0 -> (inject_Z part == 0)%Q) by (now intros ->).
    assert (Hoz : other = 0 -> (inject_Z other == 0)%Q) by (now intros ->).
    generalize dependent (inject_Z part). generalize dependent (inject_Z other).
    intros y Hy Hoz x Hx Ht Hle Hpz.
    assert (Hne : ~ (x + y == 0)%Q) by lra.
    assert (Hinv : (0 < / (x + y))%Q) by now apply Qinv_lt_0_compat.
    unfold Qdiv. split; [| split; [| split]].
    + split; [nra |].
      assert (Hone : ((x + y) * / (x + y) == 1)%Q) by now apply Qmult_inv_r.
      nra.
    + intros Hz. rewrite (Hpz Hz). ring.
    + intros _ Hz. pose proof (Hoz Hz) as Hy0. rewrite Hy0. field. lra.
    + intros Hxy. specialize (Hle Hxy). nra.
  - assert (part = 0) by lia. assert (other = 0) by lia. subst.
    cbn. repeat split; try discriminate; try reflexivity; lia.
Qed.

(** X6: for a cache used from its creation on, whatever the history: the
    counters are never negative; both rates lie within 0 and 100; a rate is
    0 when its counter is 0, in particular when no [get] was made since the
    creation or the last [clear]; [hitRate] is 100 when there are hits and no
    miss, and [missRate] is 100 when there are misses and no hit; and the
    rates compare as the counters do. (The rates are [hits / total * 100]
    and [misses / total * 100]; these bounds and special values also hold
    of the rounded binary64 results.) *)
Theorem hit_rate_accounting {T} (stringify : T -> string) (ops : list (Op T))
  (max d : Z) :
  let s := getStats stringify (run ops (new max d)) in
  0 <= totalHits s
  /\ 0 <= totalMisses s
  /\ (0 <= hitRate s <= 100)%Q
  /\ (0 <= missRate s <= 100)%Q
  /\ (totalHits s = 0 -> (hitRate s == 0)%Q)
  /\ (totalMisses s = 0 -> (missRate s == 0)%Q)
  /\ (0 < totalHits s -> totalMisses s = 0 -> (hitRate s == 100)%Q)
  /\ (0 < totalMisses s -> totalHits s = 0 -> (missRate s == 100)%Q)
  /\ (totalHits s <= totalMisses s -> (hitRate s <= missRate s)%Q).
Proof.
  intros s.
  destruct (run_counters_nonneg ops (new max d)) as [Hh Hm]; [cbn; lia | cbn; lia |].
  unfold s, getStats. cbn [totalHits totalMisses hitRate missRate].
  set (h := hits (run ops (new max d))) in *.
  set (m := misses (run ops (new max d))) in *.
  destruct (rate_bounds h m Hh Hm) as (Hhb & Hhz & Hhfull & Hhle).
  destruct (rate_bounds m h Hm Hh) as (Hmb & Hmz & Hmfull & _).
  rewrite (Z.add_comm m h) in Hmb, Hmz, Hmfull.
  repeat split; solve [assumption | apply Hhb | apply Hmb].
Qed.

(** *** The most used keys *)

(** X7: [getMostUsed] lists keys by decreasing access count; with a limit that
    is not negative it lists [min(limit, size)] of them; and the listed keys
    are the most used ones: together with the unlisted ones they are exactly
    the stored keys, and no unlisted key has a higher count than a listed
    one. *)
Theorem getMostUsed_lists_the_top {T} (limit : option Z) (c : CacheManager T) :
  let listed := getMostUsed limit c in
  StronglySorted more_used listed
  /\ (0 <= default 10 limit ->
      Z.of_nat (List.length listed) = Z.min (default 10 limit) (size c))
  /\ exists rest,
       Permutation (map (fun e => (fst e, accessCount (snd e))) (cache c))
         (listed ++ rest)
       /\ forall a b, List.In a listed -> List.In b rest -> more_used a b.
Proof.
  intros listed. unfold listed, getMostUsed.
  set (pairs := map (fun e => (fst e, accessCount (snd e))) (cache c)).
  set (sorted := Js.sort_by (fun a b : string * Z => 0 <? snd b - snd a) pairs).
  assert (Hsorted : StronglySorted more_used sorted).
  { apply sort_by_sorted; unfold more_used.
    - intros x y Hxy. apply Z.ltb_lt in Hxy. lia.
    - intros x y Hxy. apply Z.ltb_ge in Hxy. lia.
    - intros x y z Hxy Hyz. lia. }
  destruct (slice0_prefix (default 10 limit) sorted) as (k & Heq & Hlen).
  rewrite Heq in *.
  destruct (sorted_split more_used k sorted Hsorted) as [Hfirst Htop].
  split; [exact Hfirst |]. split.
  - intros Hpos. rewrite (Hlen Hpos). unfold sorted, size, pairs.
    now rewrite <- (Permutation_length (sort_by_perm _ _)), List.length_map.
  - exists (skipn k sorted). split; [| exact Htop].
    rewrite List.firstn_skipn. apply sort_by_perm.
Qed.

(** *** Export and import *)

Lemma export_fold_lookup {T} (m : JsMap (CacheItem T))
  (d : gmap string (Exported.t T)) (k : string) :
  wf_map m ->
  fold_left (fun data e => Js.assign (fst e) (exported (snd e)) data) m d !! k
  = match map_get k m with
    | Some item => if String.eqb k "__proto__" then d !! k else Some (exported item)
    | None => d !! k
    end.
Proof.
  unfold wf_map. revert d. induction m as [| [k' v'] r IH]; intros d Hnd;
    cbn in Hnd |- *.
  - reflexivity.
  - apply List.NoDup_cons_iff in Hnd as [Hnotin Hnd]. rewrite (IH _ Hnd).
    rewrite assign_lookup.
    destruct (String.eqb_spec k k') as [-> | Hne]; cbn.
    + apply map_get_None in Hnotin. rewrite Hnotin.
      now destruct (String.eqb k' "__proto__").
    + destruct (map_get k r); [| reflexivity].
      now destruct (String.eqb k "__proto__").
Qed.

Lemma export_lookup {T} (c : CacheManager T) (k : string) :
  wf_map (cache c) ->
  export c !! k
  = if String.eqb k "__proto__" then None else exported <$> map_get k (cache c).
Proof.
  intros Hwf. unfold export. rewrite export_fold_lookup by exact Hwf.
  rewrite lookup_empty.
  destruct (map_get k (cache c)); now destruct (String.eqb k "__proto__").
Qed.

Lemma import_fold_lookup {T} (now : Z) (l : JsMap (Exported.t T))
  (m : JsMap (CacheItem T)) (k : string) :
  wf_map l ->
  map_get k (fold_left (import_entry now) l m)
  = match map_get k l with
    | Some x =>
        if now - Exported.timestamp x <? Exported.ttl x
        then Some (mkItem (Exported.value x) (Exported.timestamp x)
                     (Exported.ttl x) (Exported.accessCount x) now)
        else map_get k m
    | None => map_get k m
    end.
Proof.
  unfold wf_map. revert m. induction l as [| [k' x] r IH]; intros m Hnd;
    cbn in Hnd |- *.
  - reflexivity.
  - apply List.NoDup_cons_iff in Hnd as [Hnotin Hnd]. rewrite (IH _ Hnd).
    unfold import_entry. cbn [fst snd].
    destruct (String.eqb_spec k k') as [-> | Hne].
    + apply map_get_None in Hnotin. rewrite Hnotin.
      destruct (now - Exported.timestamp x <? Exported.ttl x);
        [apply map_get_set_eq | reflexivity].
    + destruct (map_get k r) as [y |].
      * destruct (now - Exported.timestamp y <? Exported.ttl y); [reflexivity |].
        destruct (now - Exported.timestamp x <? Exported.ttl x);
          [apply map_get_set_ne; congruence | reflexivity].
      * destruct (now - Exported.timestamp x <? Exported.ttl x);
          [apply map_get_set_ne; congruence | reflexivity].
Qed.

Lemma import_fold_wf {T} (now : Z) (l : JsMap (Exported.t T))
  (m : JsMap (CacheItem T)) :
  wf_map m -> wf_map (fold_left (import_entry now) l m).
Proof.
  revert m. induction l as [| e r IH]; intros m Hwf; cbn; [exact Hwf |].
  apply IH. unfold import_entry.
  destruct (_ <? _); [now apply wf_map_set | exact Hwf].
Qed.

(** The entries of a plain object, as an association list. *)
Lemma map_to_list_get {V} (data : gmap string V) (k : string) :
  wf_map (map_to_list data) /\ map_get k (map_to_list data) = data !! k.
Proof.
  assert (Hwf : wf_map (map_to_list data)).
  { unfold wf_map, keys. apply NoDup_ListNoDup.
    exact (NoDup_fst_map_to_list data). }
  split; [exact Hwf |].
  destruct (data !! k) as [v |] eqn:Hk.
  - apply In_map_get; [exact Hwf |].
    apply list_elem_of_In, elem_of_map_to_list. exact Hk.
  - destruct (map_get k (map_to_list data)) as [v |] eqn:Hget; [| reflexivity].
    apply map_get_In, list_elem_of_In, elem_of_map_to_list in Hget. congruence.
Qed.

(** What [import] stores under a key, for any object it is given. *)
Lemma import_lookup {T} (data : gmap string (Exported.t T)) (now : Z)
  (c : CacheManager T) (k : string) :
  map_get k (cache (import data now c))
  = match data !! k with
    | Some x =>
        if now - Exported.timestamp x <? Exported.ttl x
        then Some (mkItem (Exported.value x) (Exported.timestamp x)
                     (Exported.ttl x) (Exported.accessCount x) now)
        else map_get k (cache c)
    | None => map_get k (cache c)
    end.
Proof.
  destruct (map_to_list_get data k) as [Hwf Hget].
  unfold import. cbn [cache with_cache].
  now rewrite import_fold_lookup, Hget.
Qed.

Lemma import_export_lookup {T} (c target : CacheManager T) (now : Z)
  (key : string) :
  wf_map (cache c) ->
  map_get key (cache (import (export c) now target))
  = match map_get key (cache c) with
    | Some item =>
        if (negb (String.eqb key "__proto__")
            && (now - timestamp item <? ttl item))%bool
        then Some (mkItem (value item) (timestamp item) (ttl item)
                     (accessCount item) now)
        else map_get key (cache target)
    | None => map_get key (cache target)
    end.
Proof.
  intros Hwf. rewrite import_lookup, export_lookup by exact Hwf.
  destruct (String.eqb key "__proto__"); cbn;
    now destruct (map_get key (cache c)).
Qed.

(** X8: exporting a cache and importing the result into another one at time
    [now]: under each key of the source other than [__proto__] whose entry is
    younger than its TTL the target then holds that entry with value,
    creation time, TTL and access count as exported and [now] as last
    access; every other key of the target is as before. An entry stored
    under the key [__proto__] does not make the trip: in the object that
    [export] builds, the assignment under that key sets the prototype and
    adds no property. The target's counters and capacity are untouched. *)
Theorem import_export_round_trip {T} (c target : CacheManager T) (now : Z)
  (key : string) :
  wf_map (cache c) ->
  let c' := import (export c) now target in
  (key <> "__proto__" ->
   map_get key (cache c')
   = match map_get key (cache c) with
     | Some item =>
         if now - timestamp item <? ttl item
         then Some (mkItem (value item) (timestamp item) (ttl item)
                      (accessCount item) now)
         else map_get key (cache target)
     | None => map_get key (cache target)
     end)
  /\ map_get "__proto__" (cache c') = map_get "__proto__" (cache target)
  /\ hits c' = hits target
  /\ misses c' = misses target
  /\ maxSize c' = maxSize target.
Proof.
  intros Hwf c'. split; [| split; [| now repeat split]].
  - intros Hne. unfold c'. rewrite import_export_lookup by exact Hwf.
    apply String.eqb_neq in Hne. now rewrite Hne.
  - unfold c'. rewrite import_export_lookup by exact Hwf.
    now destruct (map_get "__proto__" (cache c)).
Qed.

Lemma import_export_round_trip_witness :
  let c := mkCache [("a", mkItem 7 100 50 3 140); ("b", mkItem 8 100 90 1 120);
                    ("__proto__", mkItem 9 100 90 0 100)]
             10 1000 3 1 in
  wf_map (cache c)
  /\ map_get "b" (cache (import (export c) 160 (new 5 1000)))
     = Some (mkItem 8 100 90 1 160)
  /\ map_get "a" (cache (import (export c) 160 (new 5 1000))) = None
  /\ map_get "__proto__" (cache (import (export c) 160 (new 5 1000))) = None.
Proof.
  intros c.
  assert (Hwf : wf_map (cache c)).
  { repeat constructor; cbn; intuition discriminate. }
  split; [exact Hwf |].
  destruct (import_export_round_trip c (new 5 1000) 160 "b" Hwf)
    as (Hb & Hp & _).
  destruct (import_export_round_trip c (new 5 1000) 160 "a" Hwf)
    as (Ha & _).
  split; [| split].
  - rewrite Hb by discriminate. reflexivity.
  - rewrite Ha by discriminate. reflexivity.
  - rewrite Hp. reflexivity.
Defined.

(** X9: The two expiry tests differ at the boundary: an entry whose age is
    exactly its TTL is still served by [get], but an [export] followed by an
    [import] at that same time drops it. *)
Theorem import_drops_what_get_still_serves {T} (c : CacheManager T)
  (key : string) (item : CacheItem T) (now max d : Z) :
  wf_map (cache c) ->
  map_get key (cache c) = Some item ->
  now - timestamp item = ttl item ->
  fst (get key now c) = Some (value item)
  /\ map_get key (cache (import (export c) now (new max d))) = None.
Proof.
  intros Hwf Hget Hage. split.
  - unfold get, expired. rewrite Hget, Hage.
    now rewrite Z.ltb_irrefl.
  - rewrite import_export_lookup by exact Hwf.
    rewrite Hget, Hage, Z.ltb_irrefl, Bool.andb_false_r. reflexivity.
Qed.

Lemma import_drops_what_get_still_serves_witness :
  let c := mkCache [("a", mkItem 7 100 50 3 140)] 10 1000 3 1 in
  wf_map (cache c)
  /\ fst (get "a" 150 c) = Some 7
  /\ map_get "a" (cache (import (export c) 150 (new 10 1000))) = None.
Proof.
  intros c.
  assert (Hwf : wf_map (cache c)).
  { repeat constructor; cbn; intuition discriminate. }
  split; [exact Hwf |].
  exact (import_drops_what_get_still_serves c "a" _ 150 10 1000 Hwf
           eq_refl eq_refl).
Defined.

Lemma same_keys_same_length {V W} (m : JsMap V) (m' : JsMap W) :
  wf_map m -> wf_map m' ->
  (forall k, map_get k m = None <-> map_get k m' = None) ->
  List.length m = List.length m'.
Proof.
  intros Hwf Hwf' Hsame.
  rewrite <- (List.length_map fst m), <- (List.length_map fst m').
  apply Permutation_length, Permutation.NoDup_Permutation; [exact Hwf | exact Hwf' |].
  intros k. fold (keys m) (keys m').
  destruct (Hsame k) as [H1 H2]. rewrite !map_get_None in H1, H2.
  split; intros Hin.
  - destruct (List.in_dec string_dec k (keys m')); [assumption | tauto].
  - destruct (List.in_dec string_dec k (keys m)); [assumption | tauto].
Qed.

(** X10: [import] pays no attention to [maxSize]: importing the export of a
    cache all of whose entries are younger than their TTL (and none of which
    sits under the key [__proto__]) into a fresh cache stores every one of
    them, however small the capacity of the target. *)
Theorem import_ignores_capacity {T} (c : CacheManager T) (now max d : Z) :
  wf_map (cache c) ->
  ~ List.In "__proto__" (keys (cache c)) ->
  (forall k item, List.In (k, item) (cache c) -> now - timestamp item < ttl item) ->
  size (import (export c) now (new max d)) = size c.
Proof.
  intros Hwf Hproto Hlive. unfold size. f_equal.
  apply same_keys_same_length.
  - unfold import. cbn. apply import_fold_wf. constructor.
  - exact Hwf.
  - intros k.
    rewrite import_export_lookup by exact Hwf.
    destruct (map_get k (cache c)) as [item |] eqn:Hget; [| reflexivity].
    assert (Hk : String.eqb k "__proto__" = false).
    { apply String.eqb_neq. intros ->. apply Hproto.
      apply map_get_In in Hget. change "__proto__" with (fst ("__proto__", item)).
      now apply List.in_map. }
    rewrite Hk. cbn.
    apply map_get_In, Hlive in Hget.
    destruct (Z.ltb_spec (now - timestamp item) (ttl item)); [| lia].
    split; discriminate.
Qed.

Lemma import_ignores_capacity_witness :
  let c := mkCache [("a", mkItem 7 100 50 3 140); ("b", mkItem 8 100 90 1 120)]
             10 1000 3 1 in
  wf_map (cache c)
  /\ ~ List.In "__proto__" (keys (cache c))
  /\ size (import (export c) 110 (new 1 1000)) = 2.
Proof.
  intros c.
  assert (Hwf : wf_map (cache c)).
  { repeat constructor; cbn; intuition discriminate. }
  assert (Hproto : ~ List.In "__proto__" (keys (cache c))).
  { cbn. intuition discriminate. }
  split; [exact Hwf |]. split; [exact Hproto |].
  rewrite (import_ignores_capacity c 110 1 1000 Hwf Hproto); [reflexivity |].
  intros k item [[= <- <-] | [[= <- <-] | []]]; cbn; lia.
Defined.

(** *** Capacity and eviction *)

(** X11: A cache created with a capacity of at least one never holds more than
    [maxSize] entries along a history in which every clock reading is
    strictly later than the one before and no [set] uses the empty key. *)
Theorem capacity_kept_while_clock_advances {T} (ops : list (Op T))
  (max d start : Z) :
  1 <= max ->
  Forall sets_named_key ops ->
  clock_advances start ops ->
  size (run ops (new max d)) <= max.
Proof.
  intros Hmax Hkeys Hclock.
  apply (run_respects_capacity ops (new max d) start); try assumption.
  unfold within_capacity, size. cbn.
  repeat split; [constructor | lia | tauto | tauto].
Qed.

Lemma capacity_kept_while_clock_advances_witness :
  let ops : list (Op Z) :=
    [OSet "a" 1 None 1000; OSet "b" 2 None 1001; OSet "c" 3 None 1002] in
  1 <= 2 /\ clock_advances 0 ops /\ size (run ops (new 2 300000)) <= 2.
Proof.
  intros ops.
  assert (Hmax : 1 <= 2) by lia.
  assert (Hkeys : Forall sets_named_key ops).
  { repeat constructor; discriminate. }
  assert (Hclock : clock_advances 0 ops) by (cbn; lia).
  split; [exact Hmax |]. split; [exact Hclock |].
  exact (capacity_kept_while_clock_advances ops 2 300000 0 Hmax Hkeys Hclock).
Defined.

(** The scan of [evictLRU] stops at the first entry, in iteration order,
    whose last access is the earliest. *)
Lemma lru_scan_first {T} (m : JsMap (CacheItem T)) (k0 : string) (t0 : Z) :
  let r := fold_left lru_step m (k0, t0) in
  snd r < t0 ->
  exists pre item post,
    m = (pre ++ (fst r, item) :: post)%list
    /\ lastAccessed item = snd r
    /\ (forall e, List.In e pre -> snd r < lastAccessed (snd e))
    /\ (forall e, List.In e post -> snd r <= lastAccessed (snd e)).
Proof.
  revert k0 t0. induction m as [| [k item] r IH]; intros k0 t0; cbn.
  - lia.
  - replace (lru_step (k0, t0) (k, item))
      with (if lastAccessed item <? t0 then (k, lastAccessed item) else (k0, t0))
      by reflexivity.
    destruct (Z.ltb_spec (lastAccessed item) t0) as [Hlt | Hge]; intros Hres.
    + destruct (lru_scan_spec r k (lastAccessed item)) as (Hle & Hall & Hsel).
      destruct (Z.eq_dec (snd (fold_left lru_step r (k, lastAccessed item)))
                  (lastAccessed item)) as [Hsame | Hless].
      * destruct Hsel as [Heq | (it & _ & _ & Hlt')]; [| lia].
        exists [], item, r. rewrite Heq. cbn.
        repeat split; [intros e [] |].
        intros [k' it'] Hin. specialize (Hall k' it' Hin).
        rewrite Heq in Hall. exact Hall.
      * destruct (IH k (lastAccessed item))
          as (pre & it & post & Hm & Hla & Hpre & Hpost);
          [lia |].
        exists ((k, item) :: pre), it, post. cbn. rewrite <- Hm.
        repeat split; [exact Hla | | exact Hpost].
        intros e [<- | Hin]; [cbn; lia | now apply Hpre].
    + destruct (IH k0 t0 Hres) as (pre & it & post & Hm & Hla & Hpre & Hpost).
      exists ((k, item) :: pre), it, post. cbn. rewrite <- Hm.
      repeat split; [exact Hla | | exact Hpost].
      intros e [<- | Hin]; [cbn; lia | now apply Hpre].
Qed.

Lemma map_set_new {V} (m : JsMap V) (k : string) (v : V) :
  map_get k m = None -> map_set k v m = (m ++ [(k, v)])%list.
Proof.
  induction m as [| [k' v'] r IH]; cbn; [reflexivity |].
  destruct (String.eqb_spec k k'); [discriminate |].
  intros H. now rewrite IH.
Qed.

Lemma map_delete_middle {V} (pre post : JsMap V) (k : string) (v : V) :
  ~ List.In k (keys pre) ->
  map_delete k (pre ++ (k, v) :: post)%list = (pre ++ post)%list.
Proof.
  induction pre as [| [k' v'] r IH]; cbn.
  - intros _. now rewrite String.eqb_refl.
  - intros Hnotin. destruct (String.eqb_spec k k') as [-> | Hne]; [tauto |].
    rewrite IH; [reflexivity | tauto].
Qed.

(** X12: [set] of a new key into a full cache that holds an entry last accessed
    before [now] and no empty key: the evicted entry is the first one, in
    iteration order, with the earliest last access; the other entries keep
    their order and the new entry comes last; the size is unchanged. *)
Theorem set_new_key_evicts_first_least_recent {T} (c : CacheManager T)
  (key : string) (v : T) (t : option Z) (now : Z) :
  wf_map (cache c) ->
  map_get key (cache c) = None ->
  maxSize c <= size c ->
  ~ List.In "" (keys (cache c)) ->
  (exists k item, List.In (k, item) (cache c) /\ lastAccessed item < now) ->
  exists pre victim item post,
    cache c = (pre ++ (victim, item) :: post)%list
    /\ (forall e, List.In e pre -> lastAccessed item < lastAccessed (snd e))
    /\ (forall e, List.In e post -> lastAccessed item <= lastAccessed (snd e))
    /\ cache (set key v t now c)
       = (pre ++ post
          ++ [(key, mkItem v now (ttl_or_default t (defaultTTL c)) 0 now)])%list
    /\ size (set key v t now c) = size c.
Proof.
  intros Hwf Hnew Hfull Hnamed (k & it & Hin & Hold).
  assert (Hres : snd (lru_scan now (cache c)) < now).
  { destruct (lru_scan_spec (cache c) "" now) as (_ & Hall & _).
    specialize (Hall k it Hin). fold (lru_scan now (cache c)) in Hall. lia. }
  destruct (lru_scan_first (cache c) "" now Hres)
    as (pre & item & post & Hm & Hla & Hpre & Hpost).
  fold (lru_scan now (cache c)) in Hm, Hla, Hpre, Hpost.
  set (victim := fst (lru_scan now (cache c))) in *.
  assert (Hvin : List.In victim (keys (cache c))).
  { rewrite Hm. unfold keys. rewrite List.map_app. apply List.in_or_app.
    right. now left. }
  assert (Hvne : victim <> "") by (intros Heq; rewrite Heq in Hvin; tauto).
  assert (Hvpre : ~ List.In victim (keys pre)).
  { unfold wf_map in Hwf. rewrite Hm in Hwf. unfold keys in *.
    rewrite List.map_app in Hwf. cbn in Hwf.
    apply List.NoDup_remove_2 in Hwf. intros Hc. apply Hwf.
    apply List.in_or_app. now left. }
  assert (Hevict : evictLRU now (cache c) = (pre ++ post)%list).
  { unfold evictLRU. fold victim. rewrite (truthy_string_ne _ Hvne).
    rewrite Hm at 1. now apply map_delete_middle. }
  assert (Hkey : map_get key (pre ++ post)%list = None).
  { rewrite <- Hevict. apply map_get_None. intros Hc.
    apply keys_In in Hc as (x & Hc). apply In_evictLRU in Hc.
    apply map_get_None in Hnew. apply Hnew.
    change key with (fst (key, x)). now apply List.in_map. }
  exists pre, victim, item, post.
  split; [exact Hm |].
  split; [intros e He; rewrite Hla; now apply Hpre |].
  split; [intros e He; rewrite Hla; now apply Hpost |].
  assert (Hcache : cache (set key v t now c)
                   = ((pre ++ post)
                      ++ [(key, mkItem v now (ttl_or_default t (defaultTTL c))
                                  0 now)])%list).
  { unfold set. cbn [cache with_cache].
    destruct (Z.leb_spec (maxSize c) (size c)); [| lia].
    rewrite Hevict. now apply map_set_new. }
  split; [rewrite Hcache; now rewrite <- List.app_assoc |].
  unfold size. rewrite Hcache.
  apply (f_equal (@List.length _)) in Hm. rewrite Hm.
  rewrite !List.length_app. cbn [List.length].
  now rewrite Nat.add_1_r, Nat.add_succ_r.
Qed.

Lemma set_new_key_evicts_first_least_recent_witness :
  let c := mkCache [("a", mkItem 7 100 50 3 140); ("b", mkItem 8 100 50 0 120);
                    ("c", mkItem 9 100 50 0 120)] 3 1000 3 0 in
  wf_map (cache c)
  /\ cache (set "d" 1 None 200 c)
     = [("a", mkItem 7 100 50 3 140); ("c", mkItem 9 100 50 0 120);
        ("d", mkItem 1 200 1000 0 200)].
Proof.
  intros c.
  assert (Hwf : wf_map (cache c)).
  { repeat constructor; cbn; intuition discriminate. }
  assert (Hnew : map_get "d" (cache c) = None) by reflexivity.
  assert (Hfull : maxSize c <= size c) by (unfold size; cbn; lia).
  assert (Hnamed : ~ List.In "" (keys (cache c))).
  { cbn. intuition discriminate. }
  assert (Hold : exists k item,
             List.In (k, item) (cache c) /\ lastAccessed item < 200).
  { exists "a", (mkItem 7 100 50 3 140). split; [now left | cbn; lia]. }
  split; [exact Hwf |].
  destruct (set_new_key_evicts_first_least_recent c "d" 1 None 200
              Hwf Hnew Hfull Hnamed Hold) as (pre & victim & item & post & _).
  reflexivity.
Defined.

End CacheMore.

(** ** RetryManager: shape of the outcomes, jitter, breaker state machine *)

Module RetryMore.
Import Retry JsFacts RetryFacts.

(** X13: An error the retry condition rejects ends the run at once: one
    invocation, one attempt record with delay 0, that error in the failed
    outcome, no wait and no random number drawn, whatever [maxAttempts]. *)
Theorem execute_fails_fast_on_non_retryable {T} (op : Operation T)
  (config : option Partial.t) (w : World) (e : JsError) (dt : Z) :
  let final := merge defaultConfig config in
  1 <= maxAttempts final ->
  op (calls w) = (Rejected e, dt) ->
  retryCondition final e = false ->
  execute op config w
  = (inr (mkResult false None (Some e) [Attempt.mk 1 (clock w + dt) e 0]
            (clock w + dt - clock w)),
     mkWorld (clock w + dt) (S (calls w)) (entropy w)).
Proof.
  intros final Hmax Hop Hcond. unfold execute. fold final.
  destruct (Z.to_nat (maxAttempts final)) as [| fuel] eqn:Hfuel; [lia |].
  cbn [retry_loop]. unfold invoke. rewrite Hop, Hcond. reflexivity.
Qed.

Lemma execute_fails_fast_on_non_retryable_witness :
  let op : Operation string := fun _ => (Rejected (mkError (Some 400) None), 10) in
  exists res w',
    execute op None (mkWorld 0 0 []) = (inr res, w')
    /\ List.length (attempts res) = 1%nat
    /\ calls w' = 1%nat.
Proof.
  intros op. eexists _, _. split.
  - apply (execute_fails_fast_on_non_retryable op None (mkWorld 0 0 [])
             (mkError (Some 400) None) 10); [cbn; lia | reflexivity | reflexivity].
  - split; reflexivity.
Defined.

Section Shape.
Context {T : Type}.
Variables (op : Operation T) (config : RetryConfig) (startTime : Z).

(** What the loop returns, for any operation, while iterations are left up
    to [maxAttempts]. *)
Lemma retry_loop_shape (fuel : nat) :
  forall attempt sofar w,
    (0 < fuel)%nat ->
    attempt + Z.of_nat fuel - 1 = maxAttempts config ->
    exists res w' fresh,
      retry_loop fuel attempt op config startTime sofar w = (inr res, w')
      /\ attempts res = (sofar ++ fresh)%list
      /\ (List.length fresh <= fuel)%nat
      /\ map Attempt.attempt fresh
         = map (fun k => attempt + Z.of_nat k) (seq 0 (List.length fresh))
      /\ calls w'
         = (calls w + List.length fresh + (if success res then 1 else 0))%nat
      /\ (if success res
          then is_Some (result res) /\ error res = None
               /\ (List.length fresh < fuel)%nat
          else result res = None
               /\ exists pre a, fresh = (pre ++ [a])%list
                                /\ error res = Some (Attempt.error a)).
Proof.
  induction fuel as [| fuel IH]; intros attempt sofar w Hpos Hmax; [lia |].
  cbn [retry_loop]. unfold invoke.
  destruct (op (calls w)) as [[v | e] dt].
  - eexists _, _, []. split; [reflexivity |]. cbn.
    rewrite List.app_nil_r. repeat split; eauto; lia.
  - destruct (negb (retryCondition config e) || (attempt =? maxAttempts config))%bool
      eqn:Hstop.
    + eexists _, _, [_]. split; [reflexivity |]. cbn.
      rewrite Z.add_0_r. repeat split; try lia.
      exists [], (Attempt.mk attempt (clock w + dt) e 0). now split.
    + apply orb_false_iff in Hstop as [_ Hlast]. apply Z.eqb_neq in Hlast.
      destruct (calculateDelay attempt config
                  (mkWorld (clock w + dt) (S (calls w)) (entropy w)))
        as [d w2] eqn:Hd.
      assert (Hcalls2 : calls w2 = S (calls w)).
      { change w2 with (snd (d, w2)). rewrite <- Hd.
        now rewrite calculateDelay_calls. }
      destruct (IH (attempt + 1)
                  (sofar ++ [Attempt.mk attempt (clock w + dt) e d])%list
                  (sleep d w2))
        as (res & w' & fresh & Hrun & Hatt & Hlen & Hnum & Hcalls & Hout);
        [lia | lia |].
      exists res, w', (Attempt.mk attempt (clock w + dt) e d :: fresh).
      split; [exact Hrun |].
      split; [rewrite Hatt, <- List.app_assoc; reflexivity |].
      split; [cbn; lia |].
      split.
      { cbn [List.length seq map Attempt.attempt]. rewrite Z.add_0_r. f_equal.
        rewrite Hnum, <- List.seq_shift, List.map_map.
        apply List.map_ext. intros k. lia. }
      split; [cbn [sleep calls] in Hcalls; rewrite Hcalls2 in Hcalls; cbn; lia |].
      destruct (success res).
      * destruct Hout as (Hres & Herr & Hlt). repeat split; try assumption.
        cbn. lia.
      * destruct Hout as (Hres & pre & a & Hfresh & Herr).
        split; [exact Hres |].
        exists (Attempt.mk attempt (clock w + dt) e d :: pre), a.
        split; [now rewrite Hfresh | exact Herr].
Qed.

End Shape.

(** X14: With an integer [maxAttempts >= 1], a retry condition that returns,
    and an operation whose rejections carry no message or a string one (so
    that the default condition returns), [execute] always returns an
    outcome: at most [maxAttempts] attempt records, numbered 1, 2, ... in
    order; one invocation per record plus one for the success; a successful
    outcome carries a result, no error and fewer than [maxAttempts] records;
    a failed one carries no result and the error of its last record. *)
Theorem execute_outcome_shape {T} (op : Operation T)
  (config : option Partial.t) (w : World) :
  let final := merge defaultConfig config in
  1 <= maxAttempts final ->
  exists res w',
    execute op config w = (inr res, w')
    /\ Z.of_nat (List.length (attempts res)) <= maxAttempts final
    /\ map Attempt.attempt (attempts res) = numbered (List.length (attempts res))
    /\ calls w'
       = (calls w + List.length (attempts res)
          + (if success res then 1 else 0))%nat
    /\ (if success res
        then is_Some (result res) /\ error res = None
             /\ Z.of_nat (List.length (attempts res)) < maxAttempts final
        else result res = None
             /\ exists pre a, attempts res = (pre ++ [a])%list
                              /\ error res = Some (Attempt.error a)).
Proof.
  intros final Hmax. unfold execute. fold final.
  destruct (retry_loop_shape op final (clock w)
              (Z.to_nat (maxAttempts final)) 1 [] w)
    as (res & w' & fresh & Hrun & Hatt & Hlen & Hnum & Hcalls & Hout);
    [lia | lia |].
  cbn in Hatt. rewrite <- Hatt in *.
  exists res, w'. split; [exact Hrun |]. split; [lia |].
  split.
  { rewrite Hnum. unfold numbered. apply List.map_ext. intros k. lia. }
  split; [exact Hcalls |].
  destruct (success res); [| exact Hout].
  destruct Hout as (Hres & Herr & Hlt). repeat split; try assumption. lia.
Qed.

Lemma execute_outcome_shape_witness :
  let op : Operation string :=
    fun i => if (i <? 1)%nat then (Rejected (mkError (Some 503) None), 5)
             else (Resolved "ok", 5) in
  exists res w',
    execute op None (mkWorld 0 0 []) = (inr res, w')
    /\ Z.of_nat (List.length (attempts res)) <= 3.
Proof.
  intros op.
  destruct (execute_outcome_shape op None (mkWorld 0 0 []))
    as (res & w' & Hrun & Hlen & _); [cbn; lia |].
  exists res, w'. split; [exact Hrun | exact Hlen].
Defined.

(** X15: With [maxAttempts] zero or negative the loop body never runs and
    [execute] throws its "unexpected end" error without invoking the
    operation; a call through the circuit breaker that is not refused then
    records a failure for the key although nothing was attempted. *)
Theorem execute_without_attempts_throws {T} (op : Operation T)
  (config : option Partial.t) (w : World) (key : string)
  (m : gmap string CircuitState) :
  maxAttempts (merge defaultConfig config) <= 0 ->
  execute op config w = (inl UnexpectedEnd, w)
  /\ (fst (isCircuitOpen key (clock w) m) = false ->
      retryWithCircuitBreaker op key config m w
      = (inl UnexpectedEnd,
         recordFailure key (clock w) (snd (isCircuitOpen key (clock w) m)), w)).
Proof.
  intros Hmax.
  assert (Hex : execute op config w = (inl UnexpectedEnd, w)).
  { unfold execute.
    replace (Z.to_nat (maxAttempts (merge defaultConfig config))) with 0%nat by lia.
    reflexivity. }
  split; [exact Hex |].
  intros Hthrough. unfold retryWithCircuitBreaker.
  destruct (isCircuitOpen key (clock w) m) as [o m1]. cbn in Hthrough. subst o.
  now rewrite Hex.
Qed.

Lemma execute_without_attempts_throws_witness :
  let op : Operation string := fun _ => (Resolved "ok", 5) in
  let config := Partial.mk (Some 0) None None None None None in
  execute op (Some config) (mkWorld 0 0 []) = (inl UnexpectedEnd, mkWorld 0 0 []).
Proof.
  intros op config.
  apply (execute_without_attempts_throws op (Some config) (mkWorld 0 0 []) "k" ∅).
  cbn. lia.
Defined.

(** X16: With jitter on, random values in [0, 1) and durations that are not
    negative, the delay stays within ten percent of the capped backoff
    value, so it never exceeds [1.1 * maxDelay]; exactly one random number
    is drawn. *)
Theorem jittered_delay_within_ten_percent (attempt : Z) (config : RetryConfig)
  (w : World) :
  jitter config = true ->
  unit_entropy w ->
  (0 <= baseDelay config)%Q ->
  (0 <= backoffFactor config)%Q ->
  (0 <= maxDelay config)%Q ->
  let d := Qmin (baseDelay config * backoffFactor config ^ (attempt - 1))
             (maxDelay config) in
  let r := calculateDelay attempt config w in
  ((9 # 10) * d <= fst r <= (11 # 10) * d)%Q
  /\ (fst r <= (11 # 10) * maxDelay config)%Q
  /\ entropy (snd r) = tl (entropy w).
Proof.
  intros Hj Hent Hbase Hbf Hmax d r. unfold r, calculateDelay. rewrite Hj.
  assert (Hd : (Js.qmin (baseDelay config * backoffFactor config ^ (attempt - 1))
                  (maxDelay config) == d)%Q) by apply qmin_Qmin.
  assert (Hd0 : (0 <= d)%Q).
  { unfold d. apply Q.min_glb; [| exact Hmax].
    apply Qmult_le_0_compat; [exact Hbase | now apply Qpower_0_le]. }
  assert (HdM : (d <= maxDelay config)%Q) by apply Q.le_min_r.
  assert (Hrand : (0 <= fst (random w) < 1)%Q
                  /\ entropy (snd (random w)) = tl (entropy w)).
  { unfold random, unit_entropy in *.
    destruct (entropy w) as [| x rs] eqn:He; cbn.
    - split; [lra | exact He].
    - split; [| reflexivity]. now apply Forall_inv in Hent. }
  destruct (random w) as [x w']. cbn [fst snd] in *.
  destruct Hrand as [Hx Htl].
  generalize dependent (Js.qmin (baseDelay config * backoffFactor config ^ (attempt - 1))
                          (maxDelay config)).
  intros q Hq.
  assert (Hq0 : (0 <= q)%Q) by lra.
  assert (Hxq : (0 <= x * q <= q)%Q) by nra.
  split; [| split; [| exact Htl]]; qle_cases; lra.
Qed.

Lemma jittered_delay_within_ten_percent_witness :
  let config := mkConfig 3 1000 30000 2 true defaultRetryCondition in
  let w := mkWorld 0 0 [(3 # 4)%Q] in
  unit_entropy w
  /\ (fst (calculateDelay 2 config w) <= (11 # 10) * 30000)%Q.
Proof.
  intros config w.
  assert (Hent : unit_entropy w).
  { constructor; [split; [discriminate | reflexivity] | constructor]. }
  split; [exact Hent |].
  apply (jittered_delay_within_ten_percent 2 config w);
    [reflexivity | exact Hent | discriminate | discriminate | discriminate].
Defined.

(** X17: With jitter off, the records of a run whose [n] allowed attempts are all
    rejected retryably carry the attempt numbers 1..n and the backoff delays
    of attempts 1..n-1; the last record keeps delay 0, no wait following
    it. *)
Theorem exhausted_run_records_backoff_schedule {T} (op : Operation T)
  (config : option Partial.t) (w : World) (n : nat) :
  let final := merge defaultConfig config in
  jitter final = false ->
  maxAttempts final = Z.of_nat n ->
  (1 <= n)%nat ->
  fails_retryably op final w n ->
  exists res w',
    execute op config w = (inr res, w')
    /\ map attempt_delay (attempts res) = backoff_schedule final 1 n
    /\ forall i d, List.In (i, d) (backoff_schedule final 1 n) ->
         1 <= i <= Z.of_nat n
         /\ (d == if i =? Z.of_nat n then 0
                  else fst (calculateDelay i final w))%Q.
Proof.
  intros final Hj Hmax Hn Hfail. unfold execute. fold final.
  rewrite Hmax, Nat2Z.id.
  destruct (retry_loop_schedule op final (clock w) n 1 [] w Hj)
    as (res & w' & Hrun & Hmap); [lia | lia | exact Hfail |].
  exists res, w'. split; [exact Hrun |]. split; [exact Hmap |].
  intros i d Hin. unfold backoff_schedule in Hin.
  apply List.in_map_iff in Hin as (k & Heq & Hk).
  apply List.in_seq in Hk. cbn zeta in Heq. injection Heq as <- <-.
  split; [lia |]. rewrite Hmax.
  destruct (1 + Z.of_nat k =? Z.of_nat n); [reflexivity |].
  rewrite calculateDelay_no_jitter by exact Hj. reflexivity.
Qed.

Lemma exhausted_run_records_backoff_schedule_witness :
  let op : Operation string := fun _ => (Rejected (mkError (Some 503) None), 0) in
  let config := Partial.mk (Some 3) (Some 100%Q) None (Some 2%Q) (Some false) None in
  exists res w',
    execute op (Some config) (mkWorld 0 0 []) = (inr res, w')
    /\ map attempt_delay (attempts res) = [(1, 100%Q); (2, 200%Q); (3, 0%Q)].
Proof.
  intros op config.
  destruct (exhausted_run_records_backoff_schedule op (Some config)
              (mkWorld 0 0 []) 3 eq_refl eq_refl ltac:(lia))
    as (res & w' & Hrun & Hmap & _).
  - intros i _. exists (mkError (Some 503) None), 0. split; reflexivity.
  - exists res, w'. split; [exact Hrun |]. rewrite Hmap. reflexivity.
Defined.

(** *** The breaker: isolation, probes, threshold *)

Lemma isCircuitOpen_other key key' now (m : gmap string CircuitState) :
  key' <> key -> snd (isCircuitOpen key now m) !! key' = m !! key'.
Proof.
  intros Hne. unfold isCircuitOpen. destruct (m !! key) as [st |]; [| reflexivity].
  destruct (is_open (state st) && (60000 <? now - lastFailure st))%bool;
    [| reflexivity].
  cbn. apply lookup_insert_ne. congruence.
Qed.

Lemma recordFailure_other key key' now (m : gmap string CircuitState) :
  key' <> key -> recordFailure key now m !! key' = m !! key'.
Proof. intros Hne. unfold recordFailure. apply lookup_insert_ne. congruence. Qed.

Lemma recordSuccess_other key key' (m : gmap string CircuitState) :
  key' <> key -> recordSuccess key m !! key' = m !! key'.
Proof.
  intros Hne. unfold recordSuccess. destruct (m !! key); [| reflexivity].
  apply lookup_insert_ne. congruence.
Qed.

Lemma retryWithCircuitBreaker_other {T} (op : Operation T)
  (key key' : string) (config : option Partial.t)
  (m : gmap string CircuitState) (w : World) :
  key' <> key ->
  snd (fst (retryWithCircuitBreaker op key config m w)) !! key' = m !! key'.
Proof.
  intros Hne. unfold retryWithCircuitBreaker.
  pose proof (isCircuitOpen_other key key' (clock w) m Hne) as Hother.
  destruct (isCircuitOpen key (clock w) m) as [o m1]. cbn in Hother.
  destruct o; [exact Hother |].
  destruct (execute op config w) as [[ex | res] w1]; cbn.
  - now rewrite recordFailure_other.
  - destruct (success res); cbn;
      [now rewrite recordSuccess_other | now rewrite recordFailure_other].
Qed.

(** X18: A call on one circuit key never changes the circuit of another key,
    whatever its outcome, and whether or not the call was let through. *)
Theorem circuit_call_leaves_other_keys {T} (op : Operation T)
  (key key' : string) (config : option Partial.t)
  (m : gmap string CircuitState) (w : World) :
  key' <> key ->
  snd (fst (retryWithCircuitBreaker op key config m w)) !! key' = m !! key'.
Proof. apply retryWithCircuitBreaker_other. Qed.

Lemma circuit_call_leaves_other_keys_witness :
  let op : Operation string := fun _ => (Rejected (mkError (Some 400) None), 10) in
  let m : gmap string CircuitState := {["chat" := mkCircuit 2 50 PClosed]} in
  "chat" <> "calc"
  /\ snd (fst (retryWithCircuitBreaker op "calc" None m (mkWorld 100 0 [])))
     !! "chat" = Some (mkCircuit 2 50 PClosed).
Proof.
  intros op m.
  assert (Hne : "chat" <> "calc") by discriminate.
  split; [exact Hne |].
  rewrite (circuit_call_leaves_other_keys op "calc" "chat" None m
             (mkWorld 100 0 []) Hne).
  apply lookup_singleton_eq.
Defined.

Lemma isCircuitOpen_lookup key now (m : gmap string CircuitState) :
  snd (isCircuitOpen key now m) !! key = after_stats now <$> m !! key
  /\ fst (isCircuitOpen key now m)
     = match m !! key with
       | Some st => (is_open (state st) && negb (60000 <? now - lastFailure st))%bool
       | None => false
       end.
Proof.
  unfold isCircuitOpen, after_stats, cooled_down.
  destruct (m !! key) as [st |] eqn:Hget; [| cbn; now rewrite Hget].
  destruct (is_open (state st)) eqn:Ho; cbn; rewrite ?Ho; cbn.
  - destruct (60000 <? now - lastFailure st); cbn.
    + now rewrite lookup_insert_eq.
    + now rewrite Hget.
  - now rewrite Hget.
Qed.

(** X19: A successful call leaves the circuit of its key closed with a zero
    failure count and the old last-failure time, and creates no circuit for
    a key that has none. *)
Theorem success_closes_the_circuit {T} (op : Operation T) (key : string)
  (config : option Partial.t) (m : gmap string CircuitState) (w w' : World)
  (res : RetryResult T) :
  fst (isCircuitOpen key (clock w) m) = false ->
  execute op config w = (inr res, w') ->
  success res = true ->
  retryWithCircuitBreaker op key config m w
  = (inr res, recordSuccess key (snd (isCircuitOpen key (clock w) m)), w')
  /\ recordSuccess key (snd (isCircuitOpen key (clock w) m)) !! key
     = (fun st => mkCircuit 0 (lastFailure st) PClosed) <$> m !! key.
Proof.
  intros Hthrough Hrun Hs.
  destruct (isCircuitOpen_lookup key (clock w) m) as [Hlook _].
  unfold retryWithCircuitBreaker.
  destruct (isCircuitOpen key (clock w) m) as [o m1]. cbn in Hthrough, Hlook.
  subst o. rewrite Hrun, Hs. split; [reflexivity |]. cbn [snd].
  unfold recordSuccess. rewrite Hlook.
  destruct (m !! key) as [st |]; cbn.
  - rewrite lookup_insert_eq. unfold after_stats.
    now destruct (cooled_down (clock w) st).
  - rewrite Hlook. reflexivity.
Qed.

Lemma success_closes_the_circuit_witness :
  let op : Operation string := fun _ => (Resolved "ok", 10) in
  let m : gmap string CircuitState := {["chat" := mkCircuit 3 50 PClosed]} in
  exists m' w',
    retryWithCircuitBreaker op "chat" None m (mkWorld 100 0 [])
    = (inr (mkResult true (Some "ok") None [] 10), m', w')
    /\ m' !! "chat" = Some (mkCircuit 0 50 PClosed).
Proof.
  intros op m.
  destruct (success_closes_the_circuit op "chat" None m (mkWorld 100 0 [])
              (mkWorld 110 1 []) (mkResult true (Some "ok") None [] 10))
    as [Hcall Hlook]; [reflexivity | reflexivity | reflexivity |].
  eexists _, _. split; [exact Hcall |].
  rewrite Hlook. unfold m. now rewrite lookup_singleton_eq.
Defined.

(** X20: The probe let through once an open circuit has cooled down settles it:
    if the probe fails the circuit is open again, with one more failure and
    the cooldown counted from the end of the probe; if it succeeds the
    circuit is closed with a zero failure count. *)
Theorem probe_settles_the_circuit {T} (op : Operation T) (key : string)
  (config : option Partial.t) (m : gmap string CircuitState) (w : World)
  (st : CircuitState) :
  circuit_ok st ->
  m !! key = Some st ->
  state st = POpen ->
  60000 < clock w - lastFailure st ->
  let out := retryWithCircuitBreaker op key config m w in
  (fst (fst out), snd out) = execute op config w
  /\ snd (fst out) !! key
     = Some (if call_failed (fst (fst out))
             then mkCircuit (failures st + 1) (clock (snd out)) POpen
             else mkCircuit 0 (lastFailure st) PClosed).
Proof.
  intros [Hpos Hiff] Hget Hopen Hcool out.
  assert (H5 : 5 <= failures st).
  { destruct (Z.ltb_spec (failures st) 5) as [Hlt | Hge]; [| lia].
    apply Hiff in Hlt. congruence. }
  destruct (isCircuitOpen_lookup key (clock w) m) as [Hlook Hfst].
  rewrite Hget in Hlook, Hfst. cbn in Hlook.
  unfold after_stats, cooled_down in Hlook. rewrite Hopen in Hlook, Hfst.
  destruct (Z.ltb_spec 60000 (clock w - lastFailure st)); [| lia].
  cbn in Hlook, Hfst.
  unfold out, retryWithCircuitBreaker.
  destruct (isCircuitOpen key (clock w) m) as [o m1]. cbn in Hlook, Hfst.
  subst o.
  destruct (execute op config w) as [[ex | res] w1]; cbn.
  - split; [reflexivity |]. rewrite recordFailure_lookup, Hlook. cbn.
    destruct (Z.leb_spec 5 (failures st + 1)); [reflexivity | lia].
  - destruct (success res) eqn:Hs; cbn; rewrite Hs; cbn.
    + split; [reflexivity |]. unfold recordSuccess. rewrite Hlook.
      now rewrite lookup_insert_eq.
    + split; [reflexivity |]. rewrite recordFailure_lookup, Hlook. cbn.
      destruct (Z.leb_spec 5 (failures st + 1)); [reflexivity | lia].
Qed.

Lemma probe_settles_the_circuit_witness :
  let op : Operation string := fun _ => (Resolved "ok", 10) in
  let st := mkCircuit 5 1000 POpen in
  let m : gmap string CircuitState := {["chat" := st]} in
  circuit_ok st
  /\ snd (fst (retryWithCircuitBreaker op "chat" None m (mkWorld 70000 0 [])))
     !! "chat" = Some (mkCircuit 0 1000 PClosed).
Proof.
  intros op st m.
  assert (Hok : circuit_ok st).
  { split; cbn; [lia |]. split; [discriminate | lia]. }
  split; [exact Hok |].
  destruct (probe_settles_the_circuit op "chat" None m (mkWorld 70000 0 []) st Hok)
    as [_ Hlook]; [apply lookup_singleton_eq | reflexivity | cbn; lia |].
  rewrite Hlook. reflexivity.
Defined.

Lemma failing_call_counts {T} (c : Call T) (key : string)
  (m : gmap string CircuitState) (f : Z) :
  0 <= f < 4 ->
  (f = 0 /\ m !! key = None
   \/ exists st, m !! key = Some st /\ state st = PClosed /\ failures st = f) ->
  let out :=
    retryWithCircuitBreaker (call_op c) key (call_config c) m (call_world c) in
  call_failed (fst (fst out)) = true ->
  exists st,
    snd (fst out) !! key = Some st /\ state st = PClosed /\ failures st = f + 1.
Proof.
  intros Hf Hstate out.
  destruct (isCircuitOpen_lookup key (clock (call_world c)) m) as [Hlook Hfst].
  assert (Hm1 : snd (isCircuitOpen key (clock (call_world c)) m) !! key = m !! key
                /\ fst (isCircuitOpen key (clock (call_world c)) m) = false).
  { destruct Hstate as [[_ Hnone] | (st & Hget & Hst & _)].
    - rewrite Hlook, Hfst, Hnone. now split.
    - rewrite Hlook, Hfst, Hget. cbn. unfold after_stats, cooled_down.
      rewrite Hst. now split. }
  destruct Hm1 as [Hsame Hthrough].
  assert (Hrec : forall now, exists st,
             recordFailure key now
               (snd (isCircuitOpen key (clock (call_world c)) m)) !! key = Some st
             /\ state st = PClosed /\ failures st = f + 1).
  { intros now. rewrite recordFailure_lookup, Hsame. eexists. split; [reflexivity |].
    destruct Hstate as [[-> Hnone] | (st & Hget & Hst & <-)].
    - rewrite Hnone. cbn. split; reflexivity.
    - rewrite Hget. cbn.
      destruct (Z.leb_spec 5 (failures st + 1)); [lia | now split]. }
  unfold out, retryWithCircuitBreaker.
  destruct (isCircuitOpen key (clock (call_world c)) m) as [o m1].
  cbn in Hthrough, Hrec. subst o.
  destruct (execute (call_op c) (call_config c) (call_world c)) as [[ex | res] w1];
    cbn.
  - intros _. apply Hrec.
  - destruct (success res) eqn:Hs; cbn; [rewrite Hs; discriminate |].
    intros _. apply Hrec.
Qed.

Lemma failing_run_counts {T} (key : string) (cs : list (Call T)) :
  forall (m : gmap string CircuitState) (f : Z),
    0 <= f ->
    f + Z.of_nat (List.length cs) < 5 ->
    (f = 0 /\ m !! key = None
     \/ exists st, m !! key = Some st /\ state st = PClosed /\ failures st = f) ->
    forallb call_failed (fst (run_calls key cs m)) = true ->
    let m' := snd (run_calls key cs m) in
    (f + Z.of_nat (List.length cs) = 0 /\ m' !! key = None
     \/ exists st, m' !! key = Some st /\ state st = PClosed
                   /\ failures st = f + Z.of_nat (List.length cs)).
Proof.
  induction cs as [| c cs IH]; intros m f Hf Hlen Hstate Hall.
  - cbn. rewrite Z.add_0_r. exact Hstate.
  - cbn [run_calls List.length] in *.
    pose proof (failing_call_counts c key m f) as Hstep.
    destruct (retryWithCircuitBreaker (call_op c) key (call_config c) m
                (call_world c)) as [[r m1] w1].
    cbn in Hstep. specialize (IH m1 (f + 1)).
    destruct (run_calls key cs m1) as [rs m2]. cbn in *.
    apply andb_prop in Hall as [Hr Hrs].
    destruct IH as [[Hz _] | (st & Hget & Hst & Hcount)];
      [lia | lia | right; apply Hstep; [lia | exact Hstate | exact Hr]
      | exact Hrs | lia |].
    right. exists st. repeat split; [exact Hget | exact Hst | lia].
Qed.

(** X21: Below the threshold the circuit stays closed: after fewer than five
    failed calls in a row on a key that had no circuit, the stored circuit
    is closed, counts exactly those failures, and the next call is not
    refused. *)
Theorem circuit_stays_closed_below_threshold {T} (key : string)
  (cs : list (Call T)) (m : gmap string CircuitState) :
  m !! key = None ->
  cs <> [] ->
  (List.length cs < 5)%nat ->
  forallb call_failed (fst (run_calls key cs m)) = true ->
  let m' := snd (run_calls key cs m) in
  exists st,
    m' !! key = Some st
    /\ state st = PClosed
    /\ failures st = Z.of_nat (List.length cs)
    /\ forall now, fst (isCircuitOpen key now m') = false.
Proof.
  intros Hnone Hne Hlen Hall m'.
  destruct (failing_run_counts key cs m 0) as [[Hz _] | (st & Hget & Hst & Hcount)];
    [lia | lia | now left | exact Hall | destruct cs; [congruence | cbn in Hz; lia] |].
  exists st. fold m' in Hget. repeat split; [exact Hget | exact Hst | lia |].
  intros now. rewrite (proj2 (isCircuitOpen_lookup key now m')), Hget, Hst.
  reflexivity.
Qed.

Lemma circuit_stays_closed_below_threshold_witness :
  let op : Operation string := fun _ => (Rejected (mkError (Some 400) None), 10) in
  let cs := map (fun t => mkCall op None (mkWorld t 0 [])) [0; 100; 200; 300] in
  exists st,
    snd (run_calls "llm" cs ∅) !! "llm" = Some st
    /\ state st = PClosed
    /\ failures st = 4.
Proof.
  intros op cs.
  destruct (circuit_stays_closed_below_threshold "llm" cs ∅)
    as (st & Hget & Hst & Hcount & _);
    [apply lookup_empty | discriminate | cbn; lia | vm_compute; reflexivity |].
  exists st. repeat split; assumption.
Defined.

(** *** Reading the statistics *)

Lemma stats_fold_lookup (now : Z) (l : list (string * CircuitState)) :
  forall (stats : gmap string CircuitStats.t) (m : gmap string CircuitState),
    Cache.wf_map l ->
    (forall k st, List.In (k, st) l -> m !! k = Some st) ->
    forall key,
      fst (fold_left (stats_entry now) l (stats, m)) !! key
      = match Cache.map_get key l with
        | Some st =>
            if String.eqb key "__proto__" then stats !! key
            else Some (reported now st)
        | None => stats !! key
        end
      /\ snd (fold_left (stats_entry now) l (stats, m)) !! key
         = match Cache.map_get key l with
           | Some st => Some (after_stats now st)
           | None => m !! key
           end.
Proof.
  unfold Cache.wf_map.
  induction l as [| [k0 st0] r IH]; intros stats m Hnd Hin key;
    cbn in Hnd |- *; [now split |].
  apply List.NoDup_cons_iff in Hnd as [Hnotin Hnd].
  pose proof (Hin k0 st0 (or_introl eq_refl)) as Hk0.
  destruct (isCircuitOpen_lookup k0 now m) as [Hsnd Hfst].
  rewrite Hk0 in Hsnd, Hfst. cbn in Hsnd.
  unfold stats_entry at 2 4. cbn [fst snd].
  assert (Hother : forall key',
             key' <> k0 -> snd (isCircuitOpen k0 now m) !! key' = m !! key')
    by (intros key' Hk; now apply isCircuitOpen_other).
  destruct (isCircuitOpen k0 now m) as [o m1]. cbn in Hsnd, Hfst, Hother.
  subst o.
  destruct (IH (Js.assign k0
                  (CircuitStats.mk (failures st0) (lastFailure st0) (state st0)
                     (is_open (state st0)
                      && negb (60000 <? now - lastFailure st0)))
                  stats)
              m1 Hnd) with (key := key) as [Hs Hm].
  { intros k st Hk. rewrite Hother; [now apply Hin; right |].
    intros ->. apply Hnotin. change k0 with (fst (k0, st)).
    now apply List.in_map. }
  rewrite Hs, Hm. rewrite JsMore.assign_lookup.
  destruct (String.eqb_spec key k0) as [-> | Hne]; cbn.
  - apply CacheFacts.map_get_None in Hnotin. rewrite Hnotin.
    split; [| exact Hsnd].
    now destruct (String.eqb k0 "__proto__").
  - destruct (Cache.map_get key r); [now split |].
    rewrite Hother by exact Hne. now split.
Qed.

Lemma getCircuitBreakerStats_lookup (now : Z) (m : gmap string CircuitState)
  (key : string) :
  fst (getCircuitBreakerStats now m) !! key
  = (if String.eqb key "__proto__" then None else reported now <$> m !! key)
  /\ snd (getCircuitBreakerStats now m) !! key = after_stats now <$> m !! key.
Proof.
  destruct (CacheMore.map_to_list_get m key) as [Hwf Hget].
  destruct (stats_fold_lookup now (map_to_list m) ∅ m Hwf) with (key := key)
    as [Hs Hm].
  { intros k st Hin. now apply elem_of_map_to_list, list_elem_of_In. }
  rewrite Hget, lookup_empty in Hs. rewrite Hget in Hm.
  unfold getCircuitBreakerStats. rewrite Hs, Hm.
  destruct (m !! key); now destruct (String.eqb key "__proto__").
Qed.

(** X22: [getCircuitBreakerStats] is not a pure read. For every stored
    circuit, under any key but [__proto__] (which never becomes a property of
    the returned object), it reports the counters and the phase as stored,
    with [isOpen] true only while the circuit is open and has not cooled
    down; and it leaves an open circuit whose cooldown has gone by in the
    half-open phase. So such a circuit is reported with phase open and
    [isOpen] false, and is half-open afterwards. *)
Theorem stats_report_and_half_open (now : Z) (m : gmap string CircuitState)
  (key : string) (st : CircuitState) :
  m !! key = Some st ->
  key <> "__proto__" ->
  let out := getCircuitBreakerStats now m in
  fst out !! key = Some (reported now st)
  /\ snd out !! key = Some (after_stats now st)
  /\ (state st = POpen ->
      60000 < now - lastFailure st ->
      fst out !! key
      = Some (CircuitStats.mk (failures st) (lastFailure st) POpen false)
      /\ snd out !! key
         = Some (mkCircuit (failures st) (lastFailure st) PHalfOpen)).
Proof.
  intros Hst Hkey out.
  destruct (getCircuitBreakerStats_lookup now m key) as [H1 H2].
  fold out in H1, H2. apply String.eqb_neq in Hkey.
  rewrite Hkey, Hst in H1. rewrite Hst in H2. cbn in H1, H2.
  split; [exact H1 |]. split; [exact H2 |].
  intros Hopen Hcool. rewrite H1, H2.
  unfold reported, after_stats, cooled_down. rewrite Hopen. cbn.
  destruct (Z.ltb_spec 60000 (now - lastFailure st)); [now split | lia].
Qed.

Lemma stats_report_and_half_open_witness :
  let m : gmap string CircuitState := {["chat" := mkCircuit 5 1000 POpen]} in
  let out := getCircuitBreakerStats 70000 m in
  m !! "chat" = Some (mkCircuit 5 1000 POpen)
  /\ "chat" <> "__proto__"
  /\ fst out !! "chat" = Some (CircuitStats.mk 5 1000 POpen false)
  /\ snd out !! "chat" = Some (mkCircuit 5 1000 PHalfOpen).
Proof.
  intros m out.
  assert (Hst : m !! "chat" = Some (mkCircuit 5 1000 POpen))
    by apply lookup_singleton_eq.
  assert (Hkey : "chat" <> "__proto__") by discriminate.
  split; [exact Hst |]. split; [exact Hkey |].
  destruct (stats_report_and_half_open 70000 m "chat" _ Hst Hkey)
    as (_ & _ & Hopen).
  apply Hopen; [reflexivity | cbn; lia].
Defined.

(** *** An invariant of every history *)

Lemma after_stats_ok (now : Z) (st : CircuitState) :
  circuit_ok st -> circuit_ok (after_stats now st).
Proof.
  intros [Hpos Hiff]. unfold after_stats, cooled_down.
  destruct (is_open (state st)) eqn:Hopen; cbn; [| now split].
  destruct (60000 <? now - lastFailure st); [| now split].
  split; cbn; [exact Hpos |]. split; [discriminate |].
  intros Hlt. apply Hiff in Hlt. rewrite Hlt in Hopen. discriminate.
Qed.

Lemma manager_step_ok {T} (m : gmap string CircuitState) (o : ManagerOp T) :
  map_Forall (fun _ st => circuit_ok st) m ->
  map_Forall (fun _ st => circuit_ok st) (manager_step m o).
Proof.
  intros Hall key st Hget.
  destruct o as [k op config w | k | | now]; cbn in Hget.
  - destruct (string_dec key k) as [-> | Hne].
    + apply (retryWithCircuitBreaker_ok op k config m w); [| exact Hget].
      intros st0 Hst0. now apply (Hall k).
    + rewrite retryWithCircuitBreaker_other in Hget by exact Hne.
      now apply (Hall key).
  - unfold resetCircuitBreaker in Hget.
    apply lookup_delete_Some in Hget as [_ Hget]. now apply (Hall key).
  - unfold resetAllCircuitBreakers in Hget. now rewrite lookup_empty in Hget.
  - rewrite (proj2 (getCircuitBreakerStats_lookup now m key)) in Hget.
    destruct (m !! key) as [st0 |] eqn:Hst0; [| discriminate].
    cbn in Hget. injection Hget as <-.
    apply after_stats_ok. now apply (Hall key).
Qed.

(** X23: Whatever calls, resets and statistics reads a manager has served since
    it was created, every circuit it stores has a failure count that is not
    negative and is closed exactly when that count is below five. *)
Theorem stored_circuits_consistent {T} (ops : list (ManagerOp T)) :
  map_Forall (fun _ st => circuit_ok st) (manager_run ops).
Proof.
  unfold manager_run.
  assert (Hgen : forall m : gmap string CircuitState,
             map_Forall (fun _ st => circuit_ok st) m ->
             map_Forall (fun _ st => circuit_ok st) (fold_left manager_step ops m)).
  { induction ops as [| o ops IH]; intros m Hm; cbn; [exact Hm |].
    apply IH. now apply manager_step_ok. }
  apply Hgen. apply map_Forall_empty.
Qed.

(** *** Retry conditions *)

Lemma message_matches_incl (words words' : list string) (msg : string) :
  incl words words' ->
  message_matches words msg = true -> message_matches words' msg = true.
Proof.
  unfold message_matches. intros Hincl Hex.
  apply List.existsb_exists in Hex as (x & Hin & Hx).
  apply List.existsb_exists. exists x. split; [now apply Hincl | exact Hx].
Qed.

(** X24: The API profile is stricter than the default condition: every error it
    would retry, the default condition would retry as well. *)
Theorem api_condition_implies_default (includeNetwork : bool) (e : JsError) :
  apiRetryCondition includeNetwork e = true -> defaultRetryCondition e = true.
Proof.
  unfold apiRetryCondition, defaultRetryCondition.
  destruct (truthy_status e); [trivial |].
  destruct (truthy_message e) as [msg |]; [| trivial].
  destruct includeNetwork; [| discriminate].
  apply message_matches_incl. intros x [<- | [<- | [<- | []]]]; cbn; tauto.
Qed.

Lemma api_condition_implies_default_witness :
  let e := mkError None (Some "Network unreachable") in
  apiRetryCondition true e = true /\ defaultRetryCondition e = true.
Proof.
  intros e.
  assert (H : apiRetryCondition true e = true) by reflexivity.
  split; [exact H | exact (api_condition_implies_default true e H)].
Defined.

End RetryMore.

(** ** PerformanceMonitor: bounded logs, slowest operations, hourly buckets *)

Module MonitorMore.
Import Monitor JsFacts JsMore MonitorFacts.

Lemma slice_last_length {A} (n : nat) (l : list A) :
  List.length (Js.slice_last n l) = Nat.min n (List.length l).
Proof. unfold Js.slice_last. rewrite List.length_skipn. lia. Qed.

Lemma push_bounded {A} (cap : nat) (l : list A) (x : A) :
  let pushed := (l ++ [x])%list in
  let kept := if (cap <? List.length pushed)%nat
              then Js.slice_last cap pushed else pushed in
  (List.length kept <= cap \/ List.length kept = List.length pushed)%nat
  /\ (List.length l <= cap -> List.length kept <= cap)%nat
  /\ ((0 < cap)%nat -> exists front, kept = (front ++ [x])%list)
  /\ ((List.length l = cap)%nat -> (0 < cap)%nat ->
      kept = (tl l ++ [x])%list).
Proof.
  intros pushed kept. unfold kept, pushed.
  assert (Hlen : List.length (l ++ [x]) = (List.length l + 1)%nat)
    by (rewrite List.length_app; reflexivity).
  destruct (Nat.ltb_spec cap (List.length (l ++ [x]))) as [Hover | Hfits].
  - rewrite slice_last_length, Hlen.
    split; [lia |]. split; [lia |]. split.
    + intros Hcap. unfold Js.slice_last. rewrite Hlen, List.skipn_app.
      replace (List.length l + 1 - cap - List.length l)%nat with 0%nat by lia.
      cbn [skipn]. now eexists.
    + intros Hl Hcap. unfold Js.slice_last. rewrite Hlen, Hl.
      replace (cap + 1 - cap)%nat with 1%nat by lia.
      destruct l; [cbn in Hl; lia | reflexivity].
  - split; [lia |]. split; [lia |]. split; [intros _; now eexists | lia].
Qed.

Lemma record_bounded (mon : PerformanceMonitor) (ev : Event) :
  (List.length (metrics mon) <= maxMetrics)%nat ->
  (List.length (errors mon) <= maxErrors)%nat ->
  (List.length (metrics (record mon ev)) <= maxMetrics)%nat
  /\ (List.length (errors (record mon ev)) <= maxErrors)%nat.
Proof.
  intros Hm He. destruct ev as [metric | er ctx sev ua url now | age now]; cbn.
  - split; [| exact He].
    now apply (push_bounded maxMetrics (metrics mon) metric).
  - split; [exact Hm |].
    now apply (push_bounded maxErrors (errors mon)
                 (ErrorLog.mk now er ctx sev ua url)).
  - split.
    + etransitivity; [apply List.filter_length_le | exact Hm].
    + etransitivity; [apply List.filter_length_le | exact He].
Qed.

(** X25: Both logs are ring buffers: whatever has been recorded since the
    monitor was created, it holds at most 1000 metrics and 500 errors; a
    metric added to a full log takes the place of the oldest one and is the
    newest entry. *)
Theorem logs_are_bounded (evs : list Event) (metric : Metric.t) :
  let mon := history evs in
  (List.length (metrics mon) <= 1000)%nat
  /\ (List.length (errors mon) <= 500)%nat
  /\ (exists front, metrics (addMetric metric mon) = (front ++ [metric])%list)
  /\ (List.length (metrics mon) = 1000%nat ->
      metrics (addMetric metric mon) = (tl (metrics mon) ++ [metric])%list).
Proof.
  intros mon.
  assert (Hb : (List.length (metrics mon) <= maxMetrics)%nat
               /\ (List.length (errors mon) <= maxErrors)%nat).
  { unfold mon, history.
    assert (Hgen : forall m0,
               (List.length (metrics m0) <= maxMetrics)%nat ->
               (List.length (errors m0) <= maxErrors)%nat ->
               (List.length (metrics (fold_left record evs m0)) <= maxMetrics)%nat
               /\ (List.length (errors (fold_left record evs m0)) <= maxErrors)%nat).
    { induction evs as [| ev evs IH]; intros m0 Hm He; cbn; [now split |].
      destruct (record_bounded m0 ev Hm He). now apply IH. }
    apply Hgen; cbn; lia. }
  destruct Hb as [Hm He].
  split; [exact Hm |]. split; [exact He |].
  destruct (push_bounded maxMetrics (metrics mon) metric) as (_ & _ & Hlast & Hfull).
  split.
  - apply Hlast. unfold maxMetrics. lia.
  - intros Hlen. apply Hfull; [exact Hlen | unfold maxMetrics; lia].
Qed.

(** X26: [slowestOperations] holds the metrics of the window by decreasing
    duration, ten of them or all when there are fewer; together with the
    unlisted ones they are exactly the metrics of the window, and no
    unlisted metric took longer than a listed one. *)
Theorem slowest_operations_are_the_slowest (timeRange now : Z)
  (mon : PerformanceMonitor) :
  let stats := getPerformanceStats timeRange now mon in
  let window :=
    List.filter (fun m => in_window (now - timeRange) (Metric.timestamp m))
      (metrics mon) in
  StronglySorted at_least_as_slow (slowestOperations stats)
  /\ Z.of_nat (List.length (slowestOperations stats))
     = Z.min 10 (totalOperations stats)
  /\ exists rest,
       Permutation window (slowestOperations stats ++ rest)
       /\ forall a b, List.In a (slowestOperations stats) -> List.In b rest ->
                      at_least_as_slow a b.
Proof.
  intros stats window. unfold stats, getPerformanceStats.
  cbn [slowestOperations totalOperations]. fold window.
  set (sorted := Js.sort_by slower_first window).
  assert (Hsorted : StronglySorted at_least_as_slow sorted).
  { apply sort_by_sorted; unfold at_least_as_slow, slower_first.
    - intros x y Hxy. apply negb_true_iff in Hxy.
      apply Qlt_le_weak, Qnot_le_lt. intros Hle.
      apply Qle_bool_iff in Hle. congruence.
    - intros x y Hxy. apply negb_false_iff in Hxy. now apply Qle_bool_iff.
    - intros x y z Hxy Hyz. eapply Qle_trans; eassumption. }
  destruct (slice0_prefix 10 sorted) as (k & Heq & Hlen). rewrite Heq in *.
  destruct (sorted_split at_least_as_slow k sorted Hsorted) as [Hfirst Htop].
  split; [exact Hfirst |]. split.
  - rewrite Hlen by lia. unfold sorted.
    now rewrite <- (Permutation_length (sort_by_perm _ _)).
  - exists (skipn k sorted). split; [| exact Htop].
    rewrite List.firstn_skipn. apply sort_by_perm.
Qed.

(** *** Hourly buckets *)

Lemma count_between_split (lo mid hi : Z) (l : list ErrorLog.t) :
  lo <= mid -> mid <= hi ->
  count_between lo hi l = count_between lo mid l + count_between mid hi l.
Proof.
  intros Hlo Hhi. unfold count_between.
  induction l as [| e r IH]; cbn [List.filter]; [reflexivity |].
  destruct (Z.leb_spec lo (ErrorLog.timestamp e));
    destruct (Z.ltb_spec (ErrorLog.timestamp e) hi);
    destruct (Z.ltb_spec (ErrorLog.timestamp e) mid);
    destruct (Z.leb_spec mid (ErrorLog.timestamp e));
    cbn [andb List.length]; lia.
Qed.

Lemma hourly_sum (now : Z) (l : list ErrorLog.t) (n : nat) :
  zsum (map (fun i => errors_in_hour now l (Z.of_nat i)) (seq 0 n))
  = count_between (now - Z.of_nat n * hour_ms) now l.
Proof.
  induction n as [| n IH].
  - cbn. unfold count_between. rewrite Z.sub_0_r.
    replace (List.filter _ l) with (@nil ErrorLog.t); [reflexivity |].
    symmetry. induction l as [| e r IHl]; cbn; [reflexivity |].
    destruct (Z.leb_spec now (ErrorLog.timestamp e));
      destruct (Z.ltb_spec (ErrorLog.timestamp e) now); cbn; try lia; exact IHl.
  - rewrite List.seq_S, List.map_app. cbn [map Nat.add].
    assert (Happ : forall a b, zsum (a ++ b) = zsum a + zsum b).
    { intros a b. unfold zsum. induction a as [| x a IHa]; cbn; [reflexivity | lia]. }
    rewrite Happ, IH. cbn [zsum fold_right].
    unfold errors_in_hour. fold (count_between
      (now - (Z.of_nat n + 1) * hour_ms) (now - Z.of_nat n * hour_ms) l).
    rewrite (count_between_split (now - Z.of_nat (S n) * hour_ms)
               (now - Z.of_nat n * hour_ms) now); unfold hour_ms; try lia.
    replace (Z.of_nat (S n)) with (Z.of_nat n + 1) by lia. lia.
Qed.

Lemma trends_fold (now : Z) (l : list ErrorLog.t) (hours : list nat)
  (acc : list (Z * Z)) :
  fold_left
    (fun trends i =>
       let i := Z.of_nat i in (23 - i, errors_in_hour now l i) :: trends)
    hours acc
  = (rev (map (fun i => (23 - Z.of_nat i, errors_in_hour now l (Z.of_nat i)))
            hours)
     ++ acc)%list.
Proof.
  revert acc. induction hours as [| i hours IH]; intros acc; cbn; [reflexivity |].
  rewrite IH, <- List.app_assoc. reflexivity.
Qed.

Lemma zsum_rev (l : list Z) : zsum (rev l) = zsum l.
Proof.
  unfold zsum. induction l as [| x r IH]; cbn; [reflexivity |].
  rewrite List.fold_right_app. cbn. rewrite <- IH.
  generalize (rev r). intros a. induction a as [| y a IHa]; cbn; lia.
Qed.

(** X27: [errorTrends] has one bucket per hour, numbered 0 to 23 from the oldest
    to the most recent; the bucket numbered [h] counts the errors of the
    window stamped from [24 - h] hours ago (included) to [23 - h] hours ago
    (excluded); so the buckets add up to the errors of the window stamped
    within the last 24 hours and strictly before [now]: an error stamped
    exactly [now] is in [totalErrors] but in no bucket. *)
Theorem error_trends_partition_the_day (timeRange now : Z)
  (mon : PerformanceMonitor) :
  let stats := getErrorStats timeRange now mon in
  let window :=
    List.filter (fun e => in_window (now - timeRange) (ErrorLog.timestamp e))
      (errors mon) in
  map fst (errorTrends stats) = map Z.of_nat (seq 0 24)
  /\ (forall h c, List.In (h, c) (errorTrends stats) ->
        c = count_between (now - (24 - h) * hour_ms)
              (now - (23 - h) * hour_ms) window)
  /\ zsum (map snd (errorTrends stats))
     = count_between (now - 24 * hour_ms) now window
  /\ totalErrors stats
     = Z.of_nat (List.length window).
Proof.
  intros stats window. unfold stats, getErrorStats.
  cbn [errorTrends totalErrors]. fold window.
  rewrite trends_fold, List.app_nil_r.
  split; [| split; [| split; [| reflexivity]]].
  - rewrite List.map_rev, List.map_map. reflexivity.
  - intros h c Hin. apply List.in_rev in Hin.
    apply List.in_map_iff in Hin as (i & Heq & _). injection Heq as <- <-.
    replace (24 - (23 - Z.of_nat i)) with (Z.of_nat i + 1) by lia.
    replace (23 - (23 - Z.of_nat i)) with (Z.of_nat i) by lia.
    reflexivity.
  - rewrite List.map_rev, List.map_map, zsum_rev. cbn [snd].
    exact (hourly_sum now window 24).
Qed.

(** *** The health score *)

Lemma health_score_formula_witness :
  let mon :=
    mkMonitor []
      [ErrorLog.mk 900 "boom" "chat" critical None None;
       ErrorLog.mk 950 "slow" "chat" high None None] in
  0 < severity_count critical day_ms 1000 mon
  /\ 0 < severity_count high day_ms 1000 mon
  /\ exists q, Report.healthScore (generateReport 1000 mon) = Js.Fin q
               /\ (0 <= q <= 100)%Q.
Proof.
  intros mon.
  assert (Hc : 0 < severity_count critical day_ms 1000 mon) by reflexivity.
  assert (Hh : 0 < severity_count high day_ms 1000 mon) by reflexivity.
  split; [exact Hc |]. split; [exact Hh |].
  destruct (health_score_formula 1000 mon Hc Hh) as (q & Hq & _ & Hrange).
  exists q. split; [exact Hq | exact Hrange].
Defined.

End MonitorMore.

Module ErrorHandlerFacts.
Import ErrorHandler.

Ltac split_tests :=
  repeat match goal with
         | |- context [match ?x with _ => _ end] => destruct x eqn:?
         | H : context [match ?x with _ => _ end] |- _ => destruct x eqn:?
         end.

(** What [categorizeError] returns carries the flags of its branch: only an
    unknown error is not actionable. *)
Lemma categorizeError_actionable (on : bool) (t : Z) (error : option Thrown)
  (ctx : string) (a : AppError) :
  categorizeError on t error ctx = inr a ->
  actionable a = match type a with UNKNOWN_ERROR => false | _ => true end.
Proof.
  unfold categorizeError, if_else, bind. intros H.
  repeat match type of H with
         | context [match ?x with _ => _ end] => destruct x eqn:?
         end;
    try discriminate; injection H as <-; reflexivity.
Qed.

(** X29: [handle] never shows a blocking alert. The [alert] of
    [showUserNotification] is guarded by the type being [UNKNOWN_ERROR], and
    [notifyUser] calls it only for actionable errors, which an unknown error
    never is: whenever [handle] returns, the user gets the one console notice
    with the error's user message when the type is known, and nothing at all
    when it is unknown, in which case the monitor's entry is critical. *)
Theorem handle_never_alerts (env : Env) (error : option Thrown)
  (ctx : option string) (queue : list AppError)
  (mon : Monitor.PerformanceMonitor) :
  match handle env error ctx queue mon with
  | inl _ => True
  | inr h =>
      existsb is_alert (notices h) = false
      /\ notices h =
           match type (appError h) with
           | UNKNOWN_ERROR => []
           | _ => [Warn (userMessage (appError h))]
           end
      /\ (getSeverity (appError h) = Monitor.critical
          <-> type (appError h) = UNKNOWN_ERROR)
  end.
Proof.
  unfold handle.
  destruct (categorizeError _ _ _ _) as [ex|a] eqn:Hc; [exact I|].
  apply categorizeError_actionable in Hc. cbn.
  unfold notifyUser, showUserNotification, getSeverity. rewrite Hc.
  destruct (type a); cbn; repeat split; intros; congruence.
Qed.

Lemma message_includes_text (e : Thrown) (word : string) :
  odd_message (Some e) = false ->
  exists b, message_includes (Some e) word = inr b.
Proof.
  unfold odd_message, message_includes.
  destruct (message e) as [[msg |] |]; [eauto | discriminate | eauto].
Qed.

(** A value with a message that is not a string makes every test on the
    message throw. *)
Lemma message_includes_odd (error : option Thrown) (word : string) :
  odd_message error = true -> message_includes error word = inl NotAFunction.
Proof.
  unfold odd_message, message_includes.
  destruct error as [e |]; [| discriminate].
  now destruct (message e) as [[msg |] |].
Qed.

Lemma categorizeError_odd (on : bool) (t : Z) (error : option Thrown)
  (ctx : string) :
  odd_message error = true ->
  categorizeError on t error ctx = inl NotAFunction.
Proof.
  intros Hodd. unfold categorizeError, isApiError, if_else, or_else, bind.
  rewrite !(message_includes_odd error _ Hodd).
  assert (Hmsg : forall fallback, message_or error fallback = inl NotAFunction).
  { intros fallback. unfold odd_message in Hodd. unfold message_or.
    destruct error as [e |]; [| discriminate].
    now destruct (message e) as [[msg |] |]. }
  rewrite Hmsg.
  destruct error as [e |]; [| discriminate].
  destruct (response e); [reflexivity |].
  now destruct (truthy_status (Some e)).
Qed.

Lemma categorizeError_text (on : bool) (t : Z) (e : Thrown) (ctx : string) :
  odd_message (Some e) = false ->
  exists a, categorizeError on t (Some e) ctx = inr a.
Proof.
  intros Hodd.
  assert (Hmsg : forall fallback, exists msg,
             message_or (Some e) fallback = inr msg).
  { intros fallback. unfold odd_message in Hodd. unfold message_or.
    destruct (message e) as [[[| c r] |] |]; solve [eauto | discriminate]. }
  assert (Hlow : exists msg, lowered_message (Some e) = inr msg).
  { unfold odd_message in Hodd. unfold lowered_message.
    destruct (message e) as [[msg |] |]; solve [eauto | discriminate]. }
  unfold categorizeError, isApiError, isNetworkError, isValidationError,
    isRetryableApiError, getApiErrorMessage, getValidationErrorMessage,
    if_else, or_else, bind.
  destruct Hlow as [low ->].
  repeat match goal with
         | |- context [message_includes (Some e) ?w] =>
             let b := fresh "b" in
             let Hb := fresh "Hb" in
             destruct (message_includes_text e w Hodd) as [b Hb];
             rewrite Hb; clear Hb
         | |- context [message_or (Some e) ?f] =>
             let m := fresh "m" in
             let Hm := fresh "Hm" in
             destruct (Hmsg f) as [m Hm]; rewrite Hm; clear Hm
         end.
  split_tests; solve [discriminate | eauto].
Qed.

(** X30: [handle] throws a TypeError instead of returning in exactly two
    cases: the value it is given is [null] or [undefined] while the browser
    is online (every branch of [categorizeError] but the network one reads
    [error.message]), or the value carries a message that is not a string
    (the tests call [includes] on it). Offline, [null] and [undefined] are
    reported as a network error. *)
Theorem handle_throws_iff_unreadable (env : Env) (error : option Thrown)
  (ctx : option string) (queue : list AppError)
  (mon : Monitor.PerformanceMonitor) :
  (exists ex, handle env error ctx queue mon = inl ex)
  <-> (error = None /\ online env = true) \/ odd_message error = true.
Proof.
  unfold handle. split.
  - intros [ex H]. destruct error as [e |].
    + right. destruct (odd_message (Some e)) eqn:Hodd; [reflexivity |].
      destruct (categorizeError_text (online env) (now env) e
                  (default "unknown" ctx) Hodd) as [a Ha].
      rewrite Ha in H. discriminate.
    + left. split; [reflexivity |].
      destruct (online env); [reflexivity |].
      cbn in H. discriminate.
  - intros [[-> Hon] | Hodd].
    + rewrite Hon. exists CannotReadMessage. cbn.
      repeat match goal with
             | |- context [if ?b then _ else _] => destruct b
             end; reflexivity.
    + exists NotAFunction. now rewrite categorizeError_odd.
Qed.

End ErrorHandlerFacts.
